(** * Pytorch-Gpipe: the control-flow graph and the partitioner adapter

    A shallow embedding of [model_partition/graph/control_flow_graph.py]
    (classes [Node] and [Graph]) and of [weight_func] from
    [model_Inference/graph/partition_model.py], with the properties the
    specification states about them.

    Python objects live in a store: [Node] objects are addressed by their
    position in the list of allocated objects, and so are the [set] objects
    held in [Node.in_nodes], because [copy(new_node)] makes several nodes
    share one such set. *)

From Stdlib Require Import ZArith Floats Lia Ascii String.
From stdpp Require Import gmap strings list pretty.

Set Default Proof Using "Type".

(** ** Python values and exceptions *)

Module Py.

(** The built-in exceptions that the modelled code can raise. *)
Inductive exn :=
  | IndexError
  | TypeError
  | ValueError
  | StopIteration
  | AttributeError
  | OverflowError.

(** The class name of an exception, as [type(e).__name__] gives it. *)
Definition exn_name (e : exn) : string :=
  match e with
  | IndexError => "IndexError"
  | TypeError => "TypeError"
  | ValueError => "ValueError"
  | StopIteration => "StopIteration"
  | AttributeError => "AttributeError"
  | OverflowError => "OverflowError"
  end.

(** The outcome of running a piece of Python: a value, an exception that
    reached the caller, or [Stuck] where there is no Python behaviour to give:
    the model of a [while] loop was handed too few iterations, or an address
    names no object. Neither happens in the runs below, see
    [_remove_nodes_terminates] and [Graph_init_not_stuck]. *)
Inductive result (A : Type) :=
  | Ok (a : A)
  | Raise (e : exn)
  | Stuck.
Arguments Ok {A} a.
Arguments Raise {A} e.
Arguments Stuck {A}.

(** [int(x)] for a float [x]: truncation towards zero; [OverflowError] on an
    infinity and [ValueError] on a NaN. The float is read through its
    IEEE 754 decomposition [(-1)^s * m * 2^e]. *)
Definition int_of_float (x : float) : result Z :=
  match Prim2SF x with
  | S754_zero _ => Ok 0%Z
  | S754_infinity _ => Raise OverflowError
  | S754_nan => Raise ValueError
  | S754_finite s m e =>
      let a := if (0 <=? e)%Z then Z.shiftl (Z.pos m) e
               else Z.shiftr (Z.pos m) (- e) in
      Ok (if s then (- a)%Z else a)
  end.

(** [round(x)] for a float [x] and no second argument: the nearest integer,
    ties going to the even one. *)
Definition round_float (x : float) : result Z :=
  match Prim2SF x with
  | S754_zero _ => Ok 0%Z
  | S754_infinity _ => Raise OverflowError
  | S754_nan => Raise ValueError
  | S754_finite s m e =>
      let a :=
        if (0 <=? e)%Z then Z.shiftl (Z.pos m) e
        else
          let d := Z.shiftl 1 (- e) in
          let q := (Z.pos m / d)%Z in
          let r := (Z.pos m mod d)%Z in
          match (2 * r ?= d)%Z with
          | Lt => q
          | Gt => (q + 1)%Z
          | Eq => if Z.even q then q else (q + 1)%Z
          end in
      Ok (if s then (- a)%Z else a)
  end.

(** [s.startswith(p)] *)
Definition startswith (s p : string) : bool := String.prefix p s.

(** [p in s] for strings: [p] occurs in [s] as a substring. *)
Fixpoint contains (s p : string) : bool :=
  String.prefix p s ||
  match s with
  | EmptyString => false
  | String _ s' => contains s' p
  end.

(** [s.split(sep)] for a one-character separator: the pieces between the
    separators, empty pieces included. *)
Fixpoint split (sep : ascii) (s : string) : list string :=
  match s with
  | EmptyString => [EmptyString]
  | String c s' =>
      if Ascii.eqb c sep then EmptyString :: split sep s'
      else match split sep s' with
           | piece :: pieces => String c piece :: pieces
           | [] => [String c EmptyString]
           end
  end.

(** White space as [int] strips it (the ASCII part of [str.isspace]). *)
Definition isspace (c : ascii) : bool :=
  let n := nat_of_ascii c in
  (9 <=? n) && (n <=? 13) || (28 <=? n) && (n <=? 32).

Fixpoint lstrip (s : string) : string :=
  match s with
  | EmptyString => EmptyString
  | String c s' => if isspace c then lstrip s' else s
  end.

Definition strip (s : string) : string :=
  String.rev (lstrip (String.rev (lstrip s))).

Definition digit (c : ascii) : option Z :=
  let n := nat_of_ascii c in
  if (48 <=? n) && (n <=? 57) then Some (Z.of_nat (n - 48)) else None.

(** Decimal digits, single underscores allowed between two digits. *)
Fixpoint digits (acc : Z) (after_digit : bool) (s : string) : option Z :=
  match s with
  | EmptyString => if after_digit then Some acc else None
  | String c s' =>
      match digit c with
      | Some d => digits (10 * acc + d) true s'
      | None =>
          if Ascii.eqb c "_" && after_digit then digits acc false s'
          else None
      end
  end.

(** [int(s)] for a string [s], base ten: surrounding white space and one
    sign are accepted; anything else raises [ValueError]. *)
Definition int_of_string (s : string) : result Z :=
  let body :=
    match strip s with
    | String "-" s' => Z.opp <$> digits 0 false s'
    | String "+" s' => digits 0 false s'
    | s' => digits 0 false s'
    end in
  match body with
  | Some z => Ok z
  | None => Raise ValueError
  end.

(** [str(n)] for a non-negative [int]. *)
Definition str (n : nat) : string := pretty n.

(** [tuple(map(f, l))] for an [f] that may raise. *)
Fixpoint map_result {A B} (f : A → result B) (l : list A) : result (list B) :=
  match l with
  | [] => Ok []
  | x :: l' =>
      match f x with
      | Ok y =>
          match map_result f l' with
          | Ok ys => Ok (y :: ys)
          | Raise e => Raise e
          | Stuck => Stuck
          end
      | Raise e => Raise e
      | Stuck => Stuck
      end
  end.

End Py.
Import Py.

(** ** The partitioner adapter: [weight_func] *)

(** The values a node weight takes: the [int] that graph construction
    computes, a number or a timing record supplied through the [weights]
    dictionary (a named tuple with fields [forward_time] and
    [backward_time], both floats, in milliseconds), or some other tuple. *)
Inductive Weight :=
  | WInt (n : Z)
  | WFloat (x : float)
  | WTimes (forward_time backward_time : float)
  | WTuple (items : list Z).

(** [isinstance(w, tuple)] *)
Definition is_tuple (w : Weight) : bool :=
  match w with
  | WTimes _ _ | WTuple _ => true
  | WInt _ | WFloat _ => false
  end.

(** The scaled cost [100*(w.forward_time+w.backward_time)/2], a float. *)
Definition scaled_time (f b : float) : float := (100 * (f + b) / 2)%float.

(** [weight_func], partition_model.py lines 32-35. A tuple without the
    attribute [forward_time] makes the attribute access raise. *)
Definition weight_func (w : Weight) : result Z :=
  match w with
  | WTimes f b => int_of_float (scaled_time f b)
  | WTuple _ => Raise AttributeError
  | WInt _ | WFloat _ => Ok 0%Z
  end.

(** The weight the specification's scaling policy gives: [round] in place of
    [int], and zero for every value that is not a timing record. *)
Definition weight_policy_of_spec (w : Weight) : result Z :=
  match w with
  | WTimes f b => round_float (scaled_time f b)
  | _ => Ok 0%Z
  end.


(** ** The object store *)

(** A [Node] object is named by its address in the store, and so is the
    [set] object a node holds in [in_nodes]. *)
Abbreviation addr := nat (only parsing).
Abbreviation loc := nat (only parsing).

(** [class NodeTypes(Enum)], with values 1 to 4. *)
Inductive NodeTypes := IN | BUFF_PARAM | LAYER | OP.

Global Instance NodeTypes_eq_dec : EqDecision NodeTypes.
Proof. solve_decision. Defined.

(** The attributes of a [Node] object. [idx] is a length or an [enumerate]
    counter wherever this code sets it, so it is never negative.
    [out_nodes] is held in the record: the set bound to it is made by
    [set()] in [__init__] or at line 199 and is reachable from this attribute
    only. [in_nodes] is the address of a set in the store: [__init__] binds
    it to the caller's set and [copy] makes the copies share it. *)
Record Node := mkNode {
  scope : string;
  idx : nat;
  type : NodeTypes;
  out_nodes : gset addr;
  weight : Weight;
  part : Z;
  output_shape : list (list Z);
  in_nodes : loc
}.

Definition with_idx (i : nat) (n : Node) : Node :=
  mkNode (scope n) i (type n) (out_nodes n) (weight n) (part n)
    (output_shape n) (in_nodes n).
Definition with_out_nodes (s : gset addr) (n : Node) : Node :=
  mkNode (scope n) (idx n) (type n) s (weight n) (part n)
    (output_shape n) (in_nodes n).
Definition with_weight (w : Weight) (n : Node) : Node :=
  mkNode (scope n) (idx n) (type n) (out_nodes n) w (part n)
    (output_shape n) (in_nodes n).

(** The store and the attributes of the one [Graph] object under
    construction. *)
Record State := mkState {
  heap_nodes : list Node;
  heap_sets : list (gset addr);
  nodes : list addr;
  profiled_layers : list string;
  num_inputs_buffs_params : nat;
  num_inputs : nat;
  buffer_param_names : list string
}.

Definition with_heap_nodes (h : list Node) (st : State) : State :=
  mkState h (heap_sets st) (nodes st) (profiled_layers st)
    (num_inputs_buffs_params st) (num_inputs st) (buffer_param_names st).
Definition with_heap_sets (h : list (gset addr)) (st : State) : State :=
  mkState (heap_nodes st) h (nodes st) (profiled_layers st)
    (num_inputs_buffs_params st) (num_inputs st) (buffer_param_names st).
Definition with_nodes (l : list addr) (st : State) : State :=
  mkState (heap_nodes st) (heap_sets st) l (profiled_layers st)
    (num_inputs_buffs_params st) (num_inputs st) (buffer_param_names st).
Definition with_num_inputs_buffs_params (k : nat) (st : State) : State :=
  mkState (heap_nodes st) (heap_sets st) (nodes st) (profiled_layers st)
    k (num_inputs st) (buffer_param_names st).

(** [a.out_nodes] and [a.in_nodes], read as sets of addresses. *)
Definition out_of (st : State) (a : addr) : gset addr :=
  from_option out_nodes ∅ (heap_nodes st !! a).
Definition in_of (st : State) (a : addr) : gset addr :=
  default ∅ (n ← heap_nodes st !! a; heap_sets st !! in_nodes n).
Definition scope_of (st : State) (a : addr) : string :=
  from_option scope EmptyString (heap_nodes st !! a).
Definition idx_of (st : State) (a : addr) : nat :=
  from_option idx 0 (heap_nodes st !! a).
Definition weight_of (st : State) (a : addr) : Weight :=
  from_option weight (WInt 0) (heap_nodes st !! a).

(** ** Stateful code that may raise *)

Definition M (A : Type) : Type := State → result (A * State).

Definition ret {A} (a : A) : M A := λ st, Ok (a, st).
Definition bind {A B} (m : M A) (k : A → M B) : M B :=
  λ st,
    match m st with
    | Ok (a, st') => k a st'
    | Raise e => Raise e
    | Stuck => Stuck
    end.
Definition raise {A} (e : exn) : M A := λ _, Raise e.
Definition stuck {A} : M A := λ _, Stuck.
Definition get : M State := λ st, Ok (st, st).
Definition modify (f : State → State) : M unit := λ st, Ok (tt, f st).
Definition lift {A} (r : result A) : M A :=
  λ st,
    match r with
    | Ok a => Ok (a, st)
    | Raise e => Raise e
    | Stuck => Stuck
    end.

Notation "'let!' x ':=' m 'in' k" := (bind m (λ x, k))
  (at level 10, x name, m at level 100, k at level 200,
   format "'[v' 'let!'  x  ':='  m  'in' '/' k ']'").

(** [for x in l: body(x)]. A loop over a Python set runs over [elements]
    of the set: Python fixes no order for it, and the loops below that run
    over a set (lines 188, 244 and 247) update at each round the edge set of
    the node at hand only. *)
Fixpoint for_each {A} (l : list A) (body : A → M unit) : M unit :=
  match l with
  | [] => ret tt
  | x :: l' => let! _ := body x in for_each l' body
  end.

(** ** class Node *)

(** What a caller may pass where a node is expected. *)
Inductive pyarg :=
  | ANode (a : addr)
  | ASet (s : gset addr)
  | AFrozenSet (s : gset addr)
  | AList (l : list addr)
  | ANone
  | AInt (z : Z)
  | AStr (s : string).

Definition isinstance_Node (x : pyarg) : bool :=
  match x with ANode _ => true | _ => false end.
Definition isinstance_set (x : pyarg) : bool :=
  match x with ASet _ => true | _ => false end.

Definition new_set (s : gset addr) : M loc :=
  λ st, Ok (length (heap_sets st), with_heap_sets (heap_sets st ++ [s]) st).
Definition new_object (n : Node) : M addr :=
  λ st, Ok (length (heap_nodes st), with_heap_nodes (heap_nodes st ++ [n]) st).

(** In-place update of [self.out_nodes], and of the set [self.in_nodes]
    points to. *)
Definition update_out_nodes (self : addr) (f : gset addr → gset addr)
    (st : State) : State :=
  with_heap_nodes
    (alter (λ n, with_out_nodes (f (out_nodes n)) n) self (heap_nodes st)) st.
Definition update_in_nodes (self : addr) (f : gset addr → gset addr)
    (st : State) : State :=
  match heap_nodes st !! self with
  | Some n => with_heap_sets (alter f (in_nodes n) (heap_sets st)) st
  | None => st
  end.

(** [Node.__init__], lines 63-71, for an [output_shape] that is a tuple (it
    is one at both call sites). [incoming_nodes] is the address of the
    caller's set, or [None]. *)
Definition Node_init (scope : string) (idx : nat) (node_type : NodeTypes)
    (output_shape : list Z) (incoming_nodes : option loc) (weight : Weight)
    (part : Z) : M addr :=
  let! in_nodes :=
    match incoming_nodes with
    | Some l => ret l
    | None => new_set ∅
    end in
  new_object (mkNode scope idx node_type ∅ weight part [output_shape] in_nodes).

(** [add_out_node], lines 73-77: the two [isinstance] tests, one after the
    other. A set argument is read when the call is made, so it is passed by
    its members. *)
Definition add_out_node (self : addr) (node : pyarg) : M unit :=
  let! _ :=
    match node with
    | ANode a => modify (update_out_nodes self (λ s, s ∪ {[a]}))
    | _ => ret tt
    end in
  match node with
  | ASet s' => modify (update_out_nodes self (λ s, s ∪ s'))
  | _ => ret tt
  end.

(** [add_in_node], lines 79-83. *)
Definition add_in_node (self : addr) (node : pyarg) : M unit :=
  let! _ :=
    match node with
    | ANode a => modify (update_in_nodes self (λ s, s ∪ {[a]}))
    | _ => ret tt
    end in
  match node with
  | ASet s' => modify (update_in_nodes self (λ s, s ∪ s'))
  | _ => ret tt
  end.

(** [remove_in_node], lines 85-89. *)
Definition remove_in_node (self : addr) (node : pyarg) : M unit :=
  let! _ :=
    match node with
    | ANode a => modify (update_in_nodes self (λ s, s ∖ {[a]}))
    | _ => ret tt
    end in
  match node with
  | ASet s' => modify (update_in_nodes self (λ s, s ∖ s'))
  | _ => ret tt
  end.

(** [remove_out_node], lines 91-95. *)
Definition remove_out_node (self : addr) (node : pyarg) : M unit :=
  let! _ :=
    match node with
    | ANode a => modify (update_out_nodes self (λ s, s ∖ {[a]}))
    | _ => ret tt
    end in
  match node with
  | ASet s' => modify (update_out_nodes self (λ s, s ∖ s'))
  | _ => ret tt
  end.

(** [copy(node)]: a new object with the same attribute values, the address
    in [in_nodes] included. *)
Definition copy (node : addr) : M addr :=
  let! st := get in
  match heap_nodes st !! node with
  | Some n => new_object n
  | None => stuck
  end.

(** ** The trace, as the tracing runtime hands it over *)

(** A trace input: [sizes] is what [node.type().sizes()] returns, [None]
    when the type carries no sizes. *)
Record TraceInput := mkTraceInput {
  sizes : option (list Z)
}.

(** An output slot of a trace op. [Float_dims] is the outcome of
    [re.match(r".*Float\(([\d\s\,]+)\).*", str(output))]: the text of
    group 1 when the pattern matches, [None] when it does not. *)
Record TraceOutput := mkTraceOutput {
  Float_dims : option string
}.

(** A trace op: [inputs] lists [i.unique()] for each input [i]. *)
Record TraceNode := mkTraceNode {
  scopeName : string;
  kind : string;
  inputs : list nat;
  outputs : list TraceOutput
}.

(** The trace graph: [trace_outputs] lists [n.uniqueName()] for each
    output [n]. *)
Record TraceGraph := mkTraceGraph {
  trace_inputs : list TraceInput;
  trace_nodes : list TraceNode;
  trace_outputs : list string
}.

(** ** class Graph *)

Definition append_node (a : addr) : M unit :=
  modify (λ st, with_nodes (nodes st ++ [a]) st).

(** [self.nodes[i]] for a non-negative [i]. *)
Definition getitem_nodes (i : nat) : M addr :=
  let! st := get in
  match nodes st !! i with
  | Some a => ret a
  | None => raise IndexError
  end.

(** [_add_IO_nodes], lines 130-151: the loop from position [idx] on. *)
Fixpoint _add_IO_nodes_from (idx : nat) (input_nodes : list TraceInput)
    : M unit :=
  match input_nodes with
  | [] => ret tt
  | node :: rest =>
      let! dims :=
        match sizes node with
        | Some l => ret l
        | None => raise TypeError
        end in
      let node_weight := foldl Z.mul 1%Z dims in
      let! st := get in
      let! tagged :=
        if idx <? num_inputs st then ret (IN, "input" +:+ str idx)
        else
          match buffer_param_names st !! (idx - num_inputs st) with
          | Some name => ret (BUFF_PARAM, name)
          | None => raise IndexError
          end in
      let! new_node :=
        Node_init tagged.2 idx tagged.1 dims None (WInt node_weight) 10 in
      let! _ := append_node new_node in
      let! _ :=
        modify (λ st,
          with_num_inputs_buffs_params (num_inputs_buffs_params st + 1) st) in
      _add_IO_nodes_from (S idx) rest
  end.

Definition _add_IO_nodes (input_nodes : list TraceInput) : M unit :=
  _add_IO_nodes_from 0 input_nodes.

(** The loop of [_find_encasing_layer], lines 217-222. *)
Definition most_specific_scope (layers : list string) (scopeName : string)
    : string :=
  foldl
    (λ most layer_scope,
       if startswith scopeName layer_scope
          && (String.length most <? String.length layer_scope)
       then layer_scope else most)
    EmptyString layers.

Definition _find_encasing_layer (scopeName : string) : M string :=
  let! st := get in
  ret (most_specific_scope (profiled_layers st) scopeName).

(** [{self.nodes[i.unique()] for i in trace_node.inputs()}], lines 160-161,
    before the set is allocated. *)
Fixpoint input_node_set (nodes : list addr) (ids : list nat)
    : result (gset addr) :=
  match ids with
  | [] => Ok ∅
  | i :: ids' =>
      match nodes !! i with
      | Some a =>
          match input_node_set nodes ids' with
          | Ok s => Ok ({[a]} ∪ s)
          | Raise e => Raise e
          | Stuck => Stuck
          end
      | None => Raise IndexError
      end
  end.

(** Lines 165-172: the shape of the first output. *)
Definition output_shape_of (first : TraceOutput) : result (list Z) :=
  match Float_dims first with
  | Some shape => map_result int_of_string (split "," shape)
  | None => Ok [1%Z]
  end.

(** Lines 196-204: the bookkeeping node of output slot [i > 0]. *)
Definition add_output_node (new_node : addr) (node_idx i : nat) : M unit :=
  let! out_node := copy new_node in
  let! _ :=
    modify (λ st,
      with_heap_nodes (alter (with_out_nodes ∅) out_node (heap_nodes st)) st) in
  let! _ :=
    modify (λ st,
      with_heap_nodes
        (alter (λ n, with_idx (idx n + i) n) out_node (heap_nodes st)) st) in
  let! previous := getitem_nodes (node_idx + i - 1) in
  let! _ := add_in_node out_node (ANode previous) in
  let! previous := getitem_nodes (node_idx + i - 1) in
  let! _ := add_out_node previous (ANode out_node) in
  append_node out_node.

(** Lines 194-205: the loop over the output slots, from slot [i] on; the
    result is [num_extra_nodes]. *)
Fixpoint add_output_nodes (new_node : addr) (node_idx i : nat)
    (slots : list TraceOutput) (num_extra_nodes : nat) : M nat :=
  match slots with
  | [] => ret num_extra_nodes
  | _ :: rest =>
      if i =? 0 then
        add_output_nodes new_node node_idx (S i) rest num_extra_nodes
      else
        let! _ := add_output_node new_node node_idx i in
        add_output_nodes new_node node_idx (S i) rest (num_extra_nodes + 1)
  end.

(** Lines 182-183: the scope given to an op that no profiled layer
    encases. *)
Definition raw_op_scope (trace_node : TraceNode) (idx : nat) : string :=
  (scopeName trace_node +:+ "/" +:+ kind trace_node) +:+ str idx.

(** Lines 159-205: the body of the loop of [_add_OP_nodes] for the trace op
    at position [idx]; the result is [num_extra_nodes]. *)
Definition add_OP_node (idx : nat) (trace_node : TraceNode)
    (num_extra_nodes : nat) : M nat :=
  let! node_scope := _find_encasing_layer (scopeName trace_node) in
  let! st := get in
  let! members := lift (input_node_set (nodes st) (inputs trace_node)) in
  let! input_nodes := new_set members in
  let node_idx := num_inputs_buffs_params st + idx + num_extra_nodes in
  let! first :=
    match outputs trace_node with
    | o :: _ => ret o
    | [] => raise StopIteration
    end in
  let! shape := lift (output_shape_of first) in
  let! new_node :=
    if bool_decide (node_scope ≠ EmptyString) then
      Node_init node_scope node_idx LAYER shape (Some input_nodes) (WInt 0) 10
    else
      Node_init (raw_op_scope trace_node idx) node_idx OP shape
        (Some input_nodes) (WInt 0) 10 in
  let! _ :=
    for_each (elements members) (λ node, add_out_node node (ANode new_node)) in
  let! _ := append_node new_node in
  add_output_nodes new_node node_idx 0 (outputs trace_node) num_extra_nodes.

(** [_add_OP_nodes], lines 153-205: the loop from position [idx] on; the
    result is [num_extra_nodes] as the loop leaves it. *)
Fixpoint _add_OP_nodes_from (idx : nat) (OP_nodes : list TraceNode)
    (num_extra_nodes : nat) : M nat :=
  match OP_nodes with
  | [] => ret num_extra_nodes
  | trace_node :: rest =>
      let! num_extra_nodes := add_OP_node idx trace_node num_extra_nodes in
      _add_OP_nodes_from (S idx) rest num_extra_nodes
  end.

Definition _add_OP_nodes (OP_nodes : list TraceNode) : M unit :=
  let! _ := _add_OP_nodes_from 0 OP_nodes 0 in
  ret tt.

(** A [condition] of [_remove_nodes] reads attributes of the node. *)
Definition Condition := addr → State → bool.

(** Lines 243-249: connect the inputs of [node] to its outputs. *)
Definition connect_around (node : addr) : M unit :=
  let! st := get in
  let! _ :=
    for_each (elements (in_of st node)) (λ in_node,
      let! _ := remove_out_node in_node (ANode node) in
      let! st := get in
      add_out_node in_node (ASet (out_of st node))) in
  let! st := get in
  for_each (elements (out_of st node)) (λ out_node,
    let! _ := remove_in_node out_node (ANode node) in
    let! st := get in
    add_in_node out_node (ASet (in_of st node))).

(** Lines 240-251: one run of the [for] loop; the result is [changed] and
    [optimized_graph]. *)
Fixpoint remove_pass (condition : Condition) (todo : list addr)
    (changed : bool) (optimized_graph : list addr) : M (bool * list addr) :=
  match todo with
  | [] => ret (changed, optimized_graph)
  | node :: rest =>
      let! st := get in
      if condition node st then
        let! _ := connect_around node in
        remove_pass condition rest true optimized_graph
      else remove_pass condition rest changed (optimized_graph ++ [node])
  end.

(** Lines 233-253: the [while] loop, run for at most [fuel] passes. *)
Fixpoint remove_loop (fuel : nat) (condition : Condition) (reverse : bool)
    : M unit :=
  match fuel with
  | 0 => stuck
  | S fuel' =>
      let! st := get in
      let todo := if reverse then rev (nodes st) else nodes st in
      let! r := remove_pass condition todo false [] in
      let! _ := modify (with_nodes r.2) in
      if r.1 then remove_loop fuel' condition reverse else ret tt
  end.

(** [_remove_nodes], lines 232-253. A pass that changes something drops a
    node, so one pass more than there are nodes is enough. *)
Definition _remove_nodes (condition : Condition) (reverse : bool) : M unit :=
  let! st := get in
  remove_loop (S (length (nodes st))) condition reverse.

(** [lambda n: "::Constant" in n.scope] *)
Definition is_constant : Condition :=
  λ n st, contains (scope_of st n) "::Constant".

(** [_remove_constant_nodes], lines 207-209. *)
Definition _remove_constant_nodes : M unit := _remove_nodes is_constant false.

(** [going_nowhere], lines 227-228. *)
Definition going_nowhere (out_indices : list Z) : Condition :=
  λ node st,
    bool_decide (out_of st node = ∅)
    && negb (bool_decide (Z.of_nat (idx_of st node) ∈ out_indices)).

(** [_remove_nodes_that_go_nowhere], lines 224-230. *)
Definition _remove_nodes_that_go_nowhere (trace_outputs : list string)
    : M unit :=
  let! out_indices := lift (map_result int_of_string trace_outputs) in
  _remove_nodes (going_nowhere out_indices) false.

(** [_normalize_indices], lines 275-277: the loop from position [idx] on. *)
Fixpoint normalize_from (idx : nat) (todo : list addr) : M unit :=
  match todo with
  | [] => ret tt
  | node :: rest =>
      let! _ :=
        modify (λ st,
          with_heap_nodes (alter (with_idx idx) node (heap_nodes st)) st) in
      normalize_from (S idx) rest
  end.

Definition _normalize_indices : M unit :=
  let! st := get in
  normalize_from 0 (nodes st).

(** [_build_graph], lines 123-128. *)
Definition _build_graph (trace_graph : TraceGraph) : M unit :=
  let! _ := _add_IO_nodes (trace_inputs trace_graph) in
  let! _ := _add_OP_nodes (trace_nodes trace_graph) in
  let! _ := _remove_constant_nodes in
  let! _ := _remove_nodes_that_go_nowhere (trace_outputs trace_graph) in
  _normalize_indices.

(** Line 121: [node.weight = weights.get(node.scope, node.weight)]. *)
Definition override (weights : gmap string Weight) (n : Node) : Node :=
  with_weight (default (weight n) (weights !! scope n)) n.

(** Lines 120-121: the overlay of [weights] on each node of the graph. *)
Definition overlay_weights (weights : gmap string Weight) : M unit :=
  let! st := get in
  for_each (nodes st) (λ node,
    modify (λ st,
      with_heap_nodes (alter (override weights) node (heap_nodes st)) st)).

(** The store before the graph is built: only objects made by the
    constructor matter, so it starts empty. *)
Definition initial (profiled_layers : list string) (num_inputs : nat)
    (buffer_param_names : list string) : State :=
  mkState [] [] [] profiled_layers 0 num_inputs buffer_param_names.

(** [Graph.__init__], lines 112-121. *)
Definition Graph_init (profiled_layers : list string) (num_inputs : nat)
    (buffer_param_names : list string) (trace_graph : TraceGraph)
    (weights : gmap string Weight) : result State :=
  match
    (let! _ := _build_graph trace_graph in overlay_weights weights)
      (initial profiled_layers num_inputs buffer_param_names)
  with
  | Ok (_, st) => Ok st
  | Raise e => Raise e
  | Stuck => Stuck
  end.

(** [get_nodes], [get_weights] and [adjacency_list], lines 264-273. The
    neighbours of a row come in the order the set hands them out, here that
    of [elements]. *)
Definition get_nodes (st : State) : list addr := nodes st.

Definition get_weights (st : State) : list Weight :=
  weight_of st <$> nodes st.

Definition adjacency_list (st : State) (directed : bool) : list (list nat) :=
  if negb directed then
    (λ node, idx_of st <$> elements (out_of st node ∪ in_of st node))
      <$> nodes st
  else (λ node, idx_of st <$> elements (out_of st node)) <$> nodes st.

(** ** Well-formed graphs *)

(** The edges recorded at the nodes of the graph lead to nodes of the
    graph. *)
Definition edges_within_graph (st : State) : Prop :=
  ∀ u v, u ∈ nodes st → v ∈ out_of st u ∪ in_of st u → v ∈ nodes st.

(** [u] has [v] in [out_nodes] if and only if [v] has [u] in [in_nodes], for
    all nodes [u] and [v] of the graph. *)
Definition bidirectional (st : State) : Prop :=
  ∀ u v, u ∈ nodes st → v ∈ nodes st →
    (v ∈ out_of st u ↔ u ∈ in_of st v).

(** The node at position [p] of [self.nodes] is an allocated object whose
    [idx] is [p]. *)
Definition indices_are_positions (st : State) : Prop :=
  ∀ p a, nodes st !! p = Some a →
    ∃ n, heap_nodes st !! a = Some n ∧ idx n = p.

(** ** Relations between states *)

(** Every object of [st] is still an object of [st'], with the attributes
    that no code assigns after [__init__] or [copy]; the attributes of the
    graph other than its node list are the same. *)
Definition stable (st st' : State) : Prop :=
  (∀ a n, heap_nodes st !! a = Some n →
     ∃ n', heap_nodes st' !! a = Some n' ∧ scope n' = scope n ∧
       type n' = type n ∧ in_nodes n' = in_nodes n) ∧
  (profiled_layers st', num_inputs_buffs_params st', num_inputs st',
   buffer_param_names st')
  = (profiled_layers st, num_inputs_buffs_params st, num_inputs st,
     buffer_param_names st).

(** A run of [m] that ends without an exception leaves the objects there. *)
Definition keeps_objects {A} (m : M A) : Prop :=
  ∀ st a st', m st = Ok (a, st') → stable st st'.

(** The nodes that satisfy [keep] stay in every edge set they are in. *)
Definition grows (keep : addr → Prop) (st st' : State) : Prop :=
  ∀ w x, keep x →
    (x ∈ out_of st w → x ∈ out_of st' w) ∧
    (x ∈ in_of st w → x ∈ in_of st' w).

(** Nothing is allocated, and an object keeps its scope, its index and the
    set it holds in [in_nodes]. *)
Definition same_objects (st st' : State) : Prop :=
  length (heap_sets st') = length (heap_sets st) ∧
  length (heap_nodes st') = length (heap_nodes st) ∧
  ∀ a n, heap_nodes st !! a = Some n →
    ∃ n', heap_nodes st' !! a = Some n' ∧ scope n' = scope n ∧
      in_nodes n' = in_nodes n ∧ idx n' = idx n.

(** [a] is an object whose [in_nodes] is a set of the store. *)
Definition is_node (st : State) (a : addr) : Prop :=
  ∃ n, heap_nodes st !! a = Some n ∧ in_nodes n < length (heap_sets st).



(** The state of the loop over the output slots of one op, when the nodes
    of slots [0] to [i-1] have been made: they sit at the addresses from
    [p] on, each a copy of [proto], the node of slot 0 as [__init__] made
    it, but for its index and for an out-edge to the node of the next slot;
    and the set that [proto.in_nodes] names holds the nodes of all slots but
    the last. [nodes0] is the node list before the op. *)
Definition slots_built (nodes0 : list addr) (p : addr) (proto : Node)
    (i : nat) (st : State) : Prop :=
  nodes st = nodes0 ++ seq p i ∧
  length (heap_nodes st) = p + i ∧
  (∀ j, j < i →
     heap_nodes st !! (p + j) =
     Some (with_idx (idx proto + j)
             (with_out_nodes (if j + 1 <? i then {[p + j + 1]} else ∅)
                proto))) ∧
  (∃ s, heap_sets st !! in_nodes proto = Some s ∧
        ∀ j, j + 1 < i → p + j ∈ s).

(** A condition that reads the node and not the node list of the graph. *)
Definition reads_node_only (condition : Condition) : Prop :=
  ∀ a l st, condition a (with_nodes l st) = condition a st.

(** What holds of the state before the trace op at position [pos] is
    processed: [node_idx] as line 162 computes it is the length of the node
    list, and the node list names the objects in the order they were
    made. *)
Definition builder_invariant (pos num_extra_nodes : nat) (st : State)
    : Prop :=
  length (nodes st) = num_inputs_buffs_params st + pos + num_extra_nodes ∧
  nodes st = seq 0 (length (heap_nodes st)).

(** A run that returns or raises. *)
Definition progresses {A} (r : result A) : Prop :=
  (∃ a, r = Ok a) ∨ (∃ e, r = Raise e).

(** A run of stateful code that raises, or returns with [P] true of the
    value and the state. *)
Definition ends_in {A} (P : A → State → Prop) (r : result (A * State))
    : Prop :=
  (∃ e, r = Raise e) ∨ (∃ a st', r = Ok (a, st') ∧ P a st').

(** ** Sample traces and graphs *)

(** An input feeding a constant feeding a profiled layer, as it stands
    after [_add_OP_nodes]. *)
Definition constant_between : State :=
  mkState
    [mkNode "input0" 0 IN {[1]} (WInt 6) 10 [[2; 3]%Z] 0;
     mkNode "Net/onnx::ConstantOfShape0" 1 OP {[2]} (WInt 0) 10 [[1%Z]] 1;
     mkNode "Net/Linear[fc1]" 2 LAYER ∅ (WInt 0) 10 [[1%Z]] 2]
    [∅; {[0]}; {[1]}]
    [0; 1; 2] ["Net/Linear[fc1]"] 1 1 [].

(** The trace that [constant_between] is built from. *)
Definition constant_between_trace : TraceGraph :=
  mkTraceGraph [mkTraceInput (Some [2; 3]%Z)]
    [mkTraceNode "Net" "onnx::ConstantOfShape" [0] [mkTraceOutput None];
     mkTraceNode "Net/Linear[fc1]" "aten::addmm" [1] [mkTraceOutput None]]
    ["2"].

(** A linear layer [fc1] of a model [Net]: the input, the weight parameter,
    and the two ops the tracer records inside the layer. *)
Definition fc1_trace : TraceGraph :=
  mkTraceGraph
    [mkTraceInput (Some [4; 8]%Z); mkTraceInput (Some [2; 8]%Z)]
    [mkTraceNode "Net/Linear[fc1]" "aten::t" [1]
       [mkTraceOutput (Some "8, 2")];
     mkTraceNode "Net/Linear[fc1]" "aten::matmul" [0; 2]
       [mkTraceOutput (Some "4, 2")]]
    ["3"].

Definition fc1_layers : list string := ["Net/Linear[fc1]"].
Definition fc1_params : list string := ["Net/Linear[fc1]/Parameter[weight]"].

(** Overrides for the layer and for the input. *)
Definition fc1_overrides : gmap string Weight :=
  {[ "Net/Linear[fc1]" := WTimes 3.5 0.5; "input0" := WInt 7 ]}.

(** An op outside every profiled layer that has two output slots, both
    read by the next op. *)
Definition max_trace : TraceGraph :=
  mkTraceGraph [mkTraceInput (Some [4; 8]%Z)]
    [mkTraceNode "Net" "aten::max" [0]
       [mkTraceOutput (Some "4"); mkTraceOutput None];
     mkTraceNode "Net" "aten::add" [1; 2] [mkTraceOutput (Some "4")]]
    ["3"].

(** An op inside the layer [fc1], reading the last node of
    [constant_between]. *)
Definition relu_in_fc1 : TraceNode :=
  mkTraceNode "Net/Linear[fc1]/relu" "aten::relu" [2] [mkTraceOutput None].

(** A trace whose only op reads a value that no node was made for. *)
Definition dangling_trace : TraceGraph :=
  mkTraceGraph [mkTraceInput (Some [4; 8]%Z)]
    [mkTraceNode "Net" "aten::relu" [5] [mkTraceOutput (Some "4, 8")]]
    ["1"].

(** A trace whose second input carries no sizes. *)
Definition shapeless_trace : TraceGraph :=
  mkTraceGraph [mkTraceInput (Some [4; 8]%Z); mkTraceInput None]
    [mkTraceNode "Net" "aten::relu" [0] [mkTraceOutput (Some "4, 8")]]
    ["2"].

(** An op with three output slots that reads the input. *)
Definition split_trace : TraceGraph :=
  mkTraceGraph [mkTraceInput (Some [6; 8]%Z)]
    [mkTraceNode "Net" "aten::split" [0]
       [mkTraceOutput (Some "2, 8"); mkTraceOutput (Some "2, 8");
        mkTraceOutput (Some "2, 8")]]
    ["1"; "2"; "3"].

(** An op with three output slots, reading the last node of
    [constant_between]. *)
Definition split_after_fc1 : TraceNode :=
  mkTraceNode "Net" "aten::split" [2]
    [mkTraceOutput (Some "2, 8"); mkTraceOutput (Some "2, 8");
     mkTraceOutput (Some "2, 8")].

(** Two constant-producing ops in a row between the input and a layer. *)
Definition two_constants_trace : TraceGraph :=
  mkTraceGraph [mkTraceInput (Some [4; 8]%Z)]
    [mkTraceNode "Net" "onnx::ConstantOfShape" [0] [mkTraceOutput None];
     mkTraceNode "Net" "onnx::ConstantFill" [1] [mkTraceOutput None];
     mkTraceNode "Net/Linear[fc1]" "aten::addmm" [2] [mkTraceOutput None]]
    ["3"].

(** The graph of [two_constants_trace] as it stands after
    [_add_OP_nodes]. *)
Definition two_constants : State :=
  mkState
    [mkNode "input0" 0 IN {[1]} (WInt 32) 10 [[4; 8]%Z] 0;
     mkNode "Net/onnx::ConstantOfShape0" 1 OP {[2]} (WInt 0) 10 [[1%Z]] 1;
     mkNode "Net/onnx::ConstantFill1" 2 OP {[3]} (WInt 0) 10 [[1%Z]] 2;
     mkNode "Net/Linear[fc1]" 3 LAYER ∅ (WInt 0) 10 [[1%Z]] 3]
    [∅; {[0]}; {[1]}; {[2]}]
    [0; 1; 2; 3] ["Net/Linear[fc1]"] 1 1 [].

(** ** The weights handed to the partitioner *)

(** [weights = [weight_func(w) for w in nodew]], partition_model.py
    line 22. *)
Definition nodew_weights (nodew : list Weight) : result (list Z) :=
  map_result weight_func nodew.

(** A node as graph construction leaves it: the weight is an [int] and
    [part] is the default of [Node.__init__]. *)
Definition as_built (n : Node) : Prop :=
  (∃ z, weight n = WInt z) ∧ part n = 10%Z.

Definition all_as_built (st : State) : Prop :=
  Forall as_built (heap_nodes st).

(** A run of [m] that starts with [P] and ends without an exception ends
    with [P]. *)
Definition preserves {A} (P : State → Prop) (m : M A) : Prop :=
  ∀ st a st', P st → m st = Ok (a, st') → P st'.

(** ** utils.py: nested tensors *)

(** What the code reads of a [torch.Tensor]: [x.shape], [x.device],
    [x.element_size()] and whether it is attached to the autograd graph. *)
Record Tensor := mkTensor {
  shape : list Z;
  device : string;
  element_size : Z;
  requires_grad : bool
}.

(** [x.nelement()]: the product of the dimensions. *)
Definition nelement (x : Tensor) : Z := foldr Z.mul 1%Z (shape x).

(** [x.detach()]: the same data, cut off from the autograd graph. *)
Definition detach (x : Tensor) : Tensor :=
  mkTensor (shape x) (device x) (element_size x) false.

(** The type [Tensors] of utils.py, and what a caller may pass in its
    place: a leaf (a tensor, or what [f] makes of one), a [list] or a
    [tuple] of such values (of these two classes, so that [type(x)] is
    [list] or [tuple]), or an object of another type. *)
#[local] Unset Elimination Schemes.
Inductive Nested (A : Type) :=
  | Leaf (a : A)
  | PyList (items : list (Nested A))
  | PyTuple (items : list (Nested A))
  | Other (type_name : string).
#[local] Set Elimination Schemes.
Arguments Leaf {A} a.
Arguments PyList {A} items.
Arguments PyTuple {A} items.
Arguments Other {A} type_name.

(** The value of [r] passed through [f]; an exception stays. *)
Definition on_Ok {A B} (f : A → B) (r : result A) : result B :=
  match r with
  | Ok a => Ok (f a)
  | Raise e => Raise e
  | Stuck => Stuck
  end.

(** [tensorsMap], lines 358-368, for an [f] that may raise. *)
Fixpoint tensorsMap {A B} (f : A → result B) (tensors : Nested A)
    : result (Nested B) :=
  match tensors with
  | Leaf t => on_Ok Leaf (f t)
  | PyList l => on_Ok PyList (map_result (tensorsMap f) l)
  | PyTuple l => on_Ok PyTuple (map_result (tensorsMap f) l)
  | Other _ => Raise ValueError
  end.

(** [get_device], lines 185-190. *)
Fixpoint get_device (x : Nested Tensor) : result string :=
  match x with
  | Leaf t => Ok (device t)
  | PyList l | PyTuple l =>
      match l with
      | a :: _ => get_device a
      | [] => Raise IndexError
      end
  | Other _ => Raise ValueError
  end.

(** [y] is [x], or [x[0]], or [x[0][0]], and so on along the first items of
    lists and tuples. *)
Inductive first_items {A} : Nested A → Nested A → Prop :=
  | first_items_self x : first_items x x
  | first_items_PyList a l y :
      first_items a y → first_items (PyList (a :: l)) y
  | first_items_PyTuple a l y :
      first_items a y → first_items (PyTuple (a :: l)) y.

(** Line 206 of [_detach_inputs]: what is returned for the list
    [detached]. *)
Definition unpack_single {A} (detached : list (Nested A)) : Nested A :=
  match detached with
  | [d] => d
  | _ => PyTuple detached
  end.

(** [_detach_inputs], lines 193-206: [detached_item x] is what the loop
    appends to [detached] for the input [x]; the call [_detach_inputs(a)] of
    line 201 has the one input [a]. *)
Fixpoint detached_item (x : Nested Tensor) : result (Nested Tensor) :=
  match x with
  | Leaf t => Ok (Leaf (detach t))
  | PyList l =>
      on_Ok PyList
        (map_result
           (λ a, on_Ok unpack_single (map_result detached_item [a])) l)
  | PyTuple l =>
      on_Ok PyTuple
        (map_result
           (λ a, on_Ok unpack_single (map_result detached_item [a])) l)
  | Other _ => Raise ValueError
  end.

Definition _detach_inputs (inputs : list (Nested Tensor))
    : result (Nested Tensor) :=
  on_Ok unpack_single (map_result detached_item inputs).

(** [_get_shape], lines 211-222: [shape_item x] is what the loop appends to
    [shapes] for the input [x]; [type(x)] makes a list or a tuple of the
    items of the tuple that [_get_shape( *x)] returns. *)
Fixpoint shape_item (x : Nested Tensor) : result (Nested (list Z)) :=
  match x with
  | Leaf t => Ok (Leaf (tail (shape t)))
  | PyList l => on_Ok PyList (map_result shape_item l)
  | PyTuple l => on_Ok PyTuple (map_result shape_item l)
  | Other _ => Raise ValueError
  end.

Definition _get_shape (inputs : list (Nested Tensor))
    : result (Nested (list Z)) :=
  on_Ok PyTuple (map_result shape_item inputs).

(** [_get_size], lines 225-235: [size_item x] is what the loop adds to
    [size] for the input [x], the calls [_get_size(a)] of line 232 having
    the one input [a]. *)
Fixpoint size_item (x : Nested Tensor) : result Z :=
  match x with
  | Leaf t => Ok (nelement t * element_size t)%Z
  | PyList l | PyTuple l =>
      on_Ok (foldl Z.add 0%Z)
        (map_result
           (λ a, on_Ok (foldl Z.add 0%Z) (map_result size_item [a])) l)
  | Other _ => Raise ValueError
  end.

Definition _get_size (inputs : list (Nested Tensor)) : result Z :=
  on_Ok (foldl Z.add 0%Z) (map_result size_item inputs).

(** [_count_elements], lines 238-248: [count_item x] is what the loop adds
    to [c] for the input [x]. *)
Fixpoint count_item (x : Nested Tensor) : result nat :=
  match x with
  | Leaf _ => Ok 1
  | PyList l | PyTuple l => on_Ok (foldl Nat.add 0) (map_result count_item l)
  | Other _ => Raise ValueError
  end.

Definition _count_elements (inputs : list (Nested Tensor)) : result nat :=
  on_Ok (foldl Nat.add 0) (map_result count_item inputs).

(** *** Vocabulary for the properties of nested tensors *)

(** No object of an unsupported type occurs in [x]. *)
Fixpoint supported {A} (x : Nested A) : bool :=
  match x with
  | Leaf _ => true
  | PyList l | PyTuple l => forallb supported l
  | Other _ => false
  end.

(** The leaves of [x], from left to right. *)
Fixpoint leaves {A} (x : Nested A) : list A :=
  match x with
  | Leaf a => [a]
  | PyList l | PyTuple l => flat_map leaves l
  | Other _ => []
  end.

(** [x] with [g] applied to every leaf. *)
Fixpoint nested_map {A B} (g : A → B) (x : Nested A) : Nested B :=
  match x with
  | Leaf a => Leaf (g a)
  | PyList l => PyList (map (nested_map g) l)
  | PyTuple l => PyTuple (map (nested_map g) l)
  | Other name => Other name
  end.

(** The bytes a tensor takes. *)
Definition tensor_bytes (t : Tensor) : Z := (nelement t * element_size t)%Z.

(** ** Module trees *)

(** A parameter or buffer as [named_parameters(recurse=False)] and
    [named_buffers(recurse=False)] hand it out: the name of its class and
    the tensor. *)
Record Member := mkMember {
  member_class : string;
  member_tensor : Tensor
}.

(** What the code reads of an [nn.Module] object: the name of its class and
    those of the classes it inherits from, for [isinstance]; its identity;
    its own parameters and buffers; and [_modules], the ordered dictionary
    of its sub-modules, where an entry may hold [None]. The code assumes
    that a module is not its own descendant (line 119 of
    network_profiler.py), so the sub-modules form a tree. *)
#[local] Unset Elimination Schemes.
Inductive nnModule := mkModule {
  class_name : string;
  base_names : list string;
  ident : nat;
  named_parameters : list (string * Member);
  named_buffers : list (string * Member);
  _modules : list (string * option nnModule)
}.
#[local] Set Elimination Schemes.

(** [isinstance(m, classes)] for a tuple of classes, given by name. *)
Definition isinstance (m : nnModule) (classes : list string) : bool :=
  existsb (λ c, bool_decide (c = class_name m ∨ c ∈ base_names m)) classes.

(** [module.named_children()]: the entries of [_modules] but those that
    hold [None] or a module that an earlier entry holds. *)
Fixpoint named_children_from (memo : list nat)
    (items : list (string * option nnModule)) : list (string * nnModule) :=
  match items with
  | [] => []
  | (name, Some m) :: rest =>
      if bool_decide (ident m ∈ memo) then named_children_from memo rest
      else (name, m) :: named_children_from (ident m :: memo) rest
  | (_, None) :: rest => named_children_from memo rest
  end.

Definition named_children (module : nnModule) : list (string * nnModule) :=
  named_children_from [] (_modules module).

(** [module.children()] *)
Definition children (module : nnModule) : list nnModule :=
  (named_children module).*2.

(** The scope of the sub-module bound to [name]:
    [prefix + "/" + type(sub_module).__name__ + f"[{name}]"]. *)
Definition sub_scope (prefix : string) (sub_module : nnModule)
    (name : string) : string :=
  prefix +:+ "/" +:+ class_name sub_module +:+ "[" +:+ name +:+ "]".

(** The test of line 364 of control_flow_graph.py and of line 41 of
    utils.py: the sub-module is taken as one layer. [basic_block] is [None]
    or the classes that [isinstance] tests: those of the tuple that line 364
    is handed, or of [tuple(basic_blocks)] in line 41. *)
Definition taken_whole (sub_module : nnModule) (depth : Z)
    (basic_block : option (list string)) : bool :=
  (length (children sub_module) =? 0)
  || match basic_block with
     | Some classes => isinstance sub_module classes
     | None => false
     end
  || (depth =? 0)%Z.

(** What a caller passes as [basic_block] or [basic_blocks] when it is not
    [None]: a class, a tuple of classes or a list of classes, the classes
    given by name. *)
Inductive ClassInfo :=
  | AClass (c : string)
  | TupleOfClasses (classes : list string)
  | ListOfClasses (classes : list string).

(** [isinstance(m, classinfo)]: a list is no class and no tuple. *)
Definition isinstance_classinfo (m : nnModule) (classinfo : ClassInfo)
    : result bool :=
  match classinfo with
  | AClass c => Ok (isinstance m [c])
  | TupleOfClasses classes => Ok (isinstance m classes)
  | ListOfClasses _ => Raise TypeError
  end.

(** [tuple(basic_blocks)]: a class is not iterable. *)
Definition tuple_of (basic_blocks : ClassInfo) : result (list string) :=
  match basic_blocks with
  | AClass _ => Raise TypeError
  | TupleOfClasses classes | ListOfClasses classes => Ok classes
  end.

(** [basic_block != None and isinstance(sub_module, basic_block)], line 364
    of control_flow_graph.py. *)
Definition basic_block_test (sub_module : nnModule)
    (basic_block : option ClassInfo) : result bool :=
  match basic_block with
  | Some classinfo => isinstance_classinfo sub_module classinfo
  | None => Ok false
  end.

(** [basic_blocks != None and isinstance(sub_module, tuple(basic_blocks))],
    line 41 of utils.py. *)
Definition basic_blocks_test (sub_module : nnModule)
    (basic_blocks : option ClassInfo) : result bool :=
  match basic_blocks with
  | Some classinfo => on_Ok (isinstance sub_module) (tuple_of classinfo)
  | None => Ok false
  end.

(** [len(list(sub_module.children())) == 0 or test or depth == 0], the
    condition of both lines, for a [test] that may raise. *)
Definition taken_whole_if (sub_module : nnModule) (depth : Z)
    (test : result bool) : result bool :=
  if length (children sub_module) =? 0 then Ok true
  else on_Ok (λ b, b || (depth =? 0)%Z) test.

(** The loop of [_profiled_layers], control_flow_graph.py lines 363-369,
    with [below sub_module scope] for the recursive call of line 368. A
    [None] in [_modules] has no [children]. *)
Fixpoint _profiled_layers_loop
    (below : nnModule → string → result (list string)) (depth : Z)
    (prefix : string) (basic_block : option (list string))
    (items : list (string * option nnModule)) (names : list string)
    : result (list string) :=
  match items with
  | [] => Ok names
  | (name, None) :: _ => Raise AttributeError
  | (name, Some sub_module) :: rest =>
      if taken_whole sub_module depth basic_block then
        _profiled_layers_loop below depth prefix basic_block rest
          (names ++ [sub_scope prefix sub_module name])
      else
        match below sub_module (sub_scope prefix sub_module name) with
        | Ok names_below =>
            _profiled_layers_loop below depth prefix basic_block rest
              (names ++ names_below)
        | Raise e => Raise e
        | Stuck => Stuck
        end
  end.

(** [_profiled_layers], control_flow_graph.py lines 361-370. *)
Fixpoint _profiled_layers (module : nnModule) (depth : Z) (prefix : string)
    (basic_block : option (list string)) : result (list string) :=
  _profiled_layers_loop
    (λ sub_module scope,
       _profiled_layers sub_module (depth - 1) scope basic_block)
    depth prefix basic_block (_modules module) [].

(** [f"{prefix}/{type(item).__name__}[{item_name}]"] *)
Definition member_scope (prefix : string) (item_name : string)
    (item : Member) : string :=
  prefix +:+ "/" +:+ member_class item +:+ "[" +:+ item_name +:+ "]".

(** The third loop of [_buffer_and_params_scopes], lines 385-387, with
    [below] for the recursive call. The call on a [None] held in [_modules]
    fails on [None.named_parameters]. *)
Fixpoint _buffer_and_params_scopes_loop
    (below : nnModule → string → result (list string)) (prefix : string)
    (items : list (string * option nnModule)) (names : list string)
    : result (list string) :=
  match items with
  | [] => Ok names
  | (name, None) :: _ => Raise AttributeError
  | (name, Some sub_module) :: rest =>
      match below sub_module (sub_scope prefix sub_module name) with
      | Ok names_below =>
          _buffer_and_params_scopes_loop below prefix rest
            (names ++ names_below)
      | Raise e => Raise e
      | Stuck => Stuck
      end
  end.

(** [_buffer_and_params_scopes], control_flow_graph.py lines 374-389. *)
Fixpoint _buffer_and_params_scopes (module : nnModule) (prefix : string)
    : result (list string) :=
  let names :=
    (λ '(item_name, item), member_scope prefix item_name item)
      <$> named_parameters module in
  let names :=
    names ++ ((λ '(item_name, item), member_scope prefix item_name item)
                <$> named_buffers module) in
  _buffer_and_params_scopes_loop _buffer_and_params_scopes prefix
    (_modules module) names.

(** The loop of [_traverse_model], utils.py lines 39-47, over the entries
    that [named_children] hands out: [memo] holds the objects seen, and
    [below] stands for the recursive call. *)
Fixpoint _traverse_model_loop
    (below : nnModule → string → list (nnModule * string * nnModule))
    (module : nnModule) (depth : Z) (prefix : string)
    (basic_blocks : option (list string)) (full : bool)
    (items : list (string * option nnModule)) (memo : list nat)
    : list (nnModule * string * nnModule) :=
  match items with
  | [] => []
  | (name, Some sub_module) :: rest =>
      if bool_decide (ident sub_module ∈ memo) then
        _traverse_model_loop below module depth prefix basic_blocks full
          rest memo
      else
        let scope := sub_scope prefix sub_module name in
        (if taken_whole sub_module depth basic_blocks then
           [(sub_module, scope, module)]
         else
           (if full then [(sub_module, scope, module)] else [])
           ++ below sub_module scope)
        ++ _traverse_model_loop below module depth prefix basic_blocks full
             rest (ident sub_module :: memo)
  | (_, None) :: rest =>
      _traverse_model_loop below module depth prefix basic_blocks full
        rest memo
  end.

(** [_traverse_model], utils.py lines 38-47: what the generator yields, in
    order. *)
Fixpoint _traverse_model (module : nnModule) (depth : Z) (prefix : string)
    (basic_blocks : option (list string)) (full : bool)
    : list (nnModule * string * nnModule) :=
  _traverse_model_loop
    (λ sub_module scope,
       _traverse_model sub_module (depth - 1) scope basic_blocks full)
    module depth prefix basic_blocks full (_modules module) [].

(** [traverse_model] and [model_scopes], utils.py lines 20-35 and
    50-64. *)
Definition traverse_model (model : nnModule) (depth : Z)
    (basic_blocks : option (list string)) (full : bool)
    : list (nnModule * string * nnModule) :=
  _traverse_model model depth (class_name model) basic_blocks full.

Definition model_scopes (model : nnModule) (depth : Z)
    (basic_blocks : option (list string)) (full : bool) : list string :=
  (λ t, t.1.2) <$> traverse_model model depth basic_blocks full.

(** The third loop of [_traverse_params_buffs], utils.py lines 92-93. *)
Fixpoint _traverse_params_buffs_loop
    (below : nnModule → string → list (Member * string)) (prefix : string)
    (items : list (string * option nnModule)) (memo : list nat)
    : list (Member * string) :=
  match items with
  | [] => []
  | (name, Some sub_module) :: rest =>
      if bool_decide (ident sub_module ∈ memo) then
        _traverse_params_buffs_loop below prefix rest memo
      else
        below sub_module (sub_scope prefix sub_module name)
        ++ _traverse_params_buffs_loop below prefix rest
             (ident sub_module :: memo)
  | (_, None) :: rest => _traverse_params_buffs_loop below prefix rest memo
  end.

(** [_traverse_params_buffs] and [traverse_params_buffs], utils.py lines
    67-93. *)
Fixpoint _traverse_params_buffs (module : nnModule) (prefix : string)
    : list (Member * string) :=
  ((λ '(param_name, param), (param, member_scope prefix param_name param))
     <$> named_parameters module)
  ++ ((λ '(buffer_name, buffer),
         (buffer, member_scope prefix buffer_name buffer))
        <$> named_buffers module)
  ++ _traverse_params_buffs_loop _traverse_params_buffs prefix
       (_modules module) [].

Definition traverse_params_buffs (module : nnModule)
    : list (Member * string) :=
  _traverse_params_buffs module (class_name module).

(** Every entry of a list of sub-modules holds a module for which [ok]
    holds. *)
Fixpoint all_modules (ok : nnModule → Prop)
    (items : list (string * option nnModule)) : Prop :=
  match items with
  | [] => True
  | (_, Some sub_module) :: rest => ok sub_module ∧ all_modules ok rest
  | (_, None) :: _ => False
  end.

(** The identities of the objects held in a list of entries. *)
Definition idents (items : list (string * option nnModule)) : list nat :=
  (λ item, from_option ident 0 item.2) <$> items.

(** Every entry of [_modules], at every level, holds a module, and no two
    entries of one module hold the same object. *)
Fixpoint regular (module : nnModule) : Prop :=
  NoDup (idents (_modules module)) ∧ all_modules regular (_modules module).

(** The longest chain of sub-modules below [module]. *)
Fixpoint highest (height : nnModule → Z)
    (items : list (string * option nnModule)) : Z :=
  match items with
  | [] => 0
  | (_, Some sub_module) :: rest =>
      Z.max (1 + height sub_module) (highest height rest)
  | (_, None) :: rest => highest height rest
  end.

Fixpoint height (module : nnModule) : Z := highest height (_modules module).

(** A model [Net] with a linear layer [fc1] and a block [body] of a linear
    layer and an activation. *)
Definition linear (i : nat) : nnModule :=
  mkModule "Linear" ["Module"] i
    [("weight", mkMember "Parameter" (mkTensor [2; 8]%Z "cpu" 4 true));
     ("bias", mkMember "Parameter" (mkTensor [2]%Z "cpu" 4 true))]
    [] [].

Definition net_model : nnModule :=
  mkModule "Net" ["Module"] 0 [] []
    [("fc1", Some (linear 1));
     ("body",
      Some (mkModule "Sequential" ["Module"] 2 [] []
              [("0", Some (linear 3));
               ("1", Some (mkModule "ReLU" ["Module"] 4 [] [] []))]))].

(** A model with an optional sub-module that is not set. *)
Definition net_without_head : nnModule :=
  mkModule "Net" ["Module"] 0 [] []
    [("fc1", Some (linear 1)); ("head", None)].

(** ** network_profiler.py: backward times *)

(** A Python number, [float] or [int]. *)
Inductive Number :=
  | PyFloat (x : float)
  | PyInt (z : Z).

(** [end - start] for two time stamps; a layer whose backward hook never
    ran still has the [None] that [Wrapper.__init__] set. *)
Definition elapsed (end_start : option float * option float)
    : result Number :=
  match end_start with
  | (Some end_, Some start) => Ok (PyFloat (end_ - start)%float)
  | _ => Raise TypeError
  end.

(** [NetProfiler._gather_backward_times], lines 105-112, on the time stamps
    [layer.backward_timestamp] of [self.layers.values()]; the result is
    [self._backward_times]. *)
Definition _gather_backward_times (timestamps : list (option float))
    : result (list Number) :=
  on_Ok (λ times, times ++ [PyInt 0])
    (map_result elapsed (zip timestamps (tail timestamps))).

(** ** Graphs whose edges lead forward *)

(** Every node holds in [in_nodes] a set of the store, and no two nodes
    hold the same set. *)
Definition sound_store (st : State) : Prop :=
  (∀ a n, heap_nodes st !! a = Some n → in_nodes n < length (heap_sets st)) ∧
  (∀ a b na nb, heap_nodes st !! a = Some na → heap_nodes st !! b = Some nb →
     in_nodes na = in_nodes nb → a = b).

(** The edges of the nodes of the graph lead from an older object to a
    newer one. *)
Definition forward_edges (st : State) : Prop :=
  ∀ u v, u ∈ nodes st →
    (v ∈ out_of st u → u < v) ∧ (v ∈ in_of st u → v < u).

(** The nodes of the graph are distinct objects with sets of their own, and
    the edges between them are recorded at both ends, stay within the graph
    and lead forward. *)
Definition well_formed (st : State) : Prop :=
  NoDup (nodes st) ∧ (∀ a, a ∈ nodes st → a < length (heap_nodes st)) ∧
  sound_store st ∧ edges_within_graph st ∧ bidirectional st ∧
  forward_edges st.

(** Every op of the trace has one output slot. *)
Definition single_output (tg : TraceGraph) : Prop :=
  Forall (λ tn, length (outputs tn) = 1) (trace_nodes tg).

(** ** utils.py: class OrderedSet *)

(** The outcome of a method of [OrderedSet]: a value, an exception, given
    by the name of its class, or [Broken] where there is no Python behaviour
    to give: an address names no cell of the store, or a loop of the model
    was handed too few rounds. Neither happens on a set that the class has
    made, see [iter_represents] and the theorems after it. *)
Inductive outcome (A : Type) :=
  | Returns (a : A)
  | Raises (exception : string)
  | Broken.
Arguments Returns {A} a.
Arguments Raises {A} exception.
Arguments Broken {A}.

Definition and_then {A B} (r : outcome A) (k : A → outcome B) : outcome B :=
  match r with
  | Returns a => k a
  | Raises e => Raises e
  | Broken => Broken
  end.

Notation "'do!' x ':=' r 'in' k" := (and_then r (λ x, k))
  (at level 10, x name, r at level 100, k at level 200,
   format "'[v' 'do!'  x  ':='  r  'in' '/' k ']'").

Section OrderedSet.
Context {K : Type} `{EqDecision K}.

(** A cell of the doubly linked list is a Python list [[key, prev, next]];
    [prev] and [next] are the addresses of other cells. The key of the
    sentinel is [None]. *)
Record Cell := mkCell {
  cell_key : option K;
  cell_prev : addr;
  cell_next : addr
}.

(** An [OrderedSet] object: the cells that its methods have made, the
    sentinel [self.end] being the first of them, and the dictionary
    [self.map] from a key to the address of its cell, in the order of
    insertion as Python keeps it. *)
Record OrderedSet := mkOrderedSet {
  cells : list Cell;
  key_map : list (K * addr)
}.

(** The address of [self.end]. *)
Definition end_ : addr := 0.

Definition set_prev (a : addr) (c : Cell) : Cell :=
  mkCell (cell_key c) a (cell_next c).
Definition set_next (a : addr) (c : Cell) : Cell :=
  mkCell (cell_key c) (cell_prev c) a.

(** [a[i]] and [a[i] = ...] for a cell [a]. *)
Definition read (a : addr) (s : OrderedSet) : outcome Cell :=
  match cells s !! a with
  | Some c => Returns c
  | None => Broken
  end.

Definition write (a : addr) (f : Cell → Cell) (s : OrderedSet)
    : outcome OrderedSet :=
  if a <? length (cells s) then
    Returns (mkOrderedSet (alter f a (cells s)) (key_map s))
  else Broken.

(** [OrderedSet()], lines 256-261 without an [iterable]: the sentinel
    [[None, end, end]] and an empty dictionary. *)
Definition empty_set : OrderedSet :=
  mkOrderedSet [mkCell None end_ end_] [].

(** [__len__] and [__contains__], lines 263-267. *)
Definition len (s : OrderedSet) : nat := length (key_map s).

Definition contains_key (key : K) (s : OrderedSet) : bool :=
  bool_decide (key ∈ (key_map s).*1).

(** [self.map[key]] for a key of the dictionary. *)
Definition map_get (key : K) (s : OrderedSet) : option addr :=
  (λ found, found.2.2) <$> list_find (λ entry, entry.1 = key) (key_map s).

(** [add], lines 269-274; the result is the set after the call. The new
    cell [[key, curr, end]] is made first, then [curr[2]], [end[1]] and
    [self.map[key]] are bound to it, in this order. *)
Definition add (key : K) (s : OrderedSet) : outcome OrderedSet :=
  if contains_key key s then Returns s
  else
    do! end_cell := read end_ s in
    let curr := cell_prev end_cell in
    let new := length (cells s) in
    let s := mkOrderedSet (cells s ++ [mkCell (Some key) curr end_])
               (key_map s) in
    do! s := write curr (set_next new) s in
    do! s := write end_ (set_prev new) s in
    Returns (mkOrderedSet (cells s) (key_map s ++ [(key, new)])).

(** [update], lines 276-279, and [self |= iterable] of [__init__]. *)
Fixpoint update (keys : list K) (s : OrderedSet) : outcome OrderedSet :=
  match keys with
  | [] => Returns s
  | k :: keys' => do! s := add k s in update keys' s
  end.

(** [OrderedSet(iterable)], lines 256-261. *)
Definition OrderedSet_init (iterable : option (list K))
    : outcome OrderedSet :=
  match iterable with
  | Some keys => update keys empty_set
  | None => Returns empty_set
  end.

(** [discard], lines 281-286. *)
Definition discard (key : K) (s : OrderedSet) : outcome OrderedSet :=
  match map_get key s with
  | Some a =>
      do! cell := read a s in
      let s := mkOrderedSet (cells s)
                 (filter (λ entry, entry.1 ≠ key) (key_map s)) in
      do! s := write (cell_prev cell) (set_next (cell_next cell)) s in
      write (cell_next cell) (set_prev (cell_prev cell)) s
  | None => Returns s
  end.

(** The loop of [__iter__] (lines 288-293, along [next]) and of
    [__reversed__] (lines 295-300, along [prev]) from the cell [curr] on,
    when nothing changes the set in between: the keys it yields. *)
Fixpoint walk (fuel : nat) (step : Cell → addr) (curr : addr)
    (s : OrderedSet) : outcome (list K) :=
  if curr =? end_ then Returns []
  else
    match fuel with
    | 0 => Broken
    | S fuel' =>
        do! cell := read curr s in
        match cell_key cell with
        | Some k =>
            do! keys := walk fuel' step (step cell) s in Returns (k :: keys)
        | None => Broken
        end
    end.

(** [list(self)] and [list(reversed(self))]. *)
Definition iter (s : OrderedSet) : outcome (list K) :=
  do! end_cell := read end_ s in
  walk (length (cells s)) cell_next (cell_next end_cell) s.

Definition reversed (s : OrderedSet) : outcome (list K) :=
  do! end_cell := read end_ s in
  walk (length (cells s)) cell_prev (cell_prev end_cell) s.

(** [pop], lines 302-307; the result is the key and the set after the
    call. *)
Definition pop (last : bool) (s : OrderedSet) : outcome (K * OrderedSet) :=
  if len s =? 0 then Raises "KeyError"
  else
    do! end_cell := read end_ s in
    do! cell := read (if last then cell_prev end_cell
                      else cell_next end_cell) s in
    match cell_key cell with
    | Some key => do! s := discard key s in Returns (key, s)
    | None => Broken
    end.

(** [difference_update], lines 309-313: the loop [for k in self] from the
    cell [curr] on. The generator of [__iter__] reads [curr[2]] when it is
    resumed, after the body of the loop has run. *)
Fixpoint difference_update_from (fuel : nat) (other : K → bool)
    (curr : addr) (s : OrderedSet) : outcome OrderedSet :=
  if curr =? end_ then Returns s
  else
    match fuel with
    | 0 => Broken
    | S fuel' =>
        do! cell := read curr s in
        match cell_key cell with
        | Some k =>
            do! s := if other k then discard k s else Returns s in
            do! cell := read curr s in
            difference_update_from fuel' other (cell_next cell) s
        | None => Broken
        end
    end.

Definition difference_update (other : K → bool) (s : OrderedSet)
    : outcome OrderedSet :=
  do! end_cell := read end_ s in
  difference_update_from (length (cells s)) other (cell_next end_cell) s.

(** An argument of [union]: a [set], with the order in which it hands out
    its elements; an [OrderedSet]; or an object of another class. *)
Inductive SetArg :=
  | PySet (elements : list K)
  | AnOrderedSet (s : OrderedSet)
  | AnotherObject.

(** [union], lines 315-320. *)
Fixpoint union_from (others : list SetArg) (res : OrderedSet)
    : outcome OrderedSet :=
  match others with
  | [] => Returns res
  | AnotherObject :: _ => Raises "AssertionError"
  | PySet keys :: others' =>
      do! res := update keys res in union_from others' res
  | AnOrderedSet s :: others' =>
      do! keys := iter s in
      do! res := update keys res in union_from others' res
  end.

Definition union (s : OrderedSet) (others : list SetArg)
    : outcome OrderedSet :=
  do! res := OrderedSet_init (Some (key_map s).*1) in
  union_from others res.

(** [difference], lines 322-327; [k in s] is given for each of the
    [others]. *)
Fixpoint difference_from (others : list (K → bool)) (keys : list K)
    (res : OrderedSet) : outcome OrderedSet :=
  match keys with
  | [] => Returns res
  | k :: keys' =>
      do! res := if existsb (λ other, other k) others then Returns res
                 else add k res in
      difference_from others keys' res
  end.

Definition difference (s : OrderedSet) (others : list (K → bool))
    : outcome OrderedSet :=
  do! keys := iter s in
  difference_from others keys empty_set.

(** [__eq__], lines 334-337, with another [OrderedSet]. *)
Definition eq_OrderedSet (s other : OrderedSet) : outcome bool :=
  if bool_decide (len s = len other) then
    do! mine := iter s in
    do! theirs := iter other in
    Returns (bool_decide (mine = theirs))
  else Returns false.

(** [indexOf], lines 339-343: the loop from the cell [curr] on, [idx]
    being the count of [enumerate]. *)
Fixpoint indexOf_from (fuel : nat) (key : K) (idx : Z) (curr : addr)
    (s : OrderedSet) : outcome Z :=
  if curr =? end_ then Returns (-1)%Z
  else
    match fuel with
    | 0 => Broken
    | S fuel' =>
        do! cell := read curr s in
        match cell_key cell with
        | Some k =>
            if bool_decide (key = k) then Returns idx
            else indexOf_from fuel' key (idx + 1) (cell_next cell) s
        | None => Broken
        end
    end.

Definition indexOf (key : K) (s : OrderedSet) : outcome Z :=
  do! end_cell := read end_ s in
  indexOf_from (length (cells s)) key 0 (cell_next end_cell) s.

(** [__getitem__], lines 345-355; an index that is not an [int] is
    [None] here. *)
Fixpoint getitem_from (fuel : nat) (idx i : Z) (curr : addr)
    (s : OrderedSet) : outcome K :=
  if curr =? end_ then Raises "Exception"
  else
    match fuel with
    | 0 => Broken
    | S fuel' =>
        do! cell := read curr s in
        match cell_key cell with
        | Some v =>
            if (i =? idx)%Z then Returns v
            else getitem_from fuel' idx (i + 1) (cell_next cell) s
        | None => Broken
        end
    end.

Definition getitem (idx : option Z) (s : OrderedSet) : outcome K :=
  match idx with
  | None => Raises "TypeError"
  | Some idx =>
      if (idx <? 0)%Z || (Z.of_nat (len s) <=? idx)%Z then Raises "ValueError"
      else
        do! end_cell := read end_ s in
        getitem_from (length (cells s)) idx 0 (cell_next end_cell) s
  end.

(** *** The sets that the class makes *)

(** The cells of [entries] are linked one to the next, the first one
    coming after the cell [p] and the last one before the cell [stop]. *)
Fixpoint chain (store : list Cell) (p : addr) (entries : list (K * addr))
    (stop : addr) : Prop :=
  match entries with
  | [] => True
  | (k, a) :: rest =>
      store !! a = Some (mkCell (Some k) p (hd stop rest.*2)) ∧
      chain store a rest stop
  end.

(** [s] is a set as the class makes it: the cells of the dictionary are
    distinct, linked in the order of the dictionary, and closed into a ring
    by the sentinel; no key comes twice. *)
Definition represents (s : OrderedSet) : Prop :=
  NoDup (key_map s).*1 ∧ NoDup (end_ :: (key_map s).*2) ∧
  chain (cells s) end_ (key_map s) end_ ∧
  cells s !! end_
  = Some (mkCell None (default end_ (last (key_map s).*2))
            (hd end_ (key_map s).*2)).

Global Instance Cell_eq_dec : EqDecision Cell.
Proof using All. solve_decision. Defined.

Global Instance chain_dec store p entries stop :
  Decision (chain store p entries stop).
Proof using All.
  revert p. induction entries as [|[k a] rest IH]; intros p; simpl; apply _.
Defined.

Global Instance represents_dec s : Decision (represents s).
Proof using All. unfold represents. apply _. Defined.

(** An argument that passes the [assert] of [union]: a [set], or an
    [OrderedSet] as the class keeps it. *)
Definition is_set (arg : SetArg) : Prop :=
  match arg with
  | PySet _ => True
  | AnOrderedSet s => represents s
  | AnotherObject => False
  end.

(** The elements that [update] takes from it, in the order of its
    iteration. *)
Definition elements_of (arg : SetArg) : list K :=
  match arg with
  | PySet elements => elements
  | AnOrderedSet s => (key_map s).*1
  | AnotherObject => []
  end.

(** The keys of [acc] followed by the keys of [keys] that are new, each
    once, in the order they come. *)
Definition insert_all (acc keys : list K) : list K :=
  foldl (λ acc k, if bool_decide (k ∈ acc) then acc else acc ++ [k]) acc keys.

End OrderedSet.

Arguments Cell K : clear implicits.
Arguments OrderedSet K : clear implicits.
Arguments SetArg K : clear implicits.

(** [OrderedSet([5, 7, 9, 7])]. *)
Definition sample_set : OrderedSet Z :=
  match OrderedSet_init (Some [5; 7; 9; 7]%Z) with
  | Returns s => s
  | _ => empty_set
  end.

(** * Properties *)

(** ** C2 *)

(** 1/64 ms of forward time and no backward time: the scaled cost is
    0.78125, which [int] truncates to 0 and [round] takes to 1. *)
Definition short_layer : Weight := WTimes 0.015625 0.

(** Claim C2, refuted as stated: on the timing record [short_layer] the
    adapter's [weight_func] returns 0, not the rounded value 1 that
    [round(100 * (forward_time + backward_time) / 2)] gives. *)
Lemma C2_weight_func_is_not_round :
  weight_func short_layer = Ok 0%Z ∧
  weight_policy_of_spec short_layer = Ok 1%Z ∧
  weight_func short_layer ≠ weight_policy_of_spec short_layer.
Proof. repeat split; vm_compute; congruence. Qed.

Lemma int_of_float_finite x s m e :
  Prim2SF x = S754_finite s m e →
  ∃ a, int_of_float x = Ok (if s then (- a)%Z else a) ∧
    (0 ≤ a)%Z ∧
    ((0 ≤ e)%Z → a = (Z.pos m * 2 ^ e)%Z) ∧
    ((e < 0)%Z → (a * 2 ^ (- e) ≤ Z.pos m < (a + 1) * 2 ^ (- e))%Z).
Proof.
  intros Hx. unfold int_of_float. rewrite Hx.
  destruct (Z.leb_spec 0 e) as [He|He].
  - exists (Z.shiftl (Z.pos m) e). split; [done|].
    rewrite Z.shiftl_mul_pow2 by done.
    split; [|split; [done|lia]].
    apply Z.mul_nonneg_nonneg; [lia|]. apply Z.pow_nonneg; lia.
  - exists (Z.shiftr (Z.pos m) (- e)). split; [done|].
    rewrite Z.shiftr_div_pow2 by lia.
    assert (0 < 2 ^ (- e))%Z as Hp by (apply Z.pow_pos_nonneg; lia).
    split; [apply Z.div_pos; lia|]. split; [lia|]. intros _.
    pose proof (Z.mul_div_le (Z.pos m) _ Hp).
    pose proof (Z.mul_succ_div_gt (Z.pos m) _ Hp). lia.
Qed.

(** Claim C2, as the code has it: for a timing record [weight_func]
    returns [int(100 * (forward_time + backward_time) / 2)], the scaled cost
    truncated towards zero (its magnitude is the largest integer not above
    the magnitude of the float, and its sign is the float's), and it returns
    exactly 0 for every weight that is not a tuple. *)
Theorem C2_weight_func_truncates (w : Weight) :
  (∀ f b, w = WTimes f b →
     weight_func w = int_of_float (scaled_time f b) ∧
     ∀ s m e, Prim2SF (scaled_time f b) = S754_finite s m e →
       ∃ a, weight_func w = Ok (if s then (- a)%Z else a) ∧ (0 ≤ a)%Z ∧
         ((0 ≤ e)%Z → a = (Z.pos m * 2 ^ e)%Z) ∧
         ((e < 0)%Z → (a * 2 ^ (- e) ≤ Z.pos m < (a + 1) * 2 ^ (- e))%Z)) ∧
  (is_tuple w = false → weight_func w = Ok 0%Z).
Proof.
  split.
  - intros f b ->. split; [done|]. intros s m e Hx.
    by apply int_of_float_finite.
  - by destruct w.
Qed.

Lemma C2_weight_func_truncates_witness :
  weight_func (WTimes 3.5 0.5) = Ok 200%Z ∧ weight_func (WInt 6) = Ok 0%Z.
Proof.
  destruct (C2_weight_func_truncates (WTimes 3.5 0.5)) as [H1 _].
  destruct (C2_weight_func_truncates (WInt 6)) as [_ H2].
  split; [|apply H2; reflexivity].
  destruct (H1 _ _ eq_refl) as [-> _]. vm_compute. reflexivity.
Defined.

(** ** Store lemmas *)

(** Closes a decidable goal about concrete data by evaluating its decision
    procedure. *)
Ltac by_computing := apply (bool_decide_unpack _); vm_compute; exact I.

Lemma list_alter_id_at {A} (f : A → A) (l : list A) (i : nat) :
  (∀ x, l !! i = Some x → f x = x) → alter f i l = l.
Proof.
  intros Hf. apply list_eq. intros j. destruct (decide (i = j)) as [->|Hne].
  - rewrite list_lookup_alter_eq. destruct (l !! j) eqn:E; simpl; [|done].
    by rewrite Hf.
  - by rewrite list_lookup_alter_ne.
Qed.

Lemma with_heap_nodes_id st : with_heap_nodes (heap_nodes st) st = st.
Proof. by destruct st. Qed.

Lemma with_heap_sets_id st : with_heap_sets (heap_sets st) st = st.
Proof. by destruct st. Qed.

Lemma with_out_nodes_id n : with_out_nodes (out_nodes n) n = n.
Proof. by destruct n. Qed.

Lemma update_out_nodes_id self f st :
  f (out_of st self) = out_of st self → update_out_nodes self f st = st.
Proof.
  intros Hf. unfold update_out_nodes.
  rewrite list_alter_id_at; [apply with_heap_nodes_id|].
  intros n Hn. unfold out_of in Hf. rewrite Hn in Hf. simpl in Hf.
  rewrite Hf. apply with_out_nodes_id.
Qed.

Lemma update_in_nodes_id self f st :
  f ∅ = ∅ → f (in_of st self) = in_of st self → update_in_nodes self f st = st.
Proof.
  intros H0 Hf. unfold update_in_nodes, in_of in *.
  destruct (heap_nodes st !! self) as [n|]; [|done]. simpl in Hf.
  rewrite list_alter_id_at; [apply with_heap_sets_id|].
  intros s Hs. by rewrite Hs in Hf.
Qed.

(** ** Running the monad *)

Lemma bind_Ok {A B} (m : M A) (k : A → M B) st a st' :
  m st = Ok (a, st') → bind m k st = k a st'.
Proof. unfold bind. by intros ->. Qed.

Lemma bind_Raise {A B} (m : M A) (k : A → M B) st e :
  m st = Raise e → bind m k st = Raise e.
Proof. unfold bind. by intros ->. Qed.

Lemma bind_modify {B} f (k : unit → M B) st :
  bind (modify f) k st = k tt (f st).
Proof. done. Qed.

Lemma bind_get {B} (k : State → M B) st : bind get k st = k st st.
Proof. done. Qed.

Lemma bind_ret {A B} (a : A) (k : A → M B) st : bind (ret a) k st = k a st.
Proof. done. Qed.

Lemma bind_inv_Ok {A B} (m : M A) (k : A → M B) st b st' :
  bind m k st = Ok (b, st') →
  ∃ a st1, m st = Ok (a, st1) ∧ k a st1 = Ok (b, st').
Proof.
  unfold bind. destruct (m st) as [[a st1]|e|]; [|done..].
  intros Hk. by exists a, st1.
Qed.

(** ** C10 *)

(** Claim C10: handed a value that is neither a [Node] nor a [set], each of
    [add_out_node], [add_in_node], [remove_in_node] and [remove_out_node]
    returns without an exception and leaves the whole store, so both edge
    sets of the node, as it was; and removing a node that is not in the set
    returns without an exception and changes nothing either. *)
Theorem C10_mutators_silent_no_op (st : State) (self : addr) (x : pyarg)
    (a : addr) :
  (isinstance_Node x = false → isinstance_set x = false →
     add_out_node self x st = Ok (tt, st) ∧
     add_in_node self x st = Ok (tt, st) ∧
     remove_in_node self x st = Ok (tt, st) ∧
     remove_out_node self x st = Ok (tt, st)) ∧
  (a ∉ in_of st self → remove_in_node self (ANode a) st = Ok (tt, st)) ∧
  (a ∉ out_of st self → remove_out_node self (ANode a) st = Ok (tt, st)).
Proof.
  split; [|split].
  - intros HN HS. by destruct x.
  - intros Ha. unfold remove_in_node, bind, modify, ret.
    rewrite update_in_nodes_id; [done| |].
    + apply difference_disjoint_L, disjoint_empty_l.
    + by apply difference_disjoint_L, disjoint_singleton_r.
  - intros Ha. unfold remove_out_node, bind, modify, ret.
    rewrite update_out_nodes_id; [done|].
    by apply difference_disjoint_L, disjoint_singleton_r.
Qed.

(** ** C9 *)

Lemma with_idx_id n : with_idx (idx n) n = n.
Proof. by destruct n. Qed.

Lemma with_heap_nodes_twice h h' st :
  with_heap_nodes h (with_heap_nodes h' st) = with_heap_nodes h st.
Proof. done. Qed.

(** The renumbering loop only rewrites [idx] attributes: the node at
    position [p] of the remaining list gets [i + p]. *)
Lemma normalize_from_spec (todo : list addr) :
  ∀ i st, NoDup todo →
    ∃ h, normalize_from i todo st = Ok (tt, with_heap_nodes h st) ∧
      (∀ a, a ∉ todo → h !! a = heap_nodes st !! a) ∧
      (∀ p a, todo !! p = Some a →
         h !! a = with_idx (i + p) <$> heap_nodes st !! a).
Proof.
  induction todo as [|a todo IH]; intros i st Hnd.
  - exists (heap_nodes st). rewrite with_heap_nodes_id.
    split; [done|]. split; [done|]. by intros p a.
  - apply NoDup_cons in Hnd as [Ha Hnd]. simpl. unfold bind, modify.
    destruct (IH (S i)
      (with_heap_nodes (alter (with_idx i) a (heap_nodes st)) st) Hnd)
      as (h & Hrun & Hout & Hin).
    exists h. rewrite Hrun. split; [done|]. split.
    + intros b Hb. apply not_elem_of_cons in Hb as [Hne Hb].
      rewrite Hout by done. simpl. by rewrite list_lookup_alter_ne.
    + intros [|p] b Hp; simpl in Hp.
      * injection Hp as ->. rewrite Hout by done. simpl.
        rewrite list_lookup_alter_eq. by rewrite Nat.add_0_r.
      * rewrite (Hin p b Hp). simpl.
        rewrite list_lookup_alter_ne; [by rewrite Nat.add_succ_r|].
        intros ->. apply Ha. by eapply list_elem_of_lookup_2.
Qed.

(** On nodes that already carry their positions the loop changes nothing. *)
Lemma normalize_from_fixed (todo : list addr) :
  ∀ i st,
    (∀ p a n, todo !! p = Some a → heap_nodes st !! a = Some n →
       idx n = i + p) →
    normalize_from i todo st = Ok (tt, st).
Proof.
  induction todo as [|a todo IH]; intros i st Hidx; [done|].
  simpl. unfold bind, modify.
  rewrite list_alter_id_at.
  - rewrite with_heap_nodes_id. apply IH. intros p b n Hp Hn.
    rewrite (Hidx (S p) b n Hp Hn). lia.
  - intros n Hn.
    assert (idx n = i) as <- by (rewrite (Hidx 0 a n eq_refl Hn); lia).
    apply with_idx_id.
Qed.

(** Claim C9: on a graph whose node list names each allocated node once,
    one run of [_normalize_indices] leaves every node with its position in
    the node list as index, so the indices read along the list are
    0, 1, ..., N-1; and a second run changes nothing. *)
Theorem C9_normalize_indices_positions (st : State) :
  NoDup (nodes st) →
  (∀ a, a ∈ nodes st → a < length (heap_nodes st)) →
  ∃ st1, _normalize_indices st = Ok (tt, st1) ∧
    nodes st1 = nodes st ∧
    (∀ p a, nodes st1 !! p = Some a → idx_of st1 a = p) ∧
    idx_of st1 <$> nodes st1 = seq 0 (length (nodes st1)) ∧
    _normalize_indices st1 = Ok (tt, st1).
Proof.
  intros Hnd Hval.
  destruct (normalize_from_spec (nodes st) 0 st Hnd) as (h & Hrun & _ & Hin).
  exists (with_heap_nodes h st).
  assert (∀ p a, nodes st !! p = Some a →
            ∃ n, h !! a = Some (with_idx p n)) as Hpos.
  { intros p a Hp. rewrite (Hin p a Hp). simpl.
    destruct (lookup_lt_is_Some_2 (heap_nodes st) a) as [n Hn].
    - apply Hval. by eapply list_elem_of_lookup_2.
    - exists n. by rewrite Hn. }
  assert (∀ p a, nodes st !! p = Some a →
            idx_of (with_heap_nodes h st) a = p) as Hidx.
  { intros p a Hp. destruct (Hpos p a Hp) as [n Hn].
    unfold idx_of. simpl. by rewrite Hn. }
  split; [exact Hrun|]. split; [done|]. split; [exact Hidx|]. split.
  - apply list_eq. intros p. rewrite list_lookup_fmap. simpl.
    destruct (nodes st !! p) as [a|] eqn:Hp; simpl.
    + rewrite (Hidx p a Hp). symmetry. apply lookup_seq. split; [done|].
      by eapply lookup_lt_Some.
    + symmetry. apply lookup_seq_ge. by apply lookup_ge_None.
  - unfold _normalize_indices, bind, get. apply normalize_from_fixed.
    intros p a n Hp Hn. simpl in *. destruct (Hpos p a Hp) as [n' Hn'].
    rewrite Hn in Hn'. by injection Hn' as ->.
Qed.

Lemma constant_between_built :
  (let! _ := _add_IO_nodes (trace_inputs constant_between_trace) in
   _add_OP_nodes (trace_nodes constant_between_trace))
    (initial ["Net/Linear[fc1]"] 1 [])
  = Ok (tt, constant_between).
Proof. vm_compute. reflexivity. Qed.

Lemma C9_normalize_indices_positions_witness :
  ∃ st1, _normalize_indices constant_between = Ok (tt, st1) ∧
    nodes st1 = nodes constant_between ∧
    (∀ p a, nodes st1 !! p = Some a → idx_of st1 a = p) ∧
    idx_of st1 <$> nodes st1 = seq 0 (length (nodes st1)) ∧
    _normalize_indices st1 = Ok (tt, st1).
Proof.
  apply (C9_normalize_indices_positions constant_between).
  - by_computing.
  - intros a Ha. simpl in *. set_unfold in Ha. lia.
Defined.

Lemma C10_mutators_silent_no_op_witness :
  add_out_node 1 (AList [0; 2]) constant_between = Ok (tt, constant_between) ∧
  remove_in_node 1 (ANode 2) constant_between = Ok (tt, constant_between) ∧
  remove_out_node 1 (ANode 0) constant_between = Ok (tt, constant_between).
Proof.
  destruct (C10_mutators_silent_no_op constant_between 1 (AList [0; 2]) 2)
    as (H1 & H2 & _).
  destruct (C10_mutators_silent_no_op constant_between 1 ANone 0)
    as (_ & _ & H3).
  split; [apply H1; reflexivity|]. split.
  - apply H2. by_computing.
  - apply H3. by_computing.
Defined.

(** ** C6 *)

Lemma adjacency_list_undirected_row st i row :
  adjacency_list st false !! i = Some row →
  ∃ u, nodes st !! i = Some u ∧
    row = idx_of st <$> elements (out_of st u ∪ in_of st u).
Proof.
  unfold adjacency_list. simpl. rewrite list_lookup_fmap.
  destruct (nodes st !! i) as [u|]; simpl; [|done].
  intros [= <-]. by exists u.
Qed.

(** Claim C6: on a graph whose edges lead to nodes of the graph and are
    recorded at both ends, and whose nodes carry their positions as
    indices, [adjacency_list(directed=False)] is symmetric: when [j] is in
    row [i], there is a row [j] and [i] is in it. Row [i] lists the indices
    of the union of the out- and in-neighbours of the node at position
    [i]. *)
Theorem C6_adjacency_list_symmetric (st : State) (i j : nat)
    (row_i : list nat) :
  edges_within_graph st →
  bidirectional st →
  indices_are_positions st →
  adjacency_list st false !! i = Some row_i →
  j ∈ row_i →
  ∃ row_j, adjacency_list st false !! j = Some row_j ∧ i ∈ row_j.
Proof.
  intros Hin Hbi Hpos Hrow Hj.
  apply adjacency_list_undirected_row in Hrow as (u & Hu & ->).
  apply list_elem_of_fmap in Hj as (v & -> & Hv).
  apply elem_of_elements in Hv.
  assert (u ∈ nodes st) as Hul by by eapply list_elem_of_lookup_2.
  assert (v ∈ nodes st) as Hvl by by eapply Hin.
  apply list_elem_of_lookup_1 in Hvl as [q Hq].
  destruct (Hpos q v Hq) as (nv & Hnv & Hidxv).
  destruct (Hpos i u Hu) as (nu & Hnu & Hidxu).
  assert (idx_of st v = q) as -> by (unfold idx_of; by rewrite Hnv).
  exists (idx_of st <$> elements (out_of st v ∪ in_of st v)). split.
  - unfold adjacency_list. simpl. rewrite list_lookup_fmap. by rewrite Hq.
  - apply list_elem_of_fmap. exists u. split.
    + unfold idx_of. by rewrite Hnu.
    + apply elem_of_elements.
      assert (v ∈ nodes st) as Hvl by by eapply list_elem_of_lookup_2.
      apply elem_of_union in Hv as [Hv|Hv]; apply elem_of_union.
      * right. by apply (Hbi u v).
      * left. by apply (Hbi v u).
Qed.

(** The well-formedness conditions can be checked by running through the
    node list. *)
Lemma edges_within_graph_check st :
  Forall (λ u, Forall (λ v, v ∈ nodes st)
                 (elements (out_of st u ∪ in_of st u))) (nodes st) →
  edges_within_graph st.
Proof.
  intros Hall u v Hu Hv. rewrite Forall_forall in Hall.
  specialize (Hall u Hu). rewrite Forall_forall in Hall.
  apply Hall. by apply elem_of_elements.
Qed.

Lemma bidirectional_check st :
  Forall (λ u, Forall (λ v, v ∈ out_of st u ↔ u ∈ in_of st v) (nodes st))
    (nodes st) →
  bidirectional st.
Proof.
  intros Hall u v Hu Hv. rewrite Forall_forall in Hall.
  specialize (Hall u Hu). rewrite Forall_forall in Hall. by apply Hall.
Qed.

Lemma indices_are_positions_check st :
  idx_of st <$> nodes st = seq 0 (length (nodes st)) →
  Forall (λ a, a < length (heap_nodes st)) (nodes st) →
  indices_are_positions st.
Proof.
  intros Hidx Hval p a Hp. rewrite Forall_forall in Hval.
  destruct (lookup_lt_is_Some_2 (heap_nodes st) a) as [n Hn].
  { apply Hval. by eapply list_elem_of_lookup_2. }
  exists n. split; [done|].
  assert ((idx_of st <$> nodes st) !! p = Some (idx n)) as Hl.
  { rewrite list_lookup_fmap, Hp. simpl. unfold idx_of. by rewrite Hn. }
  rewrite Hidx in Hl. apply lookup_seq in Hl. lia.
Qed.

Lemma constant_between_well_formed :
  edges_within_graph constant_between ∧ bidirectional constant_between ∧
  indices_are_positions constant_between.
Proof.
  split; [|split].
  - apply edges_within_graph_check, (bool_decide_unpack _).
    vm_compute. reflexivity.
  - apply bidirectional_check, (bool_decide_unpack _).
    vm_compute. reflexivity.
  - apply indices_are_positions_check.
    + vm_compute. reflexivity.
    + by_computing.
Qed.

Lemma C6_adjacency_list_symmetric_witness :
  adjacency_list constant_between false !! 1 = Some [2; 0] ∧
  ∃ row_j, adjacency_list constant_between false !! 2 = Some row_j ∧
    1 ∈ row_j.
Proof.
  split; [vm_compute; reflexivity|].
  apply (C6_adjacency_list_symmetric constant_between 1 2 [2; 0]).
  - apply constant_between_well_formed.
  - apply constant_between_well_formed.
  - apply constant_between_well_formed.
  - vm_compute. reflexivity.
  - by_computing.
Defined.

(** ** C4 *)

Lemma override_twice weights n :
  override weights (override weights n) = override weights n.
Proof.
  unfold override. destruct n as [sc i t o w pt sh l]. simpl.
  by destruct (weights !! sc).
Qed.

(** The overlay loop rewrites the nodes it runs over with [override] and
    nothing else. *)
Lemma overlay_loop_spec weights (todo : list addr) :
  ∀ st,
    ∃ h,
      for_each todo (λ node,
        modify (λ st,
          with_heap_nodes (alter (override weights) node (heap_nodes st)) st))
        st = Ok (tt, with_heap_nodes h st) ∧
      (∀ a, a ∈ todo → h !! a = override weights <$> heap_nodes st !! a) ∧
      (∀ a, a ∉ todo → h !! a = heap_nodes st !! a).
Proof.
  induction todo as [|b todo IH]; intros st.
  - exists (heap_nodes st). rewrite with_heap_nodes_id.
    split; [done|]. split; [|done]. intros a Ha. by apply elem_of_nil in Ha.
  - simpl. rewrite bind_modify.
    destruct (IH (with_heap_nodes
                    (alter (override weights) b (heap_nodes st)) st))
      as (h & Hrun & Hin & Hout).
    exists h. rewrite Hrun. split; [done|]. simpl in *.
    assert (h !! b = override weights <$> heap_nodes st !! b) as Hb.
    { destruct (decide (b ∈ todo)) as [Hbt|Hbt].
      - rewrite (Hin b Hbt), list_lookup_alter_eq.
        destruct (heap_nodes st !! b); simpl; [|done].
        by rewrite override_twice.
      - by rewrite (Hout b Hbt), list_lookup_alter_eq. }
    split.
    + intros a Ha. destruct (decide (a = b)) as [->|Hne]; [done|].
      apply elem_of_cons in Ha as [?|Ha]; [done|].
      by rewrite (Hin a Ha), list_lookup_alter_ne.
    + intros a Ha. apply not_elem_of_cons in Ha as [Hne Ha].
      by rewrite (Hout a Ha), list_lookup_alter_ne.
Qed.

(** Claim C4, refuted as stated: with overrides for ["Net/Linear[fc1]"] and
    for ["input0"], the weight of the input node (type [IN], not a profiled
    layer) is replaced, and both nodes that carry the scope
    ["Net/Linear[fc1]"] get the override, not one node only. *)
Lemma C4_override_not_limited_to_one_layer_node :
  ∃ st0 st1,
    Graph_init fc1_layers 1 fc1_params fc1_trace ∅ = Ok st0 ∧
    Graph_init fc1_layers 1 fc1_params fc1_trace fc1_overrides = Ok st1 ∧
    nodes st0 = [0; 1; 2; 3] ∧ nodes st1 = [0; 1; 2; 3] ∧
    type <$> heap_nodes st1 !! 0 = Some IN ∧
    weight_of st0 0 = WInt 32 ∧ weight_of st1 0 = WInt 7 ∧
    scope_of st1 2 = "Net/Linear[fc1]" ∧ scope_of st1 3 = "Net/Linear[fc1]" ∧
    weight_of st0 2 = WInt 0 ∧ weight_of st0 3 = WInt 0 ∧
    weight_of st1 2 = WTimes 3.5 0.5 ∧ weight_of st1 3 = WTimes 3.5 0.5.
Proof. eexists _, _. vm_compute. repeat split. Qed.

(** Claim C4, as the code has it: the overlay gives every node of the graph
    whose scope is a key of [weights] the weight stored under that key,
    whatever the type of the node; a node whose scope is not a key, and every
    object that is not in the node list, stays as it was, and so do the node
    list and the edge sets. *)
Theorem C4_overlay_by_scope_only (weights : gmap string Weight) (st : State) :
  ∃ st',
    overlay_weights weights st = Ok (tt, st') ∧
    nodes st' = nodes st ∧ heap_sets st' = heap_sets st ∧
    (∀ a n w, a ∈ nodes st → heap_nodes st !! a = Some n →
       weights !! scope n = Some w →
       heap_nodes st' !! a = Some (with_weight w n)) ∧
    (∀ a n, heap_nodes st !! a = Some n → weights !! scope n = None →
       heap_nodes st' !! a = Some n) ∧
    (∀ a, a ∉ nodes st → heap_nodes st' !! a = heap_nodes st !! a).
Proof.
  destruct (overlay_loop_spec weights (nodes st) st) as (h & Hrun & Hin & Hout).
  exists (with_heap_nodes h st). split; [exact Hrun|].
  split; [done|]. split; [done|]. simpl. split; [|split].
  - intros a n w Ha Hn Hw. rewrite (Hin a Ha), Hn. simpl.
    unfold override. by rewrite Hw.
  - intros a n Hn Hw. destruct (decide (a ∈ nodes st)) as [Ha|Ha].
    + rewrite (Hin a Ha), Hn. simpl. unfold override. rewrite Hw. simpl.
      by destruct n.
    + by rewrite (Hout a Ha).
  - exact Hout.
Qed.

(** ** C8: the encasing scope *)

Lemma append_String c (p rest : string) :
  String c p +:+ rest = String c (p +:+ rest).
Proof. done. Qed.

Lemma startswith_spec (s p : string) :
  startswith s p = true ↔ ∃ rest, s = p +:+ rest.
Proof.
  unfold startswith. revert s. induction p as [|c p IH]; intros s.
  - split; [|by destruct s]. intros _. by exists s.
  - destruct s as [|d s]; simpl.
    + split; [done|]. intros [rest Hrest]. by rewrite append_String in Hrest.
    + destruct (Ascii.ascii_dec c d) as [->|Hne].
      * rewrite IH. split; intros [rest Hrest]; exists rest;
          rewrite append_String in *; congruence.
      * split; [done|]. intros [rest Hrest].
        rewrite append_String in Hrest. congruence.
Qed.

(** The loop keeps the longest scope seen so far that [scopeName] starts
    with. *)
Lemma most_specific_scope_acc (scopeName : string) (layers : list string) :
  ∀ acc,
    let r :=
      foldl
        (λ most layer_scope,
           if startswith scopeName layer_scope
              && (String.length most <? String.length layer_scope)
           then layer_scope else most)
        acc layers in
    (r = acc ∨ (r ∈ layers ∧ startswith scopeName r = true)) ∧
    String.length acc ≤ String.length r ∧
    (∀ l, l ∈ layers → startswith scopeName l = true →
       String.length l ≤ String.length r).
Proof.
  induction layers as [|l layers IH]; intros acc; simpl.
  - split; [by left|]. split; [done|]. intros l Hl. by apply elem_of_nil in Hl.
  - destruct (IH (if startswith scopeName l
                     && (String.length acc <? String.length l)
                  then l else acc)) as (Hr & Hlen & Hmax).
    destruct (startswith scopeName l) eqn:Hpre; simpl in *.
    + destruct (Nat.ltb_spec (String.length acc) (String.length l)) as [Hlt|Hge].
      * split; [|split; [lia|]].
        -- destruct Hr as [->|[Hin Hp]]; right.
           ++ split; [apply list_elem_of_here|done].
           ++ split; [by apply list_elem_of_further|done].
        -- intros l0 Hl0 Hp0. apply elem_of_cons in Hl0 as [->|Hl0]; [done|].
           by apply Hmax.
      * split; [|split; [done|]].
        -- destruct Hr as [->|[Hin Hp]]; [by left|right].
           split; [by apply list_elem_of_further|done].
        -- intros l0 Hl0 Hp0. apply elem_of_cons in Hl0 as [->|Hl0]; [lia|].
           by apply Hmax.
    + split; [|split; [done|]].
      * destruct Hr as [->|[Hin Hp]]; [by left|right].
        split; [by apply list_elem_of_further|done].
      * intros l0 Hl0 Hp0. apply elem_of_cons in Hl0 as [->|Hl0]; [congruence|].
        by apply Hmax.
Qed.

Lemma most_specific_scope_longest (layers : list string) (scopeName : string) :
  let r := most_specific_scope layers scopeName in
  (r ≠ EmptyString → r ∈ layers ∧ ∃ rest, scopeName = r +:+ rest) ∧
  (∀ l, l ∈ layers → (∃ rest, scopeName = l +:+ rest) →
     String.length l ≤ String.length r).
Proof.
  destruct (most_specific_scope_acc scopeName layers EmptyString)
    as (Hr & _ & Hmax).
  split.
  - intros Hne. destruct Hr as [?|[Hin Hp]]; [done|].
    split; [done|]. by apply startswith_spec.
  - intros l Hl Hp. apply Hmax; [done|]. by apply startswith_spec.
Qed.

Lemma raw_op_scope_separates (tn1 tn2 : TraceNode) (i j : nat) :
  scopeName tn1 = scopeName tn2 → kind tn1 = kind tn2 → i ≠ j →
  raw_op_scope tn1 i ≠ raw_op_scope tn2 j.
Proof.
  intros Hs Hk Hij Heq. unfold raw_op_scope, str in Heq.
  rewrite Hs, Hk in Heq. apply String.app_inj in Heq.
  by apply pretty_nat_inj in Heq.
Qed.

(** ** Objects stay *)

Lemma stable_refl st : stable st st.
Proof. split; [|done]. intros a n Hn. by exists n. Qed.

Lemma stable_trans st1 st2 st3 : stable st1 st2 → stable st2 st3 → stable st1 st3.
Proof.
  intros [H12 L12] [H23 L23]. split; [|congruence].
  intros a n Hn. destruct (H12 a n Hn) as (n2 & Hn2 & ? & ? & ?).
  destruct (H23 a n2 Hn2) as (n3 & Hn3 & ? & ? & ?).
  exists n3. repeat split; congruence.
Qed.

Lemma stable_alter (f : Node → Node) a st :
  (∀ n, scope (f n) = scope n ∧ type (f n) = type n ∧
        in_nodes (f n) = in_nodes n) →
  stable st (with_heap_nodes (alter f a (heap_nodes st)) st).
Proof.
  intros Hf. split; [|done]. intros b n Hn. simpl.
  destruct (decide (a = b)) as [->|Hne].
  - exists (f n). rewrite list_lookup_alter_eq, Hn. split; [done|]. apply Hf.
  - exists n. by rewrite list_lookup_alter_ne.
Qed.

Lemma stable_update_out_nodes self f st :
  stable st (update_out_nodes self f st).
Proof. by apply stable_alter. Qed.

Lemma stable_update_in_nodes self f st :
  stable st (update_in_nodes self f st).
Proof.
  unfold update_in_nodes.
  destruct (heap_nodes st !! self) as [m|]; [|apply stable_refl].
  split; [|done]. intros a n Hn. by exists n.
Qed.

Lemma stable_with_nodes l st : stable st (with_nodes l st).
Proof. split; [|done]. intros a n Hn. by exists n. Qed.

Lemma stable_new_object n st :
  stable st (with_heap_nodes (heap_nodes st ++ [n]) st).
Proof.
  split; [|done]. intros a m Hm. exists m. split; [|done]. simpl.
  by apply lookup_app_l_Some.
Qed.

Lemma keeps_objects_ret {A} (a : A) : keeps_objects (ret a).
Proof. intros st b st' [= _ <-]. apply stable_refl. Qed.

Lemma keeps_objects_get : keeps_objects get.
Proof. intros st b st' [= _ <-]. apply stable_refl. Qed.

Lemma keeps_objects_raise {A} e : keeps_objects (@raise A e).
Proof. by intros st b st'. Qed.

Lemma keeps_objects_stuck {A} : keeps_objects (@stuck A).
Proof. by intros st b st'. Qed.

Lemma keeps_objects_lift {A} (r : result A) : keeps_objects (lift r).
Proof.
  intros st b st'. unfold lift. destruct r; [|done..].
  intros [= _ <-]. apply stable_refl.
Qed.

Lemma keeps_objects_modify f :
  (∀ st, stable st (f st)) → keeps_objects (modify f).
Proof. intros Hf st b st' [= _ <-]. apply Hf. Qed.

Lemma keeps_objects_bind {A B} (m : M A) (k : A → M B) :
  keeps_objects m → (∀ a, keeps_objects (k a)) → keeps_objects (bind m k).
Proof.
  intros Hm Hk st b st' Hrun.
  apply bind_inv_Ok in Hrun as (a & st1 & H1 & H2).
  eapply stable_trans; [by eapply Hm|by eapply Hk].
Qed.

Lemma keeps_objects_for_each {A} (l : list A) (body : A → M unit) :
  (∀ x, keeps_objects (body x)) → keeps_objects (for_each l body).
Proof.
  intros Hbody. induction l as [|x l IH]; simpl.
  - apply keeps_objects_ret.
  - apply keeps_objects_bind; [apply Hbody|]. by intros _.
Qed.

Lemma keeps_objects_add_out_node self x : keeps_objects (add_out_node self x).
Proof.
  unfold add_out_node. apply keeps_objects_bind.
  - destruct x; try apply keeps_objects_ret.
    apply keeps_objects_modify, stable_update_out_nodes.
  - intros _. destruct x; try apply keeps_objects_ret.
    apply keeps_objects_modify, stable_update_out_nodes.
Qed.

Lemma keeps_objects_add_in_node self x : keeps_objects (add_in_node self x).
Proof.
  unfold add_in_node. apply keeps_objects_bind.
  - destruct x; try apply keeps_objects_ret.
    apply keeps_objects_modify, stable_update_in_nodes.
  - intros _. destruct x; try apply keeps_objects_ret.
    apply keeps_objects_modify, stable_update_in_nodes.
Qed.

Lemma keeps_objects_append_node a : keeps_objects (append_node a).
Proof. apply keeps_objects_modify. intros st. apply stable_with_nodes. Qed.

Lemma keeps_objects_getitem_nodes i : keeps_objects (getitem_nodes i).
Proof.
  unfold getitem_nodes. apply keeps_objects_bind; [apply keeps_objects_get|].
  intros st. destruct (nodes st !! i);
    [apply keeps_objects_ret|apply keeps_objects_raise].
Qed.

Lemma keeps_objects_new_object n : keeps_objects (new_object n).
Proof. intros st a st' [= _ <-]. apply stable_new_object. Qed.

Lemma keeps_objects_copy a : keeps_objects (copy a).
Proof.
  unfold copy. apply keeps_objects_bind; [apply keeps_objects_get|].
  intros st. destruct (heap_nodes st !! a);
    [apply keeps_objects_new_object|apply keeps_objects_stuck].
Qed.

Lemma keeps_objects_add_output_node new_node node_idx i :
  keeps_objects (add_output_node new_node node_idx i).
Proof.
  unfold add_output_node.
  apply keeps_objects_bind; [apply keeps_objects_copy|]. intros out_node.
  apply keeps_objects_bind.
  { apply keeps_objects_modify. intros st. by apply stable_alter. }
  intros _. apply keeps_objects_bind.
  { apply keeps_objects_modify. intros st. by apply stable_alter. }
  intros _. apply keeps_objects_bind; [apply keeps_objects_getitem_nodes|].
  intros previous.
  apply keeps_objects_bind; [apply keeps_objects_add_in_node|]. intros _.
  apply keeps_objects_bind; [apply keeps_objects_getitem_nodes|].
  intros previous'.
  apply keeps_objects_bind; [apply keeps_objects_add_out_node|]. intros _.
  apply keeps_objects_append_node.
Qed.

Lemma keeps_objects_add_output_nodes new_node node_idx slots :
  ∀ i num_extra_nodes,
    keeps_objects (add_output_nodes new_node node_idx i slots num_extra_nodes).
Proof.
  induction slots as [|o slots IH]; intros i k; simpl.
  - apply keeps_objects_ret.
  - destruct (i =? 0); [apply IH|].
    apply keeps_objects_bind; [apply keeps_objects_add_output_node|].
    intros _. apply IH.
Qed.

Lemma lift_inv_Ok {A} (r : result A) st a st' :
  lift r st = Ok (a, st') → r = Ok a ∧ st' = st.
Proof. unfold lift. destruct r; [|done..]. by intros [= -> ->]. Qed.

(** The node that [add_OP_node] makes for output slot 0 sits at the first
    free address and keeps the scope and type it is made with. *)
Lemma add_OP_node_primary idx tn k st k' st' :
  add_OP_node idx tn k st = Ok (k', st') →
  let r := most_specific_scope (profiled_layers st) (scopeName tn) in
  ∃ n,
    heap_nodes st' !! length (heap_nodes st) = Some n ∧
    scope n = (if bool_decide (r ≠ EmptyString) then r
               else raw_op_scope tn idx) ∧
    type n = (if bool_decide (r ≠ EmptyString) then LAYER else OP) ∧
    in_nodes n = length (heap_sets st).
Proof.
  intros Hrun r. unfold add_OP_node in Hrun.
  apply bind_inv_Ok in Hrun as (node_scope & st1 & H1 & Hrun).
  injection H1 as <- <-. rewrite bind_get in Hrun.
  apply bind_inv_Ok in Hrun as (members & st2 & H2 & Hrun).
  apply lift_inv_Ok in H2 as [Hmem ->].
  apply bind_inv_Ok in Hrun as (input_nodes & st3 & H3 & Hrun).
  injection H3 as <- <-.
  apply bind_inv_Ok in Hrun as (first & st4 & H4 & Hrun).
  assert (st4 = with_heap_sets (heap_sets st ++ [members]) st) as ->.
  { destruct (outputs tn); [done|]. by injection H4 as _ <-. }
  clear H4.
  apply bind_inv_Ok in Hrun as (shape & st5 & H5 & Hrun).
  apply lift_inv_Ok in H5 as [_ ->].
  apply bind_inv_Ok in Hrun as (new_node & st6 & H6 & Hrun).
  assert (keeps_objects
    (let! _ :=
       for_each (elements members)
         (λ node, add_out_node node (ANode new_node)) in
     let! _ := append_node new_node in
     add_output_nodes new_node
       (num_inputs_buffs_params st + idx + k) 0 (outputs tn) k)) as Hrest.
  { apply keeps_objects_bind.
    - apply keeps_objects_for_each. intros x. apply keeps_objects_add_out_node.
    - intros _. apply keeps_objects_bind; [apply keeps_objects_append_node|].
      intros _. apply keeps_objects_add_output_nodes. }
  apply Hrest in Hrun as [Hobj _]. fold r in H6.
  destruct (bool_decide (r ≠ EmptyString)); injection H6 as <- <-; simpl in *.
  - edestruct Hobj as (n & Hn & Hs & Ht & Hl);
      [apply list_lookup_middle; reflexivity|].
    exists n. split; [done|]. by rewrite Hs, Ht, Hl.
  - edestruct Hobj as (n & Hn & Hs & Ht & Hl);
      [apply list_lookup_middle; reflexivity|].
    exists n. split; [done|]. by rewrite Hs, Ht, Hl.
Qed.

(** Claim C8, refuted as stated: the two nodes made for the two output
    slots of the raw op [aten::max] are both of type [OP] and carry the same
    scope, so the synthesized scope is not unique among raw-op nodes; and
    two different ops can be given the same scope when a kind ends in
    digits. *)
Lemma C8_raw_op_scope_not_unique :
  (∃ st, Graph_init [] 1 [] max_trace ∅ = Ok st ∧
     nodes st = [0; 1; 2; 3] ∧
     type <$> heap_nodes st !! 1 = Some OP ∧
     type <$> heap_nodes st !! 2 = Some OP ∧
     scope_of st 1 = "Net/aten::max0" ∧ scope_of st 2 = "Net/aten::max0") ∧
  raw_op_scope (mkTraceNode "Net" "aten::log" [0] []) 105 =
  raw_op_scope (mkTraceNode "Net" "aten::log10" [0] []) 5.
Proof. split; [eexists|]; vm_compute; repeat split. Qed.

(** Claim C8, as the code has it: for the trace op at position [idx], the
    resolved scope is the longest declared profiled-layer scope that the
    raw scope name starts with; when one is found the node is a [LAYER] with
    that scope, and when none is found (in particular when no declared scope
    is a prefix) it is an [OP] with scope
    [<raw scope>/<op kind><sequence-number>], which differs from the scope
    synthesized for any other position with the same raw scope and kind. *)
Theorem C8_encasing_scope_resolution (st : State) (idx : nat)
    (tn : TraceNode) (k k' : nat) (st' : State) :
  add_OP_node idx tn k st = Ok (k', st') →
  let r := most_specific_scope (profiled_layers st) (scopeName tn) in
  (r ≠ EmptyString →
     r ∈ profiled_layers st ∧ ∃ rest, scopeName tn = r +:+ rest) ∧
  (∀ l, l ∈ profiled_layers st → (∃ rest, scopeName tn = l +:+ rest) →
     String.length l ≤ String.length r) ∧
  (∃ n, heap_nodes st' !! length (heap_nodes st) = Some n ∧
     (r ≠ EmptyString → type n = LAYER ∧ scope n = r) ∧
     (r = EmptyString → type n = OP ∧ scope n = raw_op_scope tn idx) ∧
     ((∀ l, l ∈ profiled_layers st → ¬ ∃ rest, scopeName tn = l +:+ rest) →
        type n = OP ∧ scope n = raw_op_scope tn idx)) ∧
  (∀ tn2 idx2, scopeName tn2 = scopeName tn → kind tn2 = kind tn →
     idx2 ≠ idx → raw_op_scope tn2 idx2 ≠ raw_op_scope tn idx).
Proof.
  intros Hrun r.
  destruct (most_specific_scope_longest (profiled_layers st) (scopeName tn))
    as [Hfound Hlongest]. fold r in Hfound, Hlongest.
  split; [exact Hfound|]. split; [exact Hlongest|]. split.
  - destruct (add_OP_node_primary _ _ _ _ _ _ Hrun) as (n & Hn & Hs & Ht & _).
    fold r in Hs, Ht. exists n. split; [done|].
    assert (r = EmptyString → type n = OP ∧ scope n = raw_op_scope tn idx)
      as Hraw.
    { intros Hr. rewrite bool_decide_eq_false_2 in Hs, Ht by by intros ?.
      done. }
    split; [|split; [exact Hraw|]].
    + intros Hr. by rewrite bool_decide_eq_true_2 in Hs, Ht by done.
    + intros Hnone. apply Hraw. destruct (decide (r = EmptyString)); [done|].
      destruct Hfound as [Hin Hpre]; [done|]. by destruct (Hnone r Hin).
  - intros tn2 idx2 Hs Hk Hne. by apply raw_op_scope_separates.
Qed.

Lemma C8_encasing_scope_resolution_witness :
  ∃ k' st' n,
    add_OP_node 3 relu_in_fc1 0 constant_between = Ok (k', st') ∧
    heap_nodes st' !! 3 = Some n ∧ type n = LAYER ∧
    scope n = "Net/Linear[fc1]".
Proof.
  assert (∃ k' st', add_OP_node 3 relu_in_fc1 0 constant_between
                    = Ok (k', st')) as (k' & st' & Hrun).
  { eexists _, _. vm_compute. reflexivity. }
  destruct (C8_encasing_scope_resolution _ _ _ _ _ _ Hrun)
    as (_ & _ & (n & Hn & Hlayer & _) & _).
  exists k', st', n. split; [exact Hrun|]. split; [exact Hn|].
  apply Hlayer. vm_compute. discriminate.
Defined.

(** ** C3: exceptions of the construction *)

Lemma Node_init_fresh sc i t sh w p st :
  Node_init sc i t sh None w p st =
  Ok (length (heap_nodes st),
      with_heap_nodes
        (heap_nodes st ++ [mkNode sc i t ∅ w p [sh] (length (heap_sets st))])
        (with_heap_sets (heap_sets st ++ [∅]) st)).
Proof. done. Qed.

(** The loop of [_add_IO_nodes] stops with [TypeError] at the first input
    without sizes, when the names do not run out before. *)
Lemma _add_IO_nodes_from_missing_sizes (pre : list TraceInput) :
  ∀ idx st node post,
    Forall (λ x, is_Some (sizes x)) pre →
    idx + length pre ≤ num_inputs st + length (buffer_param_names st) →
    sizes node = None →
    _add_IO_nodes_from idx (pre ++ node :: post) st = Raise TypeError.
Proof.
  induction pre as [|x pre IH]; intros idx st node post Hpre Hlen Hnone.
  - simpl. rewrite Hnone. done.
  - apply Forall_cons in Hpre as [[dims Hdims] Hpre]. simpl in *.
    rewrite Hdims, bind_ret, bind_get.
    assert (∃ tagged,
      (if idx <? num_inputs st then ret (IN, "input" +:+ str idx)
       else match buffer_param_names st !! (idx - num_inputs st) with
            | Some name => ret (BUFF_PARAM, name)
            | None => raise IndexError
            end) = ret tagged) as [tagged ->].
    { destruct (Nat.ltb_spec idx (num_inputs st)); [by eexists|].
      destruct (lookup_lt_is_Some_2 (buffer_param_names st)
                  (idx - num_inputs st)) as [name ->]; [lia|]. by eexists. }
    rewrite bind_ret, (bind_Ok _ _ _ _ _ (Node_init_fresh _ _ _ _ _ _ _)).
    unfold append_node. rewrite !bind_modify.
    apply IH; [done|simpl; lia|done].
Qed.

(** The set comprehension of lines 160-161 raises [IndexError] as soon as
    one index names no node. *)
Lemma input_node_set_dangling (l : list addr) (ids : list nat) (i : nat) :
  i ∈ ids → length l ≤ i → input_node_set l ids = Raise IndexError.
Proof.
  intros Hi Hlen. induction ids as [|j ids IH]; [by apply elem_of_nil in Hi|].
  simpl. destruct (l !! j) as [a|] eqn:Hj; [|done].
  apply elem_of_cons in Hi as [->|Hi].
  - apply lookup_lt_Some in Hj. lia.
  - by rewrite IH.
Qed.

Lemma add_OP_node_dangling idx tn k st i :
  i ∈ inputs tn → length (nodes st) ≤ i →
  add_OP_node idx tn k st = Raise IndexError.
Proof.
  intros Hi Hlen. unfold add_OP_node, _find_encasing_layer.
  unfold bind at 1 2. simpl. rewrite bind_get. unfold bind at 1.
  by rewrite (input_node_set_dangling _ _ _ Hi Hlen).
Qed.

Lemma _add_OP_nodes_from_app (pre post : list TraceNode) :
  ∀ idx k st,
    _add_OP_nodes_from idx (pre ++ post) k st =
    (let! k' := _add_OP_nodes_from idx pre k in
     _add_OP_nodes_from (idx + length pre) post k') st.
Proof.
  induction pre as [|op pre IH]; intros idx k st; simpl.
  - by rewrite bind_ret, Nat.add_0_r.
  - unfold bind. destruct (add_OP_node idx op k st) as [[k1 st1]|e|];
      [|done..].
    rewrite IH. unfold bind. by rewrite Nat.add_succ_r.
Qed.

Lemma Graph_init_Raise L n names tg weights e :
  _build_graph tg (initial L n names) = Raise e →
  Graph_init L n names tg weights = Raise e.
Proof. intros Hb. unfold Graph_init, bind. by rewrite Hb. Qed.

(** Claim C3, refuted as stated: construction does fail on an input without
    sizes and on an op that reads an index no node was made for, but with
    the built-in [TypeError] and [IndexError]; no run ends with an exception
    named [ShapeResolutionError] or [DanglingReferenceError]. *)
Lemma C3_errors_are_builtin_exceptions :
  Graph_init [] 1 ["Net/Parameter[w]"] shapeless_trace ∅ = Raise TypeError ∧
  Graph_init [] 1 [] dangling_trace ∅ = Raise IndexError ∧
  ¬ (∃ e, Graph_init [] 1 ["Net/Parameter[w]"] shapeless_trace ∅ = Raise e ∧
          exn_name e = "ShapeResolutionError") ∧
  ¬ (∃ e, Graph_init [] 1 [] dangling_trace ∅ = Raise e ∧
          exn_name e = "DanglingReferenceError").
Proof.
  assert (Graph_init [] 1 ["Net/Parameter[w]"] shapeless_trace ∅
          = Raise TypeError) as H1 by (vm_compute; reflexivity).
  assert (Graph_init [] 1 [] dangling_trace ∅ = Raise IndexError) as H2
    by (vm_compute; reflexivity).
  split; [done|]. split; [done|]. split.
  - intros (e & He & Hname). rewrite H1 in He. by injection He as <-.
  - intros (e & He & Hname). rewrite H2 in He. by injection He as <-.
Qed.

(** Claim C3, as the code has it: graph construction fails with
    [TypeError] at the first trace input whose sizes are missing, and with
    [IndexError] at the first op that reads a producer index for which no
    node has been created; nothing catches an exception, so whatever
    [_build_graph] raises is what the caller of the constructor gets. *)
Theorem C3_construction_errors_propagate (L : list string) (n : nat)
    (names : list string) (tg : TraceGraph) (weights : gmap string Weight) :
  (∀ pre node post,
     trace_inputs tg = pre ++ node :: post →
     Forall (λ x, is_Some (sizes x)) pre →
     length pre ≤ n + length names →
     sizes node = None →
     Graph_init L n names tg weights = Raise TypeError) ∧
  (∀ pre op post i k st,
     trace_nodes tg = pre ++ op :: post →
     (let! _ := _add_IO_nodes (trace_inputs tg) in
      _add_OP_nodes_from 0 pre 0) (initial L n names) = Ok (k, st) →
     i ∈ inputs op → length (nodes st) ≤ i →
     Graph_init L n names tg weights = Raise IndexError) ∧
  (∀ e, _build_graph tg (initial L n names) = Raise e →
     Graph_init L n names tg weights = Raise e).
Proof.
  split; [|split].
  - intros pre node post Hins Hpre Hlen Hnone.
    apply Graph_init_Raise. unfold _build_graph. apply bind_Raise.
    unfold _add_IO_nodes. rewrite Hins.
    by apply _add_IO_nodes_from_missing_sizes.
  - intros pre op post i k st Hops Hrun Hi Hlen.
    apply Graph_init_Raise. unfold _build_graph.
    apply bind_inv_Ok in Hrun as (u & st1 & HIO & Hpre).
    rewrite (bind_Ok _ _ _ _ _ HIO). apply bind_Raise.
    unfold _add_OP_nodes. apply bind_Raise.
    rewrite Hops, _add_OP_nodes_from_app, (bind_Ok _ _ _ _ _ Hpre).
    simpl. apply bind_Raise. by eapply add_OP_node_dangling.
  - apply Graph_init_Raise.
Qed.

Lemma C3_construction_errors_propagate_witness :
  Graph_init [] 1 ["Net/Parameter[w]"] shapeless_trace ∅ = Raise TypeError ∧
  Graph_init [] 1 [] dangling_trace ∅ = Raise IndexError.
Proof.
  split.
  - destruct (C3_construction_errors_propagate [] 1 ["Net/Parameter[w]"]
                shapeless_trace ∅) as (Hshape & _ & _).
    apply (Hshape [mkTraceInput (Some [4; 8]%Z)] (mkTraceInput None) []).
    + reflexivity.
    + repeat constructor. by eexists.
    + simpl. lia.
    + reflexivity.
  - destruct (C3_construction_errors_propagate [] 1 [] dangling_trace ∅)
      as (_ & Hdangling & _).
    assert (∃ k st,
      (let! _ := _add_IO_nodes (trace_inputs dangling_trace) in
       _add_OP_nodes_from 0 [] 0) (initial [] 1 []) = Ok (k, st) ∧
      length (nodes st) = 1) as (k & st & Hrun & Hlen).
    { eexists _, _. vm_compute. split; reflexivity. }
    apply (Hdangling []
             (mkTraceNode "Net" "aten::relu" [5] [mkTraceOutput (Some "4, 8")])
             [] 5 k st); [reflexivity|exact Hrun| |lia].
    simpl. apply list_elem_of_here.
Defined.

(** ** C1: the nodes of a multi-output op *)

Lemma alter_app_last {A} (f : A → A) (h : list A) (x : A) :
  alter f (length h) (h ++ [x]) = h ++ [f x].
Proof.
  replace (length h) with (length h + 0) by lia. by rewrite alter_app_r.
Qed.

Lemma nodes_update_in_nodes self f st :
  nodes (update_in_nodes self f st) = nodes st.
Proof. unfold update_in_nodes. by destruct (heap_nodes st !! self). Qed.

Lemma heap_nodes_update_in_nodes self f st :
  heap_nodes (update_in_nodes self f st) = heap_nodes st.
Proof. unfold update_in_nodes. by destruct (heap_nodes st !! self). Qed.

(** What lines 196-204 do to the store, for a [new_node] that is an object
    and a list that is long enough. *)
Lemma add_output_node_run new_node node_idx i st n previous :
  heap_nodes st !! new_node = Some n →
  nodes st !! (node_idx + i - 1) = Some previous →
  add_output_node new_node node_idx i st =
  Ok (tt,
      let out_node := length (heap_nodes st) in
      with_nodes (nodes st ++ [out_node])
        (update_out_nodes previous (λ s, s ∪ {[out_node]})
           (update_in_nodes out_node (λ s, s ∪ {[previous]})
              (with_heap_nodes
                 (heap_nodes st
                    ++ [with_idx (idx n + i) (with_out_nodes ∅ n)]) st)))).
Proof.
  intros Hn Hp.
  unfold add_output_node, copy, getitem_nodes, add_in_node, add_out_node,
    append_node, new_object, bind, get, ret, modify. simpl.
  rewrite Hn. simpl. rewrite !alter_app_last. rewrite Hp. simpl.
  rewrite !with_heap_nodes_twice, nodes_update_in_nodes. simpl.
  rewrite Hp. by rewrite nodes_update_in_nodes.
Qed.

Lemma with_idx_with_out_nodes_copy proto j i X :
  with_idx (idx (with_idx (idx proto + j) (with_out_nodes X proto)) + i)
    (with_out_nodes ∅ (with_idx (idx proto + j) (with_out_nodes X proto)))
  = with_idx (idx proto + j + i) (with_out_nodes ∅ proto).
Proof. by destruct proto. Qed.

(** One more slot: the copy is made from the node of slot 0 and linked to
    the node of the slot before. *)
Lemma add_output_node_built nodes0 p proto i st :
  0 < i → length nodes0 = idx proto →
  slots_built nodes0 p proto i st →
  ∃ st', add_output_node p (idx proto) i st = Ok (tt, st') ∧
         slots_built nodes0 p proto (S i) st'.
Proof.
  intros Hi Hlen (Hnodes & Hheap & Hobjs & s & Hs & Hmem).
  assert (heap_nodes st !! p =
    Some (with_idx (idx proto + 0)
            (with_out_nodes (if 0 + 1 <? i then {[p + 0 + 1]} else ∅) proto)))
    as Hprimary.
  { rewrite <- (Hobjs 0 Hi). f_equal. lia. }
  assert (nodes st !! (idx proto + i - 1) = Some (p + (i - 1))) as Hprev.
  { rewrite Hnodes, lookup_app_r by lia.
    apply lookup_seq. split; [f_equal; lia|lia]. }
  eexists. split; [by apply (add_output_node_run _ _ _ _ _ _ Hprimary Hprev)|].
  rewrite with_idx_with_out_nodes_copy, Nat.add_0_r, Hheap.
  set (fresh := with_idx (idx proto + i) (with_out_nodes ∅ proto)).
  assert ((heap_nodes st ++ [fresh]) !! (p + i) = Some fresh) as Hfresh.
  { rewrite <- Hheap. apply list_lookup_middle. done. }
  unfold update_in_nodes at 1. simpl. rewrite Hfresh. simpl.
  split; [|split; [|split]]; simpl.
  - change (p :: seq (S p) i) with (seq p (S i)).
    by rewrite seq_S, app_assoc, Hnodes.
  - rewrite length_alter, length_app, Hheap. simpl. lia.
  - intros j Hj. destruct (decide (j = i)) as [->|Hji].
    + rewrite list_lookup_alter_ne by lia. rewrite Hfresh. unfold fresh.
      by rewrite (proj2 (Nat.ltb_ge _ _)) by lia.
    + destruct (decide (j = i - 1)) as [->|Hjp].
      * rewrite list_lookup_alter_eq, lookup_app_l by lia.
        rewrite Hobjs by lia. simpl.
        rewrite (proj2 (Nat.ltb_ge _ _)) by lia.
        rewrite (proj2 (Nat.ltb_lt _ _)) by lia.
        destruct proto; simpl. unfold with_idx, with_out_nodes. simpl.
        do 2 f_equal. rewrite (left_id_L ∅ (∪)). f_equal. lia.
      * rewrite list_lookup_alter_ne by lia. rewrite lookup_app_l by lia.
        rewrite Hobjs by lia.
        rewrite (proj2 (Nat.ltb_lt _ _)) by lia.
        by rewrite (proj2 (Nat.ltb_lt (j + 1) (S i))) by lia.
  - exists (s ∪ {[p + (i - 1)]}). split.
    + by rewrite list_lookup_alter_eq, Hs.
    + intros j Hj. destruct (decide (j + 1 = i)) as [<-|Hne].
      * apply elem_of_union_r, elem_of_singleton. f_equal. lia.
      * apply elem_of_union_l, Hmem. lia.
Qed.

(** The loop over the remaining slots cannot fail and makes one node per
    slot. *)
Lemma add_output_nodes_built nodes0 p proto slots :
  ∀ i k st,
    0 < i → length nodes0 = idx proto →
    slots_built nodes0 p proto i st →
    ∃ st', add_output_nodes p (idx proto) i slots k st
           = Ok (k + length slots, st') ∧
           slots_built nodes0 p proto (i + length slots) st'.
Proof.
  induction slots as [|o slots IH]; intros i k st Hi Hlen Hbuilt; simpl.
  - exists st. rewrite !Nat.add_0_r. done.
  - rewrite (proj2 (Nat.eqb_neq i 0)) by lia.
    destruct (add_output_node_built _ _ _ _ _ Hi Hlen Hbuilt)
      as (st1 & Hrun & Hbuilt1).
    rewrite (bind_Ok _ _ _ _ _ Hrun).
    destruct (IH (S i) (k + 1) st1) as (st' & Hrun' & Hbuilt');
      [lia|done|done|].
    exists st'. rewrite Hrun'. split; [f_equal; f_equal; lia|].
    by rewrite Nat.add_succ_r.
Qed.

Lemma input_node_set_members (l : list addr) (ids : list nat) s :
  input_node_set l ids = Ok s → ∀ a, a ∈ s → a ∈ l.
Proof.
  revert s. induction ids as [|i ids IH]; intros s; simpl.
  - intros [= <-] a Ha. by apply not_elem_of_empty in Ha.
  - destruct (l !! i) as [b|] eqn:Hb; [|done].
    destruct (input_node_set l ids) as [s'| |]; [|done..].
    intros [= <-] a Ha. apply elem_of_union in Ha as [Ha|Ha].
    + apply elem_of_singleton in Ha as ->. by eapply list_elem_of_lookup_2.
    + by apply (IH s').
Qed.

(** Lines 188-189: every input node gets the new node as out-neighbour, and
    nothing else changes. *)
Lemma wire_inputs_run (l : list addr) (new_node : addr) :
  ∀ st,
    ∃ h,
      for_each l (λ node, add_out_node node (ANode new_node)) st
      = Ok (tt, with_heap_nodes h st) ∧
      length h = length (heap_nodes st) ∧
      (∀ a, a ∉ l → h !! a = heap_nodes st !! a) ∧
      (∀ a, a ∈ l →
         h !! a =
         (λ n, with_out_nodes (out_nodes n ∪ {[new_node]}) n)
           <$> heap_nodes st !! a).
Proof.
  induction l as [|b l IH]; intros st.
  - exists (heap_nodes st). rewrite with_heap_nodes_id.
    split; [done|]. split; [done|]. split; [done|].
    intros a Ha. by apply elem_of_nil in Ha.
  - simpl.
    assert (add_out_node b (ANode new_node) st
            = Ok (tt, update_out_nodes b (λ s, s ∪ {[new_node]}) st)) as Hb
      by done.
    rewrite (bind_Ok _ _ _ _ _ Hb).
    destruct (IH (update_out_nodes b (λ s, s ∪ {[new_node]}) st))
      as (h & Hrun & Hlen & Hout & Hin).
    exists h. rewrite Hrun. split; [done|]. simpl in *.
    rewrite length_alter in Hlen. split; [done|].
    assert (h !! b = (λ n, with_out_nodes (out_nodes n ∪ {[new_node]}) n)
                       <$> heap_nodes st !! b) as Hhb.
    { destruct (decide (b ∈ l)) as [Hbl|Hbl].
      - rewrite (Hin b Hbl), list_lookup_alter_eq.
        destruct (heap_nodes st !! b) as [n|]; [|done]. simpl. f_equal.
        unfold with_out_nodes. simpl. f_equal.
        by rewrite <- (assoc_L (∪)), (idemp_L (∪)).
      - by rewrite (Hout b Hbl), list_lookup_alter_eq. }
    split.
    + intros a Ha. apply not_elem_of_cons in Ha as [Hne Ha].
      by rewrite (Hout a Ha), list_lookup_alter_ne.
    + intros a Ha. destruct (decide (a = b)) as [->|Hne]; [done|].
      apply elem_of_cons in Ha as [?|Ha]; [done|].
      by rewrite (Hin a Ha), list_lookup_alter_ne.
Qed.

(** After the body of the loop of [_add_OP_nodes] the nodes of all output
    slots of the op are in place. *)
Lemma add_OP_node_built pos tn k st k' st' :
  add_OP_node pos tn k st = Ok (k', st') →
  length (nodes st) = num_inputs_buffs_params st + pos + k →
  (∀ a, a ∈ nodes st → a < length (heap_nodes st)) →
  ∃ proto,
    idx proto = length (nodes st) ∧ out_nodes proto = ∅ ∧
    in_nodes proto = length (heap_sets st) ∧
    0 < length (outputs tn) ∧
    k' = k + (length (outputs tn) - 1) ∧
    slots_built (nodes st) (length (heap_nodes st)) proto
      (length (outputs tn)) st'.
Proof.
  intros Hrun Hcount Halloc. unfold add_OP_node in Hrun.
  apply bind_inv_Ok in Hrun as (node_scope & st1 & H1 & Hrun).
  injection H1 as <- <-. rewrite bind_get in Hrun.
  apply bind_inv_Ok in Hrun as (members & st2 & H2 & Hrun).
  apply lift_inv_Ok in H2 as [Hmem ->].
  apply bind_inv_Ok in Hrun as (input_nodes & st3 & H3 & Hrun).
  injection H3 as <- <-.
  apply bind_inv_Ok in Hrun as (first & st4 & H4 & Hrun).
  destruct (outputs tn) as [|o rest] eqn:Hout; [done|].
  injection H4 as <- <-.
  apply bind_inv_Ok in Hrun as (shape & st5 & H5 & Hrun).
  apply lift_inv_Ok in H5 as [_ ->].
  apply bind_inv_Ok in Hrun as (new_node & st6 & H6 & Hrun).
  set (r := most_specific_scope (profiled_layers st) (scopeName tn)) in *.
  set (proto :=
    mkNode (if bool_decide (r ≠ EmptyString) then r else raw_op_scope tn pos)
      (num_inputs_buffs_params st + pos + k)
      (if bool_decide (r ≠ EmptyString) then LAYER else OP)
      ∅ (WInt 0) 10 [shape] (length (heap_sets st))).
  assert (new_node = length (heap_nodes st) ∧
          st6 = with_heap_nodes (heap_nodes st ++ [proto])
                  (with_heap_sets (heap_sets st ++ [members]) st))
    as [-> ->].
  { unfold proto. by destruct (bool_decide (r ≠ EmptyString));
      injection H6 as <- <-. }
  clear H6.
  destruct (wire_inputs_run (elements members) (length (heap_nodes st))
    (with_heap_nodes (heap_nodes st ++ [proto])
       (with_heap_sets (heap_sets st ++ [members]) st)))
    as (h & Hwire & Hlen & Hsame & _).
  rewrite (bind_Ok _ _ _ _ _ Hwire) in Hrun.
  unfold append_node in Hrun. rewrite bind_modify in Hrun. simpl in *.
  exists proto. split; [by rewrite Hcount|]. split; [done|]. split; [done|].
  split; [lia|].
  set (st1 := with_nodes (nodes st ++ [length (heap_nodes st)])
                (with_heap_nodes h
                   (with_heap_nodes (heap_nodes st ++ [proto])
                      (with_heap_sets (heap_sets st ++ [members]) st)))) in *.
  assert (slots_built (nodes st) (length (heap_nodes st)) proto 1 st1)
    as Hbuilt1.
  { split; [done|]. simpl. split.
    { rewrite Hlen, length_app. simpl. lia. }
    split.
    - intros j Hj. assert (j = 0) as -> by lia. rewrite Nat.add_0_r.
      rewrite Hsame.
      + rewrite list_lookup_middle by done. f_equal.
        unfold proto, with_idx, with_out_nodes. simpl. f_equal. lia.
      + intros Hin. apply elem_of_elements in Hin.
        apply (input_node_set_members _ _ _ Hmem) in Hin.
        apply Halloc in Hin. lia.
    - exists members. split; [by apply list_lookup_middle|].
      intros j Hj. lia. }
  destruct (add_output_nodes_built (nodes st) (length (heap_nodes st))
              proto rest 1 k st1) as (st'' & Hloop & Hbuilt);
    [lia|by rewrite Hcount|done|].
  simpl in Hloop. rewrite Hrun in Hloop. injection Hloop as -> ->.
  split; [lia|]. exact Hbuilt.
Qed.

(** Claim C1, refuted as stated: for the three-slot op of [split_trace]
    (input at address 0, primary node at 1, secondary nodes at 2 and 3) the
    secondary node of slot 2 has three in-edges, not one; the primary node
    has a forward edge to the first secondary node only; and already for the
    two-slot op of [max_trace] the secondary node at address 2 has two
    in-edges, the input and the primary node. *)
Lemma C1_secondary_in_edges_not_single :
  (∃ st,
     (let! _ := _add_IO_nodes (trace_inputs split_trace) in
      _add_OP_nodes (trace_nodes split_trace)) (initial [] 1 [])
     = Ok (tt, st) ∧
     nodes st = [0; 1; 2; 3] ∧
     in_of st 3 = {[0; 1; 2]} ∧ size (in_of st 3) = 3 ∧
     out_of st 1 = {[2]} ∧ (3 ∉ out_of st 1) ∧ out_of st 2 = {[3]}) ∧
  (∃ st,
     (let! _ := _add_IO_nodes (trace_inputs max_trace) in
      add_OP_node 0 (mkTraceNode "Net" "aten::max" [0]
                       [mkTraceOutput (Some "4"); mkTraceOutput None]) 0)
       (initial [] 1 [])
     = Ok (1, st) ∧
     nodes st = [0; 1; 2] ∧ in_of st 2 = {[0; 1]} ∧ size (in_of st 2) = 2).
Proof.
  split; eexists; (split; [vm_compute; reflexivity|]).
  - repeat split; try (vm_compute; reflexivity).
    by_computing.
  - repeat split; vm_compute; reflexivity.
Qed.

(** Claim C1, as the code has it: for a trace op with [k] output slots,
    processed in a state where [node_idx] is the length of the node list,
    the loop body appends the primary node and exactly [k-1] secondary
    nodes. The secondary node of slot [i] is a copy of the primary (same
    scope, type and shape) with index [primary index + i]; its out-edge set
    is empty when it is made, so that at the end it holds nothing but the
    node of slot [i+1], which the next round of the loop puts there; and it
    is linked to the node of slot [i-1] (the primary for slot 1): that node
    has a forward edge to it and is in its in-edge set. *)
Theorem C1_multi_output_slots (st : State) (pos : nat) (tn : TraceNode)
    (num_extra_nodes k' : nat) (st' : State) :
  add_OP_node pos tn num_extra_nodes st = Ok (k', st') →
  length (nodes st) = num_inputs_buffs_params st + pos + num_extra_nodes →
  (∀ a, a ∈ nodes st → a < length (heap_nodes st)) →
  let k := length (outputs tn) in
  let p := length (heap_nodes st) in
  0 < k ∧
  nodes st' = nodes st ++ seq p k ∧
  length (heap_nodes st') = p + k ∧
  k' = num_extra_nodes + (k - 1) ∧
  ∃ primary,
    heap_nodes st' !! p = Some primary ∧ idx primary = length (nodes st) ∧
    ∀ i, 1 ≤ i → i < k →
      ∃ secondary,
        heap_nodes st' !! (p + i) = Some secondary ∧
        idx secondary = idx primary + i ∧
        scope secondary = scope primary ∧ type secondary = type primary ∧
        output_shape secondary = output_shape primary ∧
        out_nodes secondary = (if i + 1 <? k then {[p + i + 1]} else ∅) ∧
        p + i ∈ out_of st' (p + i - 1) ∧
        p + i - 1 ∈ in_of st' (p + i).
Proof.
  intros Hrun Hcount Halloc k p.
  destruct (add_OP_node_built _ _ _ _ _ _ Hrun Hcount Halloc)
    as (proto & Hidx & Hout & Hloc & Hk & -> & Hnodes & Hheap & Hobjs
        & s & Hs & Hmem).
  fold k in Hk, Hnodes, Hheap, Hobjs, Hmem |- *. fold p in Hnodes, Hheap, Hobjs, Hmem.
  split; [done|]. split; [done|]. split; [done|]. split; [done|].
  pose proof (Hobjs 0 Hk) as Hprimary. rewrite Nat.add_0_r in Hprimary.
  eexists. split; [exact Hprimary|]. split; [simpl; lia|].
  intros i Hi1 Hik. eexists. split; [by apply Hobjs|]. simpl.
  split; [lia|]. split; [by destruct proto|]. split; [by destruct proto|].
  split; [by destruct proto|]. split; [by destruct proto|]. split.
  - unfold out_of. replace (p + i - 1) with (p + (i - 1)) by lia.
    rewrite Hobjs by lia. simpl.
    rewrite (proj2 (Nat.ltb_lt (i - 1 + 1) k)) by lia.
    apply elem_of_singleton. lia.
  - unfold in_of. rewrite Hobjs by lia. simpl.
    replace (in_nodes (with_idx (idx proto + i)
               (with_out_nodes (if i + 1 <? k then {[p + i + 1]} else ∅)
                  proto))) with (in_nodes proto) by by destruct proto.
    rewrite Hs. simpl. replace (p + i - 1) with (p + (i - 1)) by lia.
    apply Hmem. lia.
Qed.

Lemma C1_multi_output_slots_witness :
  ∃ k' st',
    add_OP_node 2 split_after_fc1 0 constant_between = Ok (k', st') ∧
    nodes st' = [0; 1; 2; 3; 4; 5] ∧ k' = 2 ∧
    ∃ secondary,
      heap_nodes st' !! 5 = Some secondary ∧ out_nodes secondary = ∅ ∧
      5 ∈ out_of st' 4 ∧ 4 ∈ in_of st' 5.
Proof.
  assert (∃ k' st', add_OP_node 2 split_after_fc1 0 constant_between
                    = Ok (k', st')) as (k' & st' & Hrun).
  { eexists _, _. vm_compute. reflexivity. }
  exists k', st'. split; [exact Hrun|].
  destruct (C1_multi_output_slots _ _ _ _ _ _ Hrun)
    as (_ & Hnodes & _ & Hk' & primary & _ & _ & Hsec).
  - reflexivity.
  - intros a Ha. simpl in *. set_unfold in Ha. lia.
  - split; [exact Hnodes|]. split; [exact Hk'|].
    destruct (Hsec 2) as (secondary & Hs & _ & _ & _ & _ & Hout & Hfw & Hbw);
      [lia|simpl; lia|].
    exists secondary. split; [exact Hs|]. split; [exact Hout|].
    split; [exact Hfw|exact Hbw].
Defined.

(** ** C7: bidirectional consistency *)

(** Claim C7 fails on the code: the graph built from [max_trace], whose
    first op has two output slots, is not bidirectionally consistent. The
    copy made for the second slot shares the set [in_nodes] with the primary
    node at address 1, so adding the primary to the copy's in-edges adds it
    to its own: node 1 has itself as in-neighbour and not as out-neighbour,
    and the copy at address 2 has the input as in-neighbour while the input
    has no out-edge to it. *)
Lemma C7_multi_output_breaks_bidirectional :
  ∃ st,
    Graph_init [] 1 [] max_trace ∅ = Ok st ∧
    nodes st = [0; 1; 2; 3] ∧
    1 ∈ in_of st 1 ∧ (1 ∉ out_of st 1) ∧
    0 ∈ in_of st 2 ∧ (2 ∉ out_of st 0) ∧
    ¬ bidirectional st.
Proof.
  eexists. split; [vm_compute; reflexivity|].
  split; [reflexivity|].
  match goal with
  | |- ?A ∧ ?B ∧ _ =>
      assert A as Hin by by_computing; assert B as Hout by by_computing
  end.
  split; [exact Hin|]. split; [exact Hout|].
  split; [by_computing|]. split; [by_computing|].
  intros Hbi. apply Hout. apply (Hbi 1 1); [by_computing..|exact Hin].
Qed.

(** ** Edge sets under the in-place updates *)

Lemma out_of_update_out_nodes_ne self f st w :
  w ≠ self → out_of (update_out_nodes self f st) w = out_of st w.
Proof.
  intros Hne. unfold out_of, update_out_nodes. simpl.
  by rewrite list_lookup_alter_ne.
Qed.

Lemma out_of_update_out_nodes_eq self f st :
  is_Some (heap_nodes st !! self) →
  out_of (update_out_nodes self f st) self = f (out_of st self).
Proof.
  intros [n Hn]. unfold out_of, update_out_nodes. simpl.
  by rewrite list_lookup_alter_eq, Hn.
Qed.

Lemma in_of_update_out_nodes self f st w :
  in_of (update_out_nodes self f st) w = in_of st w.
Proof.
  unfold in_of, update_out_nodes. simpl.
  destruct (decide (self = w)) as [->|Hne].
  - rewrite list_lookup_alter_eq. by destruct (heap_nodes st !! w).
  - by rewrite list_lookup_alter_ne.
Qed.

Lemma out_of_update_in_nodes self f st w :
  out_of (update_in_nodes self f st) w = out_of st w.
Proof. unfold out_of. by rewrite heap_nodes_update_in_nodes. Qed.

Lemma in_of_update_in_nodes_self self f st :
  is_node st self →
  in_of (update_in_nodes self f st) self = f (in_of st self).
Proof.
  intros (n & Hn & Hl). unfold in_of, update_in_nodes. rewrite Hn. simpl.
  rewrite Hn. simpl. rewrite list_lookup_alter_eq.
  destruct (lookup_lt_is_Some_2 _ _ Hl) as [s ->]. done.
Qed.

Lemma grows_refl keep st : grows keep st st.
Proof. by intros w x Hx. Qed.

Lemma grows_trans keep st1 st2 st3 :
  grows keep st1 st2 → grows keep st2 st3 → grows keep st1 st3.
Proof.
  intros H12 H23 w x Hx. destruct (H12 w x Hx), (H23 w x Hx). split; auto.
Qed.

Lemma grows_update_out_nodes (keep : addr → Prop) self f st :
  (∀ s x, keep x → x ∈ s → x ∈ f s) →
  grows keep st (update_out_nodes self f st).
Proof.
  intros Hf w x Hx. rewrite in_of_update_out_nodes. split; [|done].
  destruct (decide (w = self)) as [->|Hne].
  - destruct (heap_nodes st !! self) as [n|] eqn:Hn.
    + rewrite out_of_update_out_nodes_eq by done. by apply Hf.
    + unfold out_of at 1. rewrite Hn. simpl. set_solver.
  - by rewrite out_of_update_out_nodes_ne.
Qed.

Lemma grows_update_in_nodes (keep : addr → Prop) self f st :
  (∀ s x, keep x → x ∈ s → x ∈ f s) →
  grows keep st (update_in_nodes self f st).
Proof.
  intros Hf w x Hx. rewrite out_of_update_in_nodes. split; [done|].
  unfold in_of, update_in_nodes.
  destruct (heap_nodes st !! self) as [n|]; [|done]. simpl.
  destruct (heap_nodes st !! w) as [m|]; simpl; [|done].
  destruct (decide (in_nodes n = in_nodes m)) as [Heq|Hne].
  - rewrite Heq, list_lookup_alter_eq.
    destruct (heap_sets st !! in_nodes m); simpl; [by apply Hf|done].
  - by rewrite list_lookup_alter_ne.
Qed.

Lemma same_objects_refl st : same_objects st st.
Proof. repeat split. intros a n Hn. by exists n. Qed.

Lemma same_objects_trans st1 st2 st3 :
  same_objects st1 st2 → same_objects st2 st3 → same_objects st1 st3.
Proof.
  intros (S12 & L12 & H12) (S23 & L23 & H23).
  split; [congruence|]. split; [congruence|].
  intros a n Hn. destruct (H12 a n Hn) as (n2 & Hn2 & ? & ? & ?).
  destruct (H23 a n2 Hn2) as (n3 & Hn3 & ? & ? & ?).
  exists n3. repeat split; congruence.
Qed.

Lemma same_objects_update_out_nodes self f st :
  same_objects st (update_out_nodes self f st).
Proof.
  split; [done|]. split; [apply length_alter|].
  intros a n Hn. unfold update_out_nodes. simpl.
  destruct (decide (self = a)) as [->|Hne].
  - rewrite list_lookup_alter_eq, Hn. by eexists.
  - rewrite list_lookup_alter_ne by done. by exists n.
Qed.

Lemma same_objects_update_in_nodes self f st :
  same_objects st (update_in_nodes self f st).
Proof.
  unfold update_in_nodes.
  destruct (heap_nodes st !! self) as [m|]; [|apply same_objects_refl].
  split; [apply length_alter|]. split; [done|].
  intros a n Hn. by exists n.
Qed.


Lemma same_objects_idx_of st st' a :
  same_objects st st' → idx_of st' a = idx_of st a.
Proof.
  intros (_ & Hlen & Hobj). unfold idx_of.
  destruct (heap_nodes st !! a) as [n|] eqn:Hn.
  - destruct (Hobj a n Hn) as (n' & -> & _ & _ & Hi). done.
  - apply lookup_ge_None in Hn. rewrite <- Hlen in Hn.
    apply lookup_ge_None in Hn. by rewrite Hn.
Qed.

Lemma same_objects_is_node st st' a :
  same_objects st st' → is_node st a → is_node st' a.
Proof.
  intros (Hsets & _ & Hobj) (n & Hn & Hl).
  destruct (Hobj a n Hn) as (n' & Hn' & _ & Hin & _).
  exists n'. split; [done|]. by rewrite Hin, Hsets.
Qed.

Lemma same_objects_is_Some st st' a :
  same_objects st st' →
  is_Some (heap_nodes st !! a) → is_Some (heap_nodes st' !! a).
Proof.
  intros (_ & _ & Hobj) [n Hn].
  destruct (Hobj a n Hn) as (n' & Hn' & _). by exists n'.
Qed.

(** A [for] loop whose body cannot fail, followed through an invariant on
    the elements done so far. *)
Lemma for_each_invariant {A} (I : list A → State → Prop)
    (body : A → M unit) (l : list A) :
  (∀ seen x st, I seen st →
     ∃ st', body x st = Ok (tt, st') ∧ I (seen ++ [x]) st') →
  ∀ seen st, I seen st →
    ∃ st', for_each l body st = Ok (tt, st') ∧ I (seen ++ l) st'.
Proof.
  intros Hbody. induction l as [|x l IH]; intros pre st HI; simpl.
  - exists st. by rewrite app_nil_r.
  - destruct (Hbody pre x st HI) as (st1 & Hx & HI1).
    rewrite (bind_Ok _ _ _ _ _ Hx).
    destruct (IH (pre ++ [x]) st1 HI1) as (st' & Hrun & HI').
    exists st'. split; [done|]. by rewrite <- app_assoc in HI'.
Qed.

(** ** C5: removing a node and bridging it *)

Lemma in_of_same_sets st st' w :
  same_objects st st' → heap_sets st' = heap_sets st →
  in_of st' w = in_of st w.
Proof.
  intros (_ & Hlen & Hobj) Hsets. unfold in_of. rewrite Hsets.
  destruct (heap_nodes st !! w) as [n|] eqn:Hn.
  - destruct (Hobj w n Hn) as (n' & -> & _ & Hin & _). simpl.
    by rewrite Hin.
  - apply lookup_ge_None in Hn. rewrite <- Hlen in Hn.
    apply lookup_ge_None in Hn. by rewrite Hn.
Qed.

Lemma out_of_same_nodes st st' w :
  heap_nodes st' = heap_nodes st → out_of st' w = out_of st w.
Proof. unfold out_of. by intros ->. Qed.

Section connect_around.
Variable node : addr.

Let other (x : addr) : Prop := x ≠ node.

(** Lines 245-246, for one in-neighbour. *)
Lemma to_out_nodes_run in_node st :
  (let! _ := remove_out_node in_node (ANode node) in
   let! st := get in
   add_out_node in_node (ASet (out_of st node))) st
  = Ok (tt,
        let st1 := update_out_nodes in_node (λ s, s ∖ {[node]}) st in
        update_out_nodes in_node (λ s, s ∪ out_of st1 node) st1).
Proof. done. Qed.

(** Lines 248-249, for one out-neighbour. *)
Lemma to_in_nodes_run out_node st :
  (let! _ := remove_in_node out_node (ANode node) in
   let! st := get in
   add_in_node out_node (ASet (in_of st node))) st
  = Ok (tt,
        let st1 := update_in_nodes out_node (λ s, s ∖ {[node]}) st in
        update_in_nodes out_node (λ s, s ∪ in_of st1 node) st1).
Proof. done. Qed.

Lemma grows_discard_node_out x st :
  grows other st (update_out_nodes x (λ s, s ∖ {[node]}) st).
Proof. apply grows_update_out_nodes. unfold other. set_solver. Qed.

Lemma grows_discard_node_in x st :
  grows other st (update_in_nodes x (λ s, s ∖ {[node]}) st).
Proof. apply grows_update_in_nodes. unfold other. set_solver. Qed.

(** The first loop, lines 244-246: every in-neighbour that is an object
    gets the out-neighbours of [node]; the in-edge sets are not touched. *)
Lemma to_out_nodes_loop (l : list addr) st0 :
  ∃ st1,
    for_each l (λ in_node,
      let! _ := remove_out_node in_node (ANode node) in
      let! st := get in
      add_out_node in_node (ASet (out_of st node))) st0 = Ok (tt, st1) ∧
    same_objects st0 st1 ∧ heap_sets st1 = heap_sets st0 ∧
    grows other st0 st1 ∧
    ∀ u v, u ∈ l → is_Some (heap_nodes st0 !! u) → v ≠ node →
      v ∈ out_of st0 node → v ∈ out_of st1 u.
Proof.
  edestruct (for_each_invariant
    (λ seen st,
       same_objects st0 st ∧ heap_sets st = heap_sets st0 ∧
       grows other st0 st ∧
       ∀ u v, u ∈ seen → is_Some (heap_nodes st0 !! u) → v ≠ node →
         v ∈ out_of st0 node → v ∈ out_of st u)
    (λ in_node,
      let! _ := remove_out_node in_node (ANode node) in
      let! st := get in
      add_out_node in_node (ASet (out_of st node))) l)
    with (seen := @nil nat) (st := st0) as (st1 & Hrun & Hinv).
  2: { split; [apply same_objects_refl|]. split; [done|].
       split; [apply grows_refl|].
       intros u v Hu. by apply elem_of_nil in Hu. }
  2: { exists st1. by destruct Hinv as (? & ? & ? & ?). }
  intros seen x st (Hsame & Hsets & Hgrow & Hbridge).
    eexists. split; [apply to_out_nodes_run|]. simpl.
    set (st1 := update_out_nodes x (λ s, s ∖ {[node]}) st).
    assert (same_objects st0 st1) as Hsame1.
    { eapply same_objects_trans; [done|].
      apply same_objects_update_out_nodes. }
    assert (grows other st0 st1) as Hgrow1.
    { eapply grows_trans; [done|]. apply grows_discard_node_out. }
    assert (grows other st1
              (update_out_nodes x (λ s, s ∪ out_of st1 node) st1))
      as Hgrow2.
    { apply grows_update_out_nodes. set_solver. }
    split; [|split; [done|split]].
    + eapply same_objects_trans; [done|].
      apply same_objects_update_out_nodes.
    + by eapply grows_trans.
    + intros u v Hu Hualloc Hv Hvout.
      apply elem_of_app in Hu as [Hu|Hu].
      * apply (Hgrow2 u v Hv), (grows_discard_node_out x st u v Hv).
        by apply Hbridge.
      * apply list_elem_of_singleton in Hu as ->.
        rewrite out_of_update_out_nodes_eq
          by by eapply same_objects_is_Some.
        apply elem_of_union_r. by apply (Hgrow1 node v Hv).
Qed.

(** The second loop, lines 247-249: every out-neighbour that is a node
    gets the in-neighbours of [node]; the out-edge sets are not touched. *)
Lemma to_in_nodes_loop (l : list addr) st1 :
  ∃ st2,
    for_each l (λ out_node,
      let! _ := remove_in_node out_node (ANode node) in
      let! st := get in
      add_in_node out_node (ASet (in_of st node))) st1 = Ok (tt, st2) ∧
    same_objects st1 st2 ∧ heap_nodes st2 = heap_nodes st1 ∧
    grows other st1 st2 ∧
    ∀ u v, v ∈ l → is_node st1 v → u ≠ node →
      u ∈ in_of st1 node → u ∈ in_of st2 v.
Proof.
  edestruct (for_each_invariant
    (λ seen st,
       same_objects st1 st ∧ heap_nodes st = heap_nodes st1 ∧
       grows other st1 st ∧
       ∀ u v, v ∈ seen → is_node st1 v → u ≠ node →
         u ∈ in_of st1 node → u ∈ in_of st v)
    (λ out_node,
      let! _ := remove_in_node out_node (ANode node) in
      let! st := get in
      add_in_node out_node (ASet (in_of st node))) l)
    with (seen := @nil nat) (st := st1) as (st2 & Hrun & Hinv).
  2: { split; [apply same_objects_refl|]. split; [done|].
       split; [apply grows_refl|].
       intros u v Hv. by apply elem_of_nil in Hv. }
  2: { exists st2. by destruct Hinv as (? & ? & ? & ?). }
  intros seen x st (Hsame & Hnodes & Hgrow & Hbridge).
    eexists. split; [apply to_in_nodes_run|]. simpl.
    set (sta := update_in_nodes x (λ s, s ∖ {[node]}) st).
    assert (same_objects st1 sta) as Hsamea.
    { eapply same_objects_trans; [done|].
      apply same_objects_update_in_nodes. }
    assert (grows other st1 sta) as Hgrowa.
    { eapply grows_trans; [done|]. apply grows_discard_node_in. }
    assert (grows other sta
              (update_in_nodes x (λ s, s ∪ in_of sta node) sta))
      as Hgrowb.
    { apply grows_update_in_nodes. set_solver. }
    split; [|split; [|split]].
    + eapply same_objects_trans; [done|].
      apply same_objects_update_in_nodes.
    + rewrite heap_nodes_update_in_nodes. unfold sta.
      by rewrite heap_nodes_update_in_nodes.
    + by eapply grows_trans.
    + intros u v Hv Hvnode Hu Huin.
      apply elem_of_app in Hv as [Hv|Hv].
      * apply (Hgrowb v u Hu), (grows_discard_node_in x st v u Hu).
        by apply Hbridge.
      * apply list_elem_of_singleton in Hv as ->.
        rewrite in_of_update_in_nodes_self
          by by eapply same_objects_is_node.
        apply elem_of_union_r. by apply (Hgrowa node u Hu).
Qed.

(** Lines 243-249 cannot fail; they keep every other node in every edge
    set, and join the in-neighbours of [node] to its out-neighbours. *)
Lemma connect_around_spec st :
  ∃ st',
    connect_around node st = Ok (tt, st') ∧
    same_objects st st' ∧ grows other st st' ∧
    ∀ u v, u ∈ in_of st node → v ∈ out_of st node →
      u ≠ node → v ≠ node →
      is_Some (heap_nodes st !! u) → is_node st v →
      v ∈ out_of st' u ∧ u ∈ in_of st' v.
Proof.
  unfold connect_around. rewrite bind_get.
  destruct (to_out_nodes_loop (elements (in_of st node)) st)
    as (st1 & Hrun1 & Hsame1 & Hsets1 & Hgrow1 & Hbridge1).
  rewrite (bind_Ok _ _ _ _ _ Hrun1), bind_get.
  destruct (to_in_nodes_loop (elements (out_of st1 node)) st1)
    as (st2 & Hrun2 & Hsame2 & Hnodes2 & Hgrow2 & Hbridge2).
  exists st2. split; [done|].
  split; [by eapply same_objects_trans|].
  split; [by eapply grows_trans|].
  intros u v Hu Hv Hune Hvne Hualloc Hvnode. split.
  - rewrite (out_of_same_nodes _ _ _ Hnodes2).
    apply Hbridge1; [by apply elem_of_elements|done..].
  - apply Hbridge2; [|by eapply same_objects_is_node|done|].
    + apply elem_of_elements. by apply (Hgrow1 node v Hvne).
    + by rewrite (in_of_same_sets _ _ _ Hsame1 Hsets1).
Qed.
End connect_around.

Lemma same_objects_with_nodes l st : same_objects st (with_nodes l st).
Proof. repeat split. intros a n Hn. by exists n. Qed.

(** One pass of [_remove_nodes] cannot fail. Either no node met the
    condition, and then nothing changed; or the list got shorter. *)
Lemma remove_pass_spec (condition : Condition) (todo : list addr) :
  ∀ changed optimized_graph st,
    ∃ changed' kept st',
      remove_pass condition todo changed optimized_graph st
      = Ok ((changed', optimized_graph ++ kept), st') ∧
      same_objects st st' ∧
      ((changed' = changed ∧ kept = todo ∧ st' = st ∧
        Forall (λ a, condition a st = false) todo) ∨
       (changed' = true ∧ length kept < length todo)).
Proof.
  induction todo as [|node rest IH]; intros changed opt st; simpl.
  - exists changed, [], st. rewrite app_nil_r.
    split; [done|]. split; [apply same_objects_refl|]. by left.
  - rewrite bind_get. destruct (condition node st) eqn:Hcond.
    + destruct (connect_around_spec node st) as (st1 & Hrun & Hsame & _).
      rewrite (bind_Ok _ _ _ _ _ Hrun).
      destruct (IH true opt st1) as (changed' & kept & st' & Hpass & Hsame' & Hcase).
      exists changed', kept, st'. split; [done|].
      split; [by eapply same_objects_trans|]. right.
      destruct Hcase as [(-> & -> & _)|[-> Hlen]]; simpl; split; (done || lia).
    + destruct (IH changed (opt ++ [node]) st)
        as (changed' & kept & st' & Hpass & Hsame' & Hcase).
      exists changed', (node :: kept), st'. rewrite <- app_assoc in Hpass.
      split; [done|]. split; [done|].
      destruct Hcase as [(-> & -> & -> & Hall)|[-> Hlen]].
      * left. split; [done|]. split; [done|]. split; [done|].
        by apply Forall_cons.
      * right. simpl. split; [done|lia].
Qed.

(** The [while] loop of [_remove_nodes] ends within one pass more than
    there are nodes, and then no node of the graph meets the condition. *)
Lemma remove_loop_spec (condition : Condition) (reverse : bool) :
  reads_node_only condition →
  ∀ fuel st, length (nodes st) < fuel →
    ∃ st',
      remove_loop fuel condition reverse st = Ok (tt, st') ∧
      same_objects st st' ∧
      Forall (λ a, condition a st' = false) (nodes st').
Proof.
  intros Hreads. induction fuel as [|fuel IH]; intros st Hfuel; [lia|].
  simpl. rewrite bind_get.
  set (todo := if reverse then rev (nodes st) else nodes st).
  assert (length todo = length (nodes st)) as Htodo.
  { unfold todo. destruct reverse; [apply length_rev|done]. }
  destruct (remove_pass_spec condition todo false [] st)
    as (changed' & kept & st1 & Hpass & Hsame & Hcase).
  rewrite (bind_Ok _ _ _ _ _ Hpass), bind_modify. simpl.
  destruct Hcase as [(-> & -> & -> & Hall)|[-> Hlen]].
  - exists (with_nodes todo st). split; [done|].
    split; [apply same_objects_with_nodes|]. simpl.
    eapply Forall_impl; [exact Hall|]. intros a Ha. by rewrite Hreads.
  - destruct (IH (with_nodes kept st1)) as (st' & Hrun & Hsame' & Hall).
    { simpl. lia. }
    exists st'. split; [done|]. split; [|done].
    eapply same_objects_trans; [exact Hsame|].
    eapply same_objects_trans; [apply same_objects_with_nodes|done].
Qed.

(** [_remove_nodes] returns, whatever the condition: the fuel of the model
    is never used up. *)
Lemma _remove_nodes_terminates (condition : Condition) (reverse : bool) st :
  reads_node_only condition →
  ∃ st',
    _remove_nodes condition reverse st = Ok (tt, st') ∧
    same_objects st st' ∧
    Forall (λ a, condition a st' = false) (nodes st').
Proof.
  intros Hreads. unfold _remove_nodes. rewrite bind_get.
  apply remove_loop_spec; [done|lia].
Qed.

Lemma is_constant_reads_node_only : reads_node_only is_constant.
Proof. done. Qed.

Lemma going_nowhere_reads_node_only out_indices :
  reads_node_only (going_nowhere out_indices).
Proof. done. Qed.





Lemma filter_Forall_all {A} (P : A → Prop) `{∀ x, Decision (P x)}
    (l : list A) :
  Forall P l → filter P l = l.
Proof.
  induction 1 as [|a l Ha _ IH]; [done|].
  by rewrite filter_cons_True, IH by done.
Qed.



Lemma two_constants_built :
  (let! _ := _add_IO_nodes (trace_inputs two_constants_trace) in
   _add_OP_nodes (trace_nodes two_constants_trace))
    (initial ["Net/Linear[fc1]"] 1 []) = Ok (tt, two_constants).
Proof. vm_compute. reflexivity. Qed.





(** With two constants in a row, the edge that the input gets when the
    first one is removed leads to the second one, and goes when that one is
    removed in its turn: the input ends up with its edge to the layer behind
    both, and with no other. *)
Lemma two_constants_bridged_in_turn :
  ∃ st',
    _remove_constant_nodes two_constants = Ok (tt, st') ∧
    nodes st' = [0; 3] ∧
    is_constant 1 two_constants = true ∧ 0 ∈ in_of two_constants 1 ∧
    2 ∈ out_of two_constants 1 ∧
    (2 ∉ out_of st' 0) ∧ out_of st' 0 = {[3]} ∧ in_of st' 3 = {[0]}.
Proof.
  eexists. split; [vm_compute; reflexivity|].
  split; [reflexivity|]. split; [vm_compute; reflexivity|].
  split; [by_computing|]. split; [by_computing|]. split; [by_computing|].
  split; vm_compute; reflexivity.
Qed.



(** ** The removal passes reach a fixed point *)

(** On a list without a node that meets the condition a pass changes
    nothing. *)
Lemma remove_pass_nothing_to_do (condition : Condition) (todo : list addr) :
  ∀ changed optimized_graph st,
    Forall (λ a, condition a st = false) todo →
    remove_pass condition todo changed optimized_graph st
    = Ok ((changed, optimized_graph ++ todo), st).
Proof.
  induction todo as [|node rest IH]; intros changed opt st Hall; simpl.
  - by rewrite app_nil_r.
  - apply Forall_cons in Hall as [Hnode Hrest].
    rewrite bind_get, Hnode, IH by done. by rewrite <- app_assoc.
Qed.

(** [_remove_nodes] returns for every condition that reads the node only,
    and leaves no node that meets the condition; run again on its own
    result, with the nodes in list order, it changes nothing. *)
Theorem _remove_nodes_fixed_point (condition : Condition) (st : State) :
  reads_node_only condition →
  ∃ st',
    _remove_nodes condition false st = Ok (tt, st') ∧
    Forall (λ a, condition a st' = false) (nodes st') ∧
    _remove_nodes condition false st' = Ok (tt, st').
Proof.
  intros Hreads.
  destruct (_remove_nodes_terminates condition false st Hreads)
    as (st' & Hrun & _ & Hall).
  exists st'. split; [exact Hrun|]. split; [exact Hall|].
  unfold _remove_nodes. rewrite bind_get. cbn [remove_loop].
  rewrite bind_get.
  rewrite (bind_Ok _ _ _ _ _
             (remove_pass_nothing_to_do condition (nodes st') false [] st' Hall)).
  rewrite bind_modify. simpl. by destruct st'.
Qed.

Lemma _remove_nodes_fixed_point_witness :
  ∃ st',
    _remove_nodes is_constant false constant_between = Ok (tt, st') ∧
    Forall (λ a, is_constant a st' = false) (nodes st') ∧
    _remove_nodes is_constant false st' = Ok (tt, st').
Proof.
  apply (_remove_nodes_fixed_point is_constant constant_between).
  intros a l st. reflexivity.
Defined.

(** ** The construction returns or raises *)

Lemma keeps_objects_new_set s : keeps_objects (new_set s).
Proof.
  intros st a st' [= _ <-]. split; [|done]. intros b n Hn. by exists n.
Qed.

Lemma keeps_objects_Node_init sc i t sh l w p :
  keeps_objects (Node_init sc i t sh l w p).
Proof.
  unfold Node_init. apply keeps_objects_bind.
  - destruct l; [apply keeps_objects_ret|apply keeps_objects_new_set].
  - intros l'. apply keeps_objects_new_object.
Qed.

Lemma keeps_objects_add_OP_node pos tn k : keeps_objects (add_OP_node pos tn k).
Proof.
  unfold add_OP_node, _find_encasing_layer.
  apply keeps_objects_bind.
  { apply keeps_objects_bind; [apply keeps_objects_get|].
    intros st. apply keeps_objects_ret. }
  intros node_scope. apply keeps_objects_bind; [apply keeps_objects_get|].
  intros st. apply keeps_objects_bind; [apply keeps_objects_lift|].
  intros members. apply keeps_objects_bind; [apply keeps_objects_new_set|].
  intros input_nodes. apply keeps_objects_bind.
  { destruct (outputs tn); [apply keeps_objects_raise|apply keeps_objects_ret]. }
  intros first. apply keeps_objects_bind; [apply keeps_objects_lift|].
  intros shape. apply keeps_objects_bind.
  { destruct (bool_decide (node_scope ≠ EmptyString));
      apply keeps_objects_Node_init. }
  intros new_node. apply keeps_objects_bind.
  { apply keeps_objects_for_each. intros x. apply keeps_objects_add_out_node. }
  intros _. apply keeps_objects_bind; [apply keeps_objects_append_node|].
  intros _. apply keeps_objects_add_output_nodes.
Qed.

Lemma input_node_set_progresses (l : list addr) (ids : list nat) :
  progresses (input_node_set l ids).
Proof.
  induction ids as [|i ids IH]; simpl; [left; by eexists|].
  destruct (l !! i); [|right; by eexists].
  destruct IH as [[s ->]|[e ->]]; [left|right]; by eexists.
Qed.

Lemma int_of_string_progresses s : progresses (int_of_string s).
Proof.
  unfold int_of_string.
  match goal with |- progresses (match ?b with _ => _ end) => destruct b end;
    [left|right]; by eexists.
Qed.

Lemma map_result_progresses {A B} (f : A → result B) (l : list A) :
  (∀ x, progresses (f x)) → progresses (map_result f l).
Proof.
  intros Hf. induction l as [|x l IH]; simpl; [left; by eexists|].
  destruct (Hf x) as [[y ->]|[e ->]]; [|right; by eexists].
  destruct IH as [[ys ->]|[e ->]]; [left|right]; by eexists.
Qed.

Lemma output_shape_of_progresses o : progresses (output_shape_of o).
Proof.
  unfold output_shape_of. destruct (Float_dims o); [|left; by eexists].
  apply map_result_progresses, int_of_string_progresses.
Qed.

Lemma builder_invariant_allocated pos k st :
  builder_invariant pos k st → ∀ a, a ∈ nodes st → a < length (heap_nodes st).
Proof. intros [_ Hseq] a Ha. rewrite Hseq in Ha. apply elem_of_seq in Ha. lia. Qed.

(** The body of the loop of [_add_OP_nodes] returns or raises, and when it
    returns the next trace op finds the state it needs. *)
Lemma add_OP_node_progresses pos tn k st :
  builder_invariant pos k st →
  (∃ e, add_OP_node pos tn k st = Raise e) ∨
  (∃ k' st', add_OP_node pos tn k st = Ok (k', st') ∧
             builder_invariant (S pos) k' st').
Proof.
  intros Hbefore.
  pose proof (builder_invariant_allocated _ _ _ Hbefore) as Halloc.
  destruct Hbefore as [Hcount Hseq].
  assert (∀ k' st', add_OP_node pos tn k st = Ok (k', st') →
                    builder_invariant (S pos) k' st') as Hinv.
  { intros k' st' Hrun.
    destruct (add_OP_node_built _ _ _ _ _ _ Hrun Hcount Halloc)
      as (proto & _ & _ & _ & HK & -> & Hnodes & Hheap & _).
    destruct (keeps_objects_add_OP_node _ _ _ _ _ _ Hrun) as [_ Hattrs].
    injection Hattrs as _ Hnibp _ _. split.
    - rewrite Hnodes, length_app, length_seq, Hnibp. lia.
    - by rewrite Hnodes, Hheap, Hseq, seq_app. }
  destruct (add_OP_node pos tn k st) as [[k' st']|e|] eqn:Hrun.
  - right. exists k', st'. split; [done|]. by apply Hinv.
  - left. by exists e.
  - exfalso. revert Hrun. unfold add_OP_node, _find_encasing_layer.
    unfold bind at 1 2. simpl. rewrite bind_get. unfold bind at 1.
    destruct (input_node_set_progresses (nodes st) (inputs tn))
      as [[members Hmem]|[e ->]]; [|done].
    rewrite Hmem. simpl. unfold bind at 1. simpl.
    destruct (outputs tn) as [|o rest] eqn:Hout; [done|].
    unfold bind at 1. simpl. unfold bind at 1.
    destruct (output_shape_of_progresses o) as [[shape ->]|[e ->]]; [|done].
    simpl. intros Hstuck.
    set (r := most_specific_scope (profiled_layers st) (scopeName tn)) in *.
    set (proto :=
      mkNode (if bool_decide (r ≠ EmptyString) then r
              else raw_op_scope tn pos)
        (num_inputs_buffs_params st + pos + k)
        (if bool_decide (r ≠ EmptyString) then LAYER else OP)
        ∅ (WInt 0) 10 [shape] (length (heap_sets st))).
    set (st0 := with_heap_sets (heap_sets st ++ [members]) st) in *.
    assert ((if bool_decide (r ≠ EmptyString)
             then Node_init r (num_inputs_buffs_params st + pos + k) LAYER
                    shape (Some (length (heap_sets st))) (WInt 0) 10
             else Node_init (raw_op_scope tn pos)
                    (num_inputs_buffs_params st + pos + k) OP shape
                    (Some (length (heap_sets st))) (WInt 0) 10) st0
            = Ok (length (heap_nodes st),
                  with_heap_nodes (heap_nodes st ++ [proto]) st0)) as Hinit.
    { unfold proto. by destruct (bool_decide (r ≠ EmptyString)). }
    rewrite (bind_Ok _ _ _ _ _ Hinit) in Hstuck.
    destruct (wire_inputs_run (elements members) (length (heap_nodes st))
                (with_heap_nodes (heap_nodes st ++ [proto]) st0))
      as (h & Hwire & Hlen & Hsame & _).
    rewrite (bind_Ok _ _ _ _ _ Hwire) in Hstuck.
    unfold append_node in Hstuck. rewrite bind_modify in Hstuck.
    simpl in Hstuck.
    set (st1 := with_nodes (nodes st ++ [length (heap_nodes st)])
                  (with_heap_nodes h
                     (with_heap_nodes (heap_nodes st ++ [proto]) st0))) in *.
    assert (slots_built (nodes st) (length (heap_nodes st)) proto 1 st1)
      as Hbuilt1.
    { split; [done|]. simpl. split.
      { rewrite Hlen. simpl. rewrite length_app. simpl. lia. }
      split.
      - intros j Hj. assert (j = 0) as -> by lia. rewrite Nat.add_0_r.
        rewrite Hsame.
        + simpl. rewrite list_lookup_middle by done. f_equal.
          unfold proto, with_idx, with_out_nodes. simpl. f_equal. lia.
        + intros Hin. apply elem_of_elements in Hin.
          apply (input_node_set_members _ _ _ Hmem) in Hin.
          apply Halloc in Hin. lia.
      - exists members. split; [by apply list_lookup_middle|].
        intros j Hj. lia. }
    destruct (add_output_nodes_built (nodes st) (length (heap_nodes st))
                proto rest 1 k st1) as (st'' & Hloop & _);
      [lia|simpl; lia|done|].
    simpl in Hloop. rewrite Hloop in Hstuck. done.
Qed.

Lemma _add_OP_nodes_from_progresses (OP_nodes : list TraceNode) :
  ∀ pos k st,
    builder_invariant pos k st →
    ends_in (builder_invariant (pos + length OP_nodes))
      (_add_OP_nodes_from pos OP_nodes k st).
Proof.
  induction OP_nodes as [|tn rest IH]; intros pos k st Hinv; simpl.
  - right. exists k, st. by rewrite Nat.add_0_r.
  - destruct (add_OP_node_progresses pos tn k st Hinv)
      as [[e Hrun]|(k' & st' & Hrun & Hinv')].
    + rewrite (bind_Raise _ _ _ _ Hrun). left. by eexists.
    + rewrite (bind_Ok _ _ _ _ _ Hrun), Nat.add_succ_r. by apply IH.
Qed.

Lemma _add_IO_nodes_from_progresses (input_nodes : list TraceInput) :
  ∀ idx st,
    builder_invariant 0 0 st →
    (∃ e, _add_IO_nodes_from idx input_nodes st = Raise e) ∨
    (∃ st', _add_IO_nodes_from idx input_nodes st = Ok (tt, st') ∧
            builder_invariant 0 0 st').
Proof.
  induction input_nodes as [|node rest IH]; intros idx st Hinv; simpl.
  - right. by exists st.
  - destruct (sizes node) as [dims|]; [|left; by eexists].
    rewrite bind_ret, bind_get.
    assert ((∃ tagged,
      (if idx <? num_inputs st then ret (IN, "input" +:+ str idx)
       else match buffer_param_names st !! (idx - num_inputs st) with
            | Some name => ret (BUFF_PARAM, name)
            | None => raise IndexError
            end) = ret tagged) ∨
      (if idx <? num_inputs st then ret (IN, "input" +:+ str idx)
       else match buffer_param_names st !! (idx - num_inputs st) with
            | Some name => ret (BUFF_PARAM, name)
            | None => raise IndexError
            end) = raise IndexError) as [[tagged ->]| ->].
    { destruct (idx <? num_inputs st); [left; by eexists|].
      destruct (buffer_param_names st !! (idx - num_inputs st));
        [left; by eexists|by right]. }
    2: { left. by eexists. }
    rewrite bind_ret, (bind_Ok _ _ _ _ _ (Node_init_fresh _ _ _ _ _ _ _)).
    unfold append_node. rewrite !bind_modify. apply IH.
    destruct Hinv as [Hcount Hseq]. split; simpl.
    + rewrite length_app. simpl. lia.
    + rewrite length_app, Nat.add_1_r, seq_S. simpl. by rewrite <- Hseq.
Qed.

Lemma normalize_from_returns (todo : list addr) :
  ∀ i st, ∃ st', normalize_from i todo st = Ok (tt, st').
Proof.
  induction todo as [|a todo IH]; intros i st; simpl; [by eexists|].
  rewrite bind_modify. apply IH.
Qed.

Lemma ends_in_bind {A B} (P : A → State → Prop) (Q : B → State → Prop)
    (m : M A) (k : A → M B) st :
  ends_in P (m st) →
  (∀ a st', P a st' → ends_in Q (k a st')) →
  ends_in Q (bind m k st).
Proof.
  intros [[e Hm]|(a & st' & Hm & HP)] Hk.
  - left. exists e. by apply bind_Raise.
  - rewrite (bind_Ok _ _ _ _ _ Hm). by apply Hk.
Qed.

Lemma ends_in_Ok {A} (P : A → State → Prop) a st :
  P a st → ends_in P (Ok (a, st)).
Proof. intros HP. right. by exists a, st. Qed.

(** [Graph.__init__] returns a graph or raises: the model of the
    construction never gets stuck. *)
Theorem Graph_init_not_stuck (L : list string) (n : nat)
    (names : list string) (tg : TraceGraph) (weights : gmap string Weight) :
  progresses (Graph_init L n names tg weights).
Proof.
  assert (ends_in (λ _ _, True)
            ((let! _ := _build_graph tg in overlay_weights weights)
               (initial L n names))) as Hends.
  { unfold _build_graph.
    apply (ends_in_bind (λ _ _, True)); [|intros _ st _].
    2: { unfold overlay_weights. rewrite bind_get.
         destruct (overlay_loop_spec weights (nodes st) st) as (h & -> & _).
         by apply ends_in_Ok. }
    apply (ends_in_bind (λ _, builder_invariant 0 0)).
    { unfold _add_IO_nodes.
      destruct (_add_IO_nodes_from_progresses (trace_inputs tg) 0
                  (initial L n names)) as [Hraise|(st' & Hrun & Hinv)].
      - by split.
      - by left.
      - right. by exists tt, st'. }
    intros _ st1 Hinv1. apply (ends_in_bind (λ _ _, True)).
    { unfold _add_OP_nodes. apply (ends_in_bind (λ _ _, True)).
      - destruct (_add_OP_nodes_from_progresses (trace_nodes tg) 0 0 st1
                    Hinv1) as [Hraise|(k & st2 & Hops & _)]; [by left|].
        rewrite Hops. by apply ends_in_Ok.
      - intros k st2 _. by apply ends_in_Ok. }
    intros _ st2 _. apply (ends_in_bind (λ _ _, True)).
    { destruct (_remove_nodes_terminates is_constant false st2
                  is_constant_reads_node_only) as (st3 & Hconst & _).
      unfold _remove_constant_nodes. rewrite Hconst. by apply ends_in_Ok. }
    intros _ st3 _. apply (ends_in_bind (λ _ _, True)).
    { unfold _remove_nodes_that_go_nowhere.
      apply (ends_in_bind (λ _ _, True)).
      - destruct (map_result_progresses int_of_string (trace_outputs tg)
                    int_of_string_progresses) as [[out_indices ->]|[e ->]].
        + by apply ends_in_Ok.
        + left. by exists e.
      - intros out_indices st _.
        destruct (_remove_nodes_terminates (going_nowhere out_indices)
                    false st (going_nowhere_reads_node_only out_indices))
          as (st4 & -> & _).
        by apply ends_in_Ok. }
    intros _ st4 _. unfold _normalize_indices. rewrite bind_get.
    destruct (normalize_from_returns (nodes st4) 0 st4) as [st5 ->].
    by apply ends_in_Ok. }
  unfold Graph_init.
  destruct Hends as [[e ->]|([] & st' & -> & _)]; [right|left]; by eexists.
Qed.

Lemma C4_overlay_by_scope_only_witness :
  ∃ st',
    overlay_weights fc1_overrides constant_between = Ok (tt, st') ∧
    weight_of st' 0 = WInt 7 ∧ weight_of st' 1 = WInt 0 ∧
    weight_of st' 2 = WTimes 3.5 0.5.
Proof.
  destruct (C4_overlay_by_scope_only fc1_overrides constant_between)
    as (st' & Hrun & _ & _ & Hkey & Hnokey & _).
  exists st'. split; [exact Hrun|]. unfold weight_of. split; [|split].
  - erewrite (Hkey 0 _ (WInt 7)); [reflexivity|by_computing|reflexivity|].
    vm_compute. reflexivity.
  - rewrite (Hnokey 1
      (mkNode "Net/onnx::ConstantOfShape0" 1 OP {[2]} (WInt 0) 10 [[1%Z]] 1));
      [reflexivity|reflexivity|].
    vm_compute. reflexivity.
  - erewrite (Hkey 2 _ (WTimes 3.5 0.5));
      [reflexivity|by_computing|reflexivity|].
    vm_compute. reflexivity.
Defined.

(** ** The adapter's inputs are aligned *)

(** The adjacency list and the weight vector have one entry per node of the
    graph, so the assertion at line 20 of partition_model.py holds. *)
Theorem adjacency_list_aligned_with_weights (st : State) (directed : bool) :
  length (adjacency_list st directed) = length (nodes st) ∧
  length (get_weights st) = length (nodes st) ∧
  length (adjacency_list st directed) = length (get_weights st).
Proof.
  unfold adjacency_list, get_weights.
  destruct directed; simpl; by rewrite !length_fmap.
Qed.

(** ** The built graph is numbered by position *)

Lemma ends_in_inv {A} (P : A → State → Prop) r a st :
  ends_in P r → r = Ok (a, st) → P a st.
Proof.
  intros [[e ->]|(a' & st' & -> & HP)]; [done|]. by intros [= <- <-].
Qed.

(** A pass keeps the nodes it does not drop in their order. *)
Lemma remove_pass_sublist (condition : Condition) (todo : list addr) :
  ∀ changed optimized_graph st changed' optimized_graph' st',
    remove_pass condition todo changed optimized_graph st
    = Ok ((changed', optimized_graph'), st') →
    ∃ kept, optimized_graph' = optimized_graph ++ kept ∧
            kept `sublist_of` todo.
Proof.
  induction todo as [|node rest IH];
    intros changed opt st changed' opt' st' Hpass; simpl in Hpass.
  - injection Hpass as _ <- _. exists []. by rewrite app_nil_r.
  - rewrite bind_get in Hpass. destruct (condition node st).
    + apply bind_inv_Ok in Hpass as (u & st1 & _ & Hpass).
      destruct (IH _ _ _ _ _ _ Hpass) as (kept & -> & Hsub).
      exists kept. split; [done|]. by apply sublist_cons.
    + destruct (IH _ _ _ _ _ _ Hpass) as (kept & -> & Hsub).
      exists (node :: kept). rewrite <- app_assoc. split; [done|].
      by apply sublist_skip.
Qed.

Lemma remove_loop_sublist (condition : Condition) :
  ∀ fuel st st',
    remove_loop fuel condition false st = Ok (tt, st') →
    nodes st' `sublist_of` nodes st.
Proof.
  induction fuel as [|fuel IH]; intros st st' Hrun; [done|].
  simpl in Hrun. rewrite bind_get in Hrun.
  apply bind_inv_Ok in Hrun as ([changed' opt'] & st1 & Hpass & Hrun).
  apply remove_pass_sublist in Hpass as (kept & -> & Hsub).
  rewrite bind_modify in Hrun. simpl in Hrun. destruct changed'.
  - apply IH in Hrun. simpl in Hrun. by etrans.
  - by injection Hrun as <-.
Qed.

(** [_remove_nodes] keeps the order of the nodes that stay, as the
    specification of the optimizer asks. *)
Lemma _remove_nodes_sublist (condition : Condition) st st' :
  _remove_nodes condition false st = Ok (tt, st') →
  nodes st' `sublist_of` nodes st.
Proof.
  unfold _remove_nodes. rewrite bind_get. apply remove_loop_sublist.
Qed.

Lemma _remove_nodes_same_objects (condition : Condition) st st' :
  reads_node_only condition →
  _remove_nodes condition false st = Ok (tt, st') → same_objects st st'.
Proof.
  intros Hreads Hrun.
  destruct (_remove_nodes_terminates condition false st Hreads)
    as (st'' & Hrun' & Hsame & _).
  rewrite Hrun in Hrun'. by injection Hrun' as <-.
Qed.

(** The nodes of the list are distinct objects. *)
Lemma distinct_objects_after_removal (condition : Condition) st st' :
  reads_node_only condition →
  _remove_nodes condition false st = Ok (tt, st') →
  NoDup (nodes st) → (∀ a, a ∈ nodes st → a < length (heap_nodes st)) →
  NoDup (nodes st') ∧ ∀ a, a ∈ nodes st' → a < length (heap_nodes st').
Proof.
  intros Hreads Hrun Hnd Halloc.
  pose proof (_remove_nodes_sublist _ _ _ Hrun) as Hsub.
  destruct (_remove_nodes_same_objects _ _ _ Hreads Hrun) as (_ & Hlen & _).
  split; [by eapply sublist_NoDup|].
  intros a Ha. rewrite Hlen. apply Halloc. by eapply elem_of_sublist.
Qed.

(** A graph that the constructor returns has nodes that are distinct
    objects, each with its position in the node list as index. *)
Theorem Graph_init_indices_are_positions (L : list string) (n : nat)
    (names : list string) (tg : TraceGraph) (weights : gmap string Weight)
    (st : State) :
  Graph_init L n names tg weights = Ok st →
  NoDup (nodes st) ∧ indices_are_positions st.
Proof.
  unfold Graph_init. intros Hinit.
  destruct ((let! _ := _build_graph tg in overlay_weights weights)
              (initial L n names)) as [[[] st6]|e|] eqn:Hrun; [|done..].
  injection Hinit as ->.
  apply bind_inv_Ok in Hrun as ([] & st5 & Hbuild & Hoverlay).
  unfold _build_graph in Hbuild.
  apply bind_inv_Ok in Hbuild as ([] & st1 & HIO & Hbuild).
  apply bind_inv_Ok in Hbuild as ([] & st2 & HOP & Hbuild).
  apply bind_inv_Ok in Hbuild as ([] & st3 & Hconst & Hbuild).
  apply bind_inv_Ok in Hbuild as ([] & st4 & Hnowhere & Hnorm).
  assert (builder_invariant 0 0 st1) as Hinv1.
  { destruct (_add_IO_nodes_from_progresses (trace_inputs tg) 0
                (initial L n names)) as [[e He]|(st' & Hrun & Hinv)].
    - by split.
    - unfold _add_IO_nodes in HIO. congruence.
    - unfold _add_IO_nodes in HIO. rewrite HIO in Hrun.
      by injection Hrun as <-. }
  assert (NoDup (nodes st2) ∧
          ∀ a, a ∈ nodes st2 → a < length (heap_nodes st2)) as [Hnd2 Halloc2].
  { unfold _add_OP_nodes in HOP.
    apply bind_inv_Ok in HOP as (k & st2' & HOP & [= <-]).
    pose proof (ends_in_inv _ _ _ _
      (_add_OP_nodes_from_progresses (trace_nodes tg) 0 0 st1 Hinv1) HOP)
      as Hinv2.
    split; [|by eapply builder_invariant_allocated].
    destruct Hinv2 as [_ ->]. apply NoDup_seq. }
  destruct (distinct_objects_after_removal is_constant st2 st3)
    as [Hnd3 Halloc3]; [done..|].
  unfold _remove_nodes_that_go_nowhere in Hnowhere.
  apply bind_inv_Ok in Hnowhere as (out_indices & st3' & Hout & Hnowhere).
  apply lift_inv_Ok in Hout as [_ ->].
  destruct (distinct_objects_after_removal (going_nowhere out_indices)
              st3 st4) as [Hnd4 Halloc4]; [done..|].
  destruct (normalize_from_spec (nodes st4) 0 st4 Hnd4)
    as (h & Hrun & _ & Hpos).
  unfold _normalize_indices in Hnorm. rewrite bind_get, Hrun in Hnorm.
  injection Hnorm as <-.
  destruct (overlay_loop_spec weights (nodes st4) (with_heap_nodes h st4))
    as (h' & Hrun' & Hin & _).
  unfold overlay_weights in Hoverlay. rewrite bind_get in Hoverlay.
  simpl in Hoverlay. rewrite Hrun' in Hoverlay. injection Hoverlay as <-.
  split; [done|]. intros p a Hp. simpl in *.
  destruct (lookup_lt_is_Some_2 (heap_nodes st4) a) as [m Hm].
  { apply Halloc4. by eapply list_elem_of_lookup_2. }
  exists (override weights (with_idx p m)). split.
  - rewrite Hin by by eapply list_elem_of_lookup_2.
    by rewrite (Hpos p a Hp), Hm.
  - done.
Qed.

Lemma Graph_init_indices_are_positions_witness :
  ∃ st,
    Graph_init fc1_layers 1 fc1_params fc1_trace fc1_overrides = Ok st ∧
    NoDup (nodes st) ∧ indices_are_positions st.
Proof.
  assert (∃ st, Graph_init fc1_layers 1 fc1_params fc1_trace fc1_overrides
                = Ok st) as [st Hst].
  { eexists. vm_compute. reflexivity. }
  exists st. split; [exact Hst|].
  exact (Graph_init_indices_are_positions _ _ _ _ _ _ Hst).
Defined.

(** ** The nodes of the inputs, parameters and buffers *)

Lemma foldl_mul_product (dims : list Z) (acc : Z) :
  foldl Z.mul acc dims = (acc * foldr Z.mul 1 dims)%Z.
Proof.
  revert acc. induction dims as [|d dims IH]; intros acc; simpl; [lia|].
  rewrite IH. lia.
Qed.

Lemma _add_IO_nodes_from_spec (input_nodes : list TraceInput) :
  ∀ pos st,
    Forall (λ x, is_Some (sizes x)) input_nodes →
    pos + length input_nodes
      ≤ num_inputs st + length (buffer_param_names st) →
    ∃ st',
      _add_IO_nodes_from pos input_nodes st = Ok (tt, st') ∧
      nodes st' =
        nodes st ++ seq (length (heap_nodes st)) (length input_nodes) ∧
      num_inputs_buffs_params st' =
        num_inputs_buffs_params st + length input_nodes ∧
      num_inputs st' = num_inputs st ∧
      buffer_param_names st' = buffer_param_names st ∧
      profiled_layers st' = profiled_layers st ∧
      length (heap_nodes st') = length (heap_nodes st) + length input_nodes ∧
      length (heap_sets st') = length (heap_sets st) + length input_nodes ∧
      (∀ a, a < length (heap_nodes st) →
         heap_nodes st' !! a = heap_nodes st !! a) ∧
      (∀ l, l < length (heap_sets st) →
         heap_sets st' !! l = heap_sets st !! l) ∧
      ∀ i x dims, input_nodes !! i = Some x → sizes x = Some dims →
        heap_sets st' !! (length (heap_sets st) + i) = Some ∅ ∧
        ∃ name,
          heap_nodes st' !! (length (heap_nodes st) + i) =
            Some (mkNode name (pos + i)
                    (if pos + i <? num_inputs st then IN else BUFF_PARAM)
                    ∅ (WInt (foldr Z.mul 1%Z dims)) 10 [dims]
                    (length (heap_sets st) + i)) ∧
          (pos + i < num_inputs st → name = "input" +:+ str (pos + i)) ∧
          (num_inputs st ≤ pos + i →
             buffer_param_names st !! (pos + i - num_inputs st) = Some name).
Proof.
  induction input_nodes as [|node rest IH]; intros pos st Hsizes Hlen.
  - exists st. simpl. rewrite app_nil_r, !Nat.add_0_r.
    repeat split; done.
  - apply Forall_cons in Hsizes as [[dims Hdims] Hsizes]. simpl in Hlen.
    cbn [_add_IO_nodes_from]. rewrite Hdims, bind_ret, bind_get.
    set (name := if pos <? num_inputs st then "input" +:+ str pos
                 else default EmptyString
                        (buffer_param_names st !! (pos - num_inputs st))).
    set (ty := if pos <? num_inputs st then IN else BUFF_PARAM).
    assert ((if pos <? num_inputs st then ret (IN, "input" +:+ str pos)
             else match buffer_param_names st !! (pos - num_inputs st) with
                  | Some name => ret (BUFF_PARAM, name)
                  | None => raise IndexError
                  end) = ret (ty, name)) as ->.
    { unfold ty, name. destruct (Nat.ltb_spec pos (num_inputs st)); [done|].
      destruct (lookup_lt_is_Some_2 (buffer_param_names st)
                  (pos - num_inputs st)) as [nm ->]; [lia|]. done. }
    rewrite bind_ret, (bind_Ok _ _ _ _ _ (Node_init_fresh _ _ _ _ _ _ _)).
    unfold append_node. rewrite !bind_modify. cbn [fst snd].
    match goal with |- ∃ st', _add_IO_nodes_from _ _ ?s = _ ∧ _ =>
      set (st1 := s) end.
    destruct (IH (S pos) st1 Hsizes) as
      (st' & Hrun & Hnodes & Hnum & Hni & Hnames & Hlayers & Hlenn & Hlens
         & Holdn & Holds & Hnew); [simpl; lia|].
    exists st'. split; [exact Hrun|]. simpl in *.
    rewrite length_app in *. simpl in *.
    split. { rewrite Hnodes, <- app_assoc. simpl. by rewrite Nat.add_1_r. }
    split; [lia|]. split; [done|]. split; [done|]. split; [done|].
    split; [lia|]. split; [lia|].
    split. { intros a Ha. rewrite Holdn by lia. by rewrite lookup_app_l. }
    split. { intros l Hl. rewrite Holds by lia. by rewrite lookup_app_l. }
    intros [|i] x dims' Hi Hx; simpl in Hi.
    + injection Hi as <-. rewrite Hdims in Hx. injection Hx as <-.
      rewrite !Nat.add_0_r. rewrite Holdn, Holds by lia.
      rewrite !lookup_app_r, !Nat.sub_diag by lia. simpl.
      split; [done|]. exists name. rewrite foldl_mul_product, Z.mul_1_l.
      split; [done|]. unfold name.
      split; intros Hpos.
      * apply Nat.ltb_lt in Hpos. by rewrite Hpos.
      * apply Nat.ltb_ge in Hpos. rewrite Hpos.
        destruct (lookup_lt_is_Some_2 (buffer_param_names st)
                    (pos - num_inputs st)) as [nm ->]; [|done].
        apply Nat.ltb_ge in Hpos. lia.
    + destruct (Hnew i x dims' Hi Hx) as (Hset & nm & Hn & Hin & Hbp).
      unfold st1 in Hset, Hn. simpl in Hset, Hn.
      rewrite length_app in Hn. simpl in Hn.
      replace (length (heap_sets st) + S i) with (length (heap_sets st) + 1 + i)
        by lia.
      replace (length (heap_nodes st) + S i)
        with (length (heap_nodes st) + 1 + i) by lia.
      replace (pos + S i) with (S (pos + i)) by lia.
      split; [done|]. exists nm. by rewrite Hn.
Qed.

(** [_add_IO_nodes] makes one node per trace input, in order, when every
    input has sizes and there are names enough for those that are not model
    inputs: the node of input [i] has index [i], no edges, the product of
    the sizes as weight and the sizes as its one output shape; it is an [IN]
    node with scope ["input" + str(i)] when [i < num_inputs], and a
    [BUFF_PARAM] node with scope [buffer_param_names[i - num_inputs]]
    otherwise. The counter [num_inputs_buffs_params] goes up by the number
    of inputs, and the objects that were there stay as they were. *)
Theorem _add_IO_nodes_one_node_per_input (input_nodes : list TraceInput)
    (st : State) :
  Forall (λ x, is_Some (sizes x)) input_nodes →
  length input_nodes ≤ num_inputs st + length (buffer_param_names st) →
  ∃ st',
    _add_IO_nodes input_nodes st = Ok (tt, st') ∧
    nodes st' = nodes st ++ seq (length (heap_nodes st)) (length input_nodes) ∧
    num_inputs_buffs_params st' =
      num_inputs_buffs_params st + length input_nodes ∧
    (∀ a, a < length (heap_nodes st) →
       heap_nodes st' !! a = heap_nodes st !! a) ∧
    ∀ i x dims, input_nodes !! i = Some x → sizes x = Some dims →
      let a := length (heap_nodes st) + i in
      ∃ n,
        heap_nodes st' !! a = Some n ∧
        idx n = i ∧ weight n = WInt (foldr Z.mul 1%Z dims) ∧
        output_shape n = [dims] ∧ part n = 10%Z ∧
        out_of st' a = ∅ ∧ in_of st' a = ∅ ∧
        (i < num_inputs st → type n = IN ∧ scope n = "input" +:+ str i) ∧
        (num_inputs st ≤ i →
           type n = BUFF_PARAM ∧
           buffer_param_names st !! (i - num_inputs st) = Some (scope n)).
Proof.
  intros Hsizes Hlen.
  destruct (_add_IO_nodes_from_spec input_nodes 0 st Hsizes Hlen)
    as (st' & Hrun & Hnodes & Hnum & _ & _ & _ & _ & _ & Hold & _ & Hnew).
  exists st'. split; [exact Hrun|]. split; [exact Hnodes|].
  split; [exact Hnum|]. split; [exact Hold|].
  intros i x dims Hi Hx a.
  destruct (Hnew i x dims Hi Hx) as (Hset & name & Hn & Hin & Hbp).
  simpl in *. eexists. split; [exact Hn|]. simpl.
  unfold out_of, in_of. subst a. rewrite Hn. simpl. rewrite Hset. simpl.
  do 6 (split; [done|]). split.
  - intros Hlt. split; [|by apply Hin].
    apply Nat.ltb_lt in Hlt. by rewrite Hlt.
  - intros Hge. split; [|by apply Hbp].
    apply Nat.ltb_ge in Hge. by rewrite Hge.
Qed.

Lemma _add_IO_nodes_one_node_per_input_witness :
  ∃ st',
    _add_IO_nodes (trace_inputs fc1_trace) (initial fc1_layers 1 fc1_params)
    = Ok (tt, st') ∧
    nodes st' = [0; 1] ∧ num_inputs_buffs_params st' = 2 ∧
    (scope <$> heap_nodes st' !! 0) = Some "input0" ∧
    (weight <$> heap_nodes st' !! 0) = Some (WInt 32) ∧
    (scope <$> heap_nodes st' !! 1)
    = Some "Net/Linear[fc1]/Parameter[weight]" ∧
    (type <$> heap_nodes st' !! 1) = Some BUFF_PARAM.
Proof.
  destruct (_add_IO_nodes_one_node_per_input (trace_inputs fc1_trace)
              (initial fc1_layers 1 fc1_params))
    as (st' & Hrun & Hnodes & Hnum & _ & Hnew).
  - repeat constructor; by eexists.
  - simpl. lia.
  - exists st'. split; [exact Hrun|]. split; [exact Hnodes|].
    split; [exact Hnum|].
    destruct (Hnew 0 _ _ eq_refl eq_refl)
      as (n0 & Hn0 & _ & Hw0 & _ & _ & _ & _ & Hin0 & _).
    destruct (Hnew 1 _ _ eq_refl eq_refl)
      as (n1 & Hn1 & _ & _ & _ & _ & _ & _ & _ & Hbp1).
    simpl in Hn0, Hn1. rewrite Hn0, Hn1. simpl.
    destruct Hin0 as [_ ->]; [simpl; lia|]. rewrite Hw0.
    destruct Hbp1 as [-> Hname]; [simpl; lia|].
    simpl in Hname. injection Hname as <-. done.
Defined.

Lemma _add_IO_nodes_from_names_run_out (input_nodes : list TraceInput) :
  ∀ pos st,
    Forall (λ x, is_Some (sizes x)) input_nodes →
    pos ≤ num_inputs st + length (buffer_param_names st) →
    num_inputs st + length (buffer_param_names st)
      < pos + length input_nodes →
    _add_IO_nodes_from pos input_nodes st = Raise IndexError.
Proof.
  induction input_nodes as [|node rest IH]; intros pos st Hsizes Hpos Hlen.
  - simpl in Hlen. lia.
  - apply Forall_cons in Hsizes as [[dims Hdims] Hsizes]. simpl in Hlen.
    cbn [_add_IO_nodes_from]. rewrite Hdims, bind_ret, bind_get.
    destruct (decide (pos = (num_inputs st + length (buffer_param_names st))))
      as [Heq|Hne].
    + assert ((pos <? num_inputs st) = false) as -> by (apply Nat.ltb_ge; lia).
      rewrite lookup_ge_None_2 by lia. done.
    + assert (∃ tagged,
        (if pos <? num_inputs st then ret (IN, "input" +:+ str pos)
         else match buffer_param_names st !! (pos - num_inputs st) with
              | Some name => ret (BUFF_PARAM, name)
              | None => raise IndexError
              end) = ret tagged) as [tagged ->].
      { destruct (Nat.ltb_spec pos (num_inputs st)); [by eexists|].
        destruct (lookup_lt_is_Some_2 (buffer_param_names st)
                    (pos - num_inputs st)) as [name ->]; [lia|]. by eexists. }
      rewrite bind_ret, (bind_Ok _ _ _ _ _ (Node_init_fresh _ _ _ _ _ _ _)).
      unfold append_node. rewrite !bind_modify.
      apply IH; [done|simpl; lia|simpl; lia].
Qed.

(** [_add_IO_nodes] raises [IndexError] when the trace has more inputs than
    the model has inputs, parameters and buffers by name (and every input
    has sizes): line 145 reads past the end of [buffer_param_names]. *)
Theorem _add_IO_nodes_names_run_out (input_nodes : list TraceInput)
    (st : State) :
  Forall (λ x, is_Some (sizes x)) input_nodes →
  num_inputs st + length (buffer_param_names st) < length input_nodes →
  _add_IO_nodes input_nodes st = Raise IndexError.
Proof.
  intros Hsizes Hlen.
  apply _add_IO_nodes_from_names_run_out; [done|lia|lia].
Qed.

Lemma _add_IO_nodes_names_run_out_witness :
  _add_IO_nodes (trace_inputs fc1_trace) (initial fc1_layers 1 [])
  = Raise IndexError.
Proof.
  apply _add_IO_nodes_names_run_out.
  - repeat constructor; by eexists.
  - simpl. lia.
Defined.

(** ** Nodes that go nowhere *)

(** A node that can never meet the condition stays in the list through a
    pass. *)
Lemma remove_pass_keeps (condition : Condition) (a : addr)
    (todo : list addr) :
  ∀ changed opt st changed' opt' st',
    (∀ st1, same_objects st st1 → condition a st1 = false) →
    remove_pass condition todo changed opt st = Ok ((changed', opt'), st') →
    a ∈ opt ∨ a ∈ todo → a ∈ opt'.
Proof.
  induction todo as [|node rest IH];
    intros changed opt st changed' opt' st' Hnever Hpass Ha; simpl in Hpass.
  - injection Hpass as _ <- _. destruct Ha as [Ha|Ha]; [done|].
    by apply elem_of_nil in Ha.
  - rewrite bind_get in Hpass. destruct (condition node st) eqn:Hcond.
    + destruct (connect_around_spec node st) as (st1 & Hrun & Hsame & _).
      rewrite (bind_Ok _ _ _ _ _ Hrun) in Hpass.
      eapply IH; [|exact Hpass|].
      * intros st2 Hsame2. apply Hnever. by eapply same_objects_trans.
      * destruct Ha as [Ha|Ha]; [by left|].
        apply elem_of_cons in Ha as [->|Ha]; [|by right].
        rewrite (Hnever st (same_objects_refl st)) in Hcond. done.
    + eapply IH; [exact Hnever|exact Hpass|].
      destruct Ha as [Ha|Ha].
      * left. apply elem_of_app. by left.
      * apply elem_of_cons in Ha as [->|Ha]; [|by right].
        left. apply elem_of_app. right. by apply list_elem_of_here.
Qed.

Lemma remove_loop_keeps (condition : Condition) (reverse : bool) (a : addr) :
  ∀ fuel st st',
    (∀ st1, same_objects st st1 → condition a st1 = false) →
    remove_loop fuel condition reverse st = Ok (tt, st') →
    a ∈ nodes st → a ∈ nodes st'.
Proof.
  induction fuel as [|fuel IH]; intros st st' Hnever Hrun Ha; [done|].
  simpl in Hrun. rewrite bind_get in Hrun.
  set (todo := if reverse then rev (nodes st) else nodes st) in Hrun.
  assert (a ∈ todo) as Htodo.
  { unfold todo. destruct reverse; [|done]. apply list_elem_of_In, in_rev. rewrite rev_involutive. by apply list_elem_of_In. }
  destruct (remove_pass_spec condition todo false [] st)
    as (changed' & kept & st1 & Hpass & Hsame & _).
  rewrite (bind_Ok _ _ _ _ _ Hpass), bind_modify in Hrun. simpl in Hrun.
  pose proof (remove_pass_keeps _ a _ _ _ _ _ _ _ Hnever Hpass
                (or_intror Htodo)) as Hkept.
  destruct changed'.
  - eapply IH; [|exact Hrun|done].
    intros st2 Hsame2. apply Hnever.
    eapply same_objects_trans; [exact Hsame|].
    eapply same_objects_trans; [apply same_objects_with_nodes|done].
  - by injection Hrun as <-.
Qed.

Lemma int_of_string_ValueError (s : string) (e : exn) :
  int_of_string s = Raise e → e = ValueError.
Proof.
  unfold int_of_string.
  destruct (match strip s with
            | String "-" s' => Z.opp <$> digits 0 false s'
            | String "+" s' => digits 0 false s'
            | s' => digits 0 false s'
            end); [done|]. by intros [= <-].
Qed.

Lemma map_result_int_of_string_raises (l : list string) (s : string) :
  s ∈ l → int_of_string s = Raise ValueError →
  map_result int_of_string l = Raise ValueError.
Proof.
  intros Hs Hraise. induction l as [|x l IH]; [by apply elem_of_nil in Hs|].
  simpl. destruct (int_of_string x) as [z|e|] eqn:Hx.
  - apply elem_of_cons in Hs as [->|Hs]; [congruence|]. by rewrite IH.
  - by rewrite (int_of_string_ValueError _ _ Hx).
  - unfold int_of_string in Hx.
    by destruct (match strip x with
                 | String "-" s' => Z.opp <$> digits 0 false s'
                 | String "+" s' => digits 0 false s'
                 | s' => digits 0 false s'
                 end).
Qed.

(** [_remove_nodes_that_go_nowhere] returns when the names of the trace
    outputs read as integers. No object is made and the nodes left are a
    sublist of those before; each of them has an out-edge or has its index
    among the outputs; and a node whose index is among the outputs is never
    dropped. When a name does not read as an integer, [int] raises
    [ValueError] before any node is looked at. *)
Theorem _remove_nodes_that_go_nowhere_spec (trace_outputs : list string)
    (st : State) :
  (∀ out_indices,
     map_result int_of_string trace_outputs = Ok out_indices →
     ∃ st',
       _remove_nodes_that_go_nowhere trace_outputs st = Ok (tt, st') ∧
       same_objects st st' ∧
       nodes st' `sublist_of` nodes st ∧
       (∀ a, a ∈ nodes st' →
          out_of st' a ≠ ∅ ∨ Z.of_nat (idx_of st' a) ∈ out_indices) ∧
       (∀ a, a ∈ nodes st → Z.of_nat (idx_of st a) ∈ out_indices →
          a ∈ nodes st')) ∧
  (∀ s, s ∈ trace_outputs → int_of_string s = Raise ValueError →
     _remove_nodes_that_go_nowhere trace_outputs st = Raise ValueError).
Proof.
  split.
  - intros out_indices Hout. unfold _remove_nodes_that_go_nowhere.
    unfold bind at 1. unfold lift. rewrite Hout.
    destruct (_remove_nodes_terminates (going_nowhere out_indices) false st
                (going_nowhere_reads_node_only out_indices))
      as (st' & Hrun & Hsame & Hall).
    exists st'. split; [exact Hrun|]. split; [exact Hsame|].
    split; [by apply (_remove_nodes_sublist (going_nowhere out_indices))|].
    split.
    + intros a Ha. rewrite Forall_forall in Hall. specialize (Hall a Ha).
      unfold going_nowhere in Hall.
      apply andb_false_iff in Hall as [Hall|Hall].
      * left. by apply bool_decide_eq_false in Hall.
      * right. apply negb_false_iff in Hall.
        by apply bool_decide_eq_true in Hall.
    + intros a Ha Hidx. unfold _remove_nodes in Hrun.
      rewrite bind_get in Hrun.
      eapply remove_loop_keeps; [|exact Hrun|exact Ha].
      intros st1 Hsame1. unfold going_nowhere.
      rewrite (same_objects_idx_of st st1 a Hsame1).
      rewrite (bool_decide_eq_true_2 _ Hidx). simpl. apply andb_false_r.
  - intros s Hs Hraise. unfold _remove_nodes_that_go_nowhere.
    unfold bind at 1. unfold lift.
    by rewrite (map_result_int_of_string_raises _ _ Hs Hraise).
Qed.

(** ** Weights and parts of a graph as built *)

Section preserves.
Context (P : State → Prop).

Lemma preserves_ret {A} (a : A) : preserves P (ret a).
Proof. by intros st b st' HP [= _ <-]. Qed.

Lemma preserves_get : preserves P get.
Proof. by intros st b st' HP [= _ <-]. Qed.

Lemma preserves_raise {A} e : preserves P (@raise A e).
Proof. by intros st b st'. Qed.

Lemma preserves_stuck {A} : preserves P (@stuck A).
Proof. by intros st b st'. Qed.

Lemma preserves_lift {A} (r : result A) : preserves P (lift r).
Proof.
  intros st b st' HP. unfold lift. destruct r; [|done..]. by intros [= _ <-].
Qed.

Lemma preserves_modify f : (∀ st, P st → P (f st)) → preserves P (modify f).
Proof. intros Hf st b st' HP [= _ <-]. by apply Hf. Qed.

Lemma preserves_bind {A B} (m : M A) (k : A → M B) :
  preserves P m → (∀ a, preserves P (k a)) → preserves P (bind m k).
Proof.
  intros Hm Hk st b st' HP Hrun.
  apply bind_inv_Ok in Hrun as (a & st1 & H1 & H2).
  eapply Hk; [|exact H2]. by eapply Hm.
Qed.

Lemma preserves_for_each {A} (l : list A) (body : A → M unit) :
  (∀ x, preserves P (body x)) → preserves P (for_each l body).
Proof.
  intros Hbody. induction l as [|x l IH]; simpl.
  - apply preserves_ret.
  - apply preserves_bind; [apply Hbody|]. by intros _.
Qed.

End preserves.

Lemma all_as_built_alter (f : Node → Node) (a : addr) st :
  (∀ n, weight (f n) = weight n ∧ part (f n) = part n) →
  all_as_built st →
  all_as_built (with_heap_nodes (alter f a (heap_nodes st)) st).
Proof.
  intros Hf Hall. unfold all_as_built in *. simpl.
  apply Forall_alter; [done|]. intros n _ [[z Hw] Hp].
  destruct (Hf n) as [Hw' Hp']. split; [exists z|]; congruence.
Qed.

Lemma all_as_built_update_out_nodes self f st :
  all_as_built st → all_as_built (update_out_nodes self f st).
Proof. intros Hall. by apply all_as_built_alter. Qed.

Lemma all_as_built_update_in_nodes self f st :
  all_as_built st → all_as_built (update_in_nodes self f st).
Proof.
  intros Hall. unfold update_in_nodes. by destruct (heap_nodes st !! self).
Qed.

Lemma as_built_add_out_node self x :
  preserves all_as_built (add_out_node self x).
Proof.
  unfold add_out_node. apply preserves_bind.
  - destruct x; try apply preserves_ret.
    apply preserves_modify, all_as_built_update_out_nodes.
  - intros _. destruct x; try apply preserves_ret.
    apply preserves_modify, all_as_built_update_out_nodes.
Qed.

Lemma as_built_remove_out_node self x :
  preserves all_as_built (remove_out_node self x).
Proof.
  unfold remove_out_node. apply preserves_bind.
  - destruct x; try apply preserves_ret.
    apply preserves_modify, all_as_built_update_out_nodes.
  - intros _. destruct x; try apply preserves_ret.
    apply preserves_modify, all_as_built_update_out_nodes.
Qed.

Lemma as_built_add_in_node self x :
  preserves all_as_built (add_in_node self x).
Proof.
  unfold add_in_node. apply preserves_bind.
  - destruct x; try apply preserves_ret.
    apply preserves_modify, all_as_built_update_in_nodes.
  - intros _. destruct x; try apply preserves_ret.
    apply preserves_modify, all_as_built_update_in_nodes.
Qed.

Lemma as_built_remove_in_node self x :
  preserves all_as_built (remove_in_node self x).
Proof.
  unfold remove_in_node. apply preserves_bind.
  - destruct x; try apply preserves_ret.
    apply preserves_modify, all_as_built_update_in_nodes.
  - intros _. destruct x; try apply preserves_ret.
    apply preserves_modify, all_as_built_update_in_nodes.
Qed.

Lemma as_built_append_node a : preserves all_as_built (append_node a).
Proof. by apply preserves_modify. Qed.

Lemma as_built_getitem_nodes i : preserves all_as_built (getitem_nodes i).
Proof.
  unfold getitem_nodes. apply preserves_bind; [apply preserves_get|].
  intros st. destruct (nodes st !! i);
    [apply preserves_ret|apply preserves_raise].
Qed.

Lemma as_built_new_object n :
  as_built n → preserves all_as_built (new_object n).
Proof.
  intros Hn st a st' Hall [= _ <-]. unfold all_as_built in *. simpl.
  apply Forall_app. split; [done|]. by apply Forall_singleton.
Qed.

Lemma as_built_Node_init sc i t sh l z :
  preserves all_as_built (Node_init sc i t sh l (WInt z) 10).
Proof.
  unfold Node_init. apply preserves_bind.
  - destruct l; [apply preserves_ret|]. by intros st a st' Hall [= _ <-].
  - intros s. apply as_built_new_object. split; [by eexists|done].
Qed.

Lemma as_built_copy a : preserves all_as_built (copy a).
Proof.
  unfold copy. intros st b st' Hall. rewrite bind_get.
  destruct (heap_nodes st !! a) as [n|] eqn:Hn; [|done].
  apply as_built_new_object; [|done].
  unfold all_as_built in Hall. rewrite Forall_lookup in Hall. by eapply Hall.
Qed.

Lemma as_built_add_output_node new_node node_idx i :
  preserves all_as_built (add_output_node new_node node_idx i).
Proof.
  unfold add_output_node.
  apply preserves_bind; [apply as_built_copy|]. intros out_node.
  apply preserves_bind.
  { apply preserves_modify. intros st. by apply all_as_built_alter. }
  intros _. apply preserves_bind.
  { apply preserves_modify. intros st. by apply all_as_built_alter. }
  intros _. apply preserves_bind; [apply as_built_getitem_nodes|].
  intros previous.
  apply preserves_bind; [apply as_built_add_in_node|]. intros _.
  apply preserves_bind; [apply as_built_getitem_nodes|].
  intros previous'.
  apply preserves_bind; [apply as_built_add_out_node|]. intros _.
  apply as_built_append_node.
Qed.

Lemma as_built_add_output_nodes new_node node_idx slots :
  ∀ i num_extra_nodes,
    preserves all_as_built
      (add_output_nodes new_node node_idx i slots num_extra_nodes).
Proof.
  induction slots as [|o slots IH]; intros i k; simpl.
  - apply preserves_ret.
  - destruct (i =? 0); [apply IH|].
    apply preserves_bind; [apply as_built_add_output_node|].
    intros _. apply IH.
Qed.

Lemma as_built_add_OP_node pos tn k :
  preserves all_as_built (add_OP_node pos tn k).
Proof.
  unfold add_OP_node, _find_encasing_layer.
  apply preserves_bind.
  { apply preserves_bind; [apply preserves_get|]. intros st.
    apply preserves_ret. }
  intros node_scope. apply preserves_bind; [apply preserves_get|].
  intros st. apply preserves_bind; [apply preserves_lift|]. intros members.
  apply preserves_bind. { by intros st0 a st' Hall [= _ <-]. }
  intros input_nodes. apply preserves_bind.
  { destruct (outputs tn); [apply preserves_raise|apply preserves_ret]. }
  intros first. apply preserves_bind; [apply preserves_lift|]. intros shape.
  apply preserves_bind.
  { destruct (bool_decide (node_scope ≠ EmptyString));
      apply as_built_Node_init. }
  intros new_node. apply preserves_bind.
  { apply preserves_for_each. intros x. apply as_built_add_out_node. }
  intros _. apply preserves_bind; [apply as_built_append_node|]. intros _.
  apply as_built_add_output_nodes.
Qed.

Lemma as_built__add_OP_nodes_from (OP_nodes : list TraceNode) :
  ∀ pos k, preserves all_as_built (_add_OP_nodes_from pos OP_nodes k).
Proof.
  induction OP_nodes as [|tn rest IH]; intros pos k; simpl.
  - apply preserves_ret.
  - apply preserves_bind; [apply as_built_add_OP_node|]. intros k'. apply IH.
Qed.

Lemma as_built__add_IO_nodes_from (input_nodes : list TraceInput) :
  ∀ pos, preserves all_as_built (_add_IO_nodes_from pos input_nodes).
Proof.
  induction input_nodes as [|node rest IH]; intros pos; simpl.
  - apply preserves_ret.
  - apply preserves_bind.
    { destruct (sizes node); [apply preserves_ret|apply preserves_raise]. }
    intros dims. apply preserves_bind; [apply preserves_get|]. intros st.
    apply preserves_bind.
    { destruct (pos <? num_inputs st); [apply preserves_ret|].
      destruct (buffer_param_names st !! (pos - num_inputs st));
        [apply preserves_ret|apply preserves_raise]. }
    intros tagged. apply preserves_bind; [apply as_built_Node_init|].
    intros new_node. apply preserves_bind; [apply as_built_append_node|].
    intros _. apply preserves_bind; [by apply preserves_modify|].
    intros _. apply IH.
Qed.

Lemma as_built_connect_around node :
  preserves all_as_built (connect_around node).
Proof.
  unfold connect_around. apply preserves_bind; [apply preserves_get|].
  intros st. apply preserves_bind.
  { apply preserves_for_each. intros in_node.
    apply preserves_bind; [apply as_built_remove_out_node|]. intros _.
    apply preserves_bind; [apply preserves_get|]. intros st1.
    apply as_built_add_out_node. }
  intros _. apply preserves_bind; [apply preserves_get|]. intros st1.
  apply preserves_for_each. intros out_node.
  apply preserves_bind; [apply as_built_remove_in_node|]. intros _.
  apply preserves_bind; [apply preserves_get|]. intros st2.
  apply as_built_add_in_node.
Qed.

Lemma as_built_remove_pass (condition : Condition) (todo : list addr) :
  ∀ changed opt, preserves all_as_built (remove_pass condition todo changed opt).
Proof.
  induction todo as [|node rest IH]; intros changed opt; simpl.
  - apply preserves_ret.
  - apply preserves_bind; [apply preserves_get|]. intros st.
    destruct (condition node st); [|apply IH].
    apply preserves_bind; [apply as_built_connect_around|]. intros _.
    apply IH.
Qed.

Lemma as_built_remove_loop (condition : Condition) (reverse : bool) :
  ∀ fuel, preserves all_as_built (remove_loop fuel condition reverse).
Proof.
  induction fuel as [|fuel IH]; simpl; [apply preserves_stuck|].
  apply preserves_bind; [apply preserves_get|]. intros st.
  apply preserves_bind; [apply as_built_remove_pass|]. intros r.
  apply preserves_bind; [by apply preserves_modify|]. intros _.
  destruct r.1; [apply IH|apply preserves_ret].
Qed.

Lemma as_built__remove_nodes (condition : Condition) (reverse : bool) :
  preserves all_as_built (_remove_nodes condition reverse).
Proof.
  unfold _remove_nodes. apply preserves_bind; [apply preserves_get|].
  intros st. apply as_built_remove_loop.
Qed.

Lemma as_built_normalize_from (todo : list addr) :
  ∀ pos, preserves all_as_built (normalize_from pos todo).
Proof.
  induction todo as [|node rest IH]; intros pos; simpl.
  - apply preserves_ret.
  - apply preserves_bind; [|intros _; apply IH].
    apply preserves_modify. intros st. by apply all_as_built_alter.
Qed.

Lemma as_built__build_graph tg : preserves all_as_built (_build_graph tg).
Proof.
  unfold _build_graph.
  apply preserves_bind; [apply as_built__add_IO_nodes_from|]. intros _.
  apply preserves_bind.
  { unfold _add_OP_nodes. apply preserves_bind;
      [apply as_built__add_OP_nodes_from|]. intros _. apply preserves_ret. }
  intros _. apply preserves_bind; [apply as_built__remove_nodes|]. intros _.
  apply preserves_bind.
  { unfold _remove_nodes_that_go_nowhere.
    apply preserves_bind; [apply preserves_lift|]. intros out_indices.
    apply as_built__remove_nodes. }
  intros _. unfold _normalize_indices.
  apply preserves_bind; [apply preserves_get|]. intros st.
  apply as_built_normalize_from.
Qed.

(** The stages of [_build_graph] on a new graph, when it returns. *)
Lemma _build_graph_stages L n names tg st5 :
  _build_graph tg (initial L n names) = Ok (tt, st5) →
  ∃ st1 st2 st3 st4 out_indices,
    _add_IO_nodes (trace_inputs tg) (initial L n names) = Ok (tt, st1) ∧
    builder_invariant 0 0 st1 ∧
    _add_OP_nodes (trace_nodes tg) st1 = Ok (tt, st2) ∧
    nodes st2 = seq 0 (length (heap_nodes st2)) ∧
    _remove_constant_nodes st2 = Ok (tt, st3) ∧
    map_result int_of_string (trace_outputs tg) = Ok out_indices ∧
    _remove_nodes (going_nowhere out_indices) false st3 = Ok (tt, st4) ∧
    _normalize_indices st4 = Ok (tt, st5).
Proof.
  intros Hbuild. unfold _build_graph in Hbuild.
  apply bind_inv_Ok in Hbuild as ([] & st1 & HIO & Hbuild).
  apply bind_inv_Ok in Hbuild as ([] & st2 & HOP & Hbuild).
  apply bind_inv_Ok in Hbuild as ([] & st3 & Hconst & Hbuild).
  apply bind_inv_Ok in Hbuild as ([] & st4 & Hnowhere & Hnorm).
  unfold _remove_nodes_that_go_nowhere in Hnowhere.
  apply bind_inv_Ok in Hnowhere as (out_indices & st3' & Hout & Hnowhere).
  apply lift_inv_Ok in Hout as [Hout ->].
  exists st1, st2, st3, st4, out_indices.
  assert (builder_invariant 0 0 st1) as Hinv1.
  { destruct (_add_IO_nodes_from_progresses (trace_inputs tg) 0
                (initial L n names)) as [[e He]|(st' & Hrun & Hinv)].
    - by split.
    - unfold _add_IO_nodes in HIO. congruence.
    - unfold _add_IO_nodes in HIO. rewrite HIO in Hrun.
      by injection Hrun as <-. }
  do 3 (split; [done|]). split; [|done].
  unfold _add_OP_nodes in HOP.
  apply bind_inv_Ok in HOP as (k & st2' & HOP & [= <-]).
  by destruct (ends_in_inv _ _ _ _
    (_add_OP_nodes_from_progresses (trace_nodes tg) 0 0 st1 Hinv1) HOP).
Qed.

(** The nodes of a graph that [_build_graph] returns are distinct objects
    of the store. *)
Lemma _build_graph_allocated L n names tg st5 :
  _build_graph tg (initial L n names) = Ok (tt, st5) →
  NoDup (nodes st5) ∧ ∀ a, a ∈ nodes st5 → a < length (heap_nodes st5).
Proof.
  intros Hbuild.
  destruct (_build_graph_stages _ _ _ _ _ Hbuild)
    as (st1 & st2 & st3 & st4 & out_indices & _ & _ & _ & Hseq & Hconst & _
        & Hnowhere & Hnorm).
  destruct (distinct_objects_after_removal is_constant st2 st3)
    as [Hnd3 Halloc3]; [done|done|rewrite Hseq; apply NoDup_seq| |].
  { intros a Ha. rewrite Hseq in Ha. apply elem_of_seq in Ha. lia. }
  destruct (distinct_objects_after_removal (going_nowhere out_indices)
              st3 st4) as [Hnd4 Halloc4]; [done..|].
  destruct (normalize_from_spec (nodes st4) 0 st4 Hnd4)
    as (h & Hrun & Hother & Hpos).
  unfold _normalize_indices in Hnorm. rewrite bind_get, Hrun in Hnorm.
  injection Hnorm as <-. simpl. split; [done|].
  intros a Ha. specialize (Halloc4 a Ha).
  apply list_elem_of_lookup in Ha as [p Hp].
  specialize (Hpos p a Hp).
  destruct (lookup_lt_is_Some_2 _ _ Halloc4) as [m Hm].
  rewrite Hm in Hpos. simpl in Hpos. by apply lookup_lt_Some in Hpos.
Qed.

Lemma nodew_weights_ints (nodew : list Weight) :
  Forall (λ w, ∃ z, w = WInt z) nodew →
  nodew_weights nodew = Ok (replicate (length nodew) 0%Z).
Proof.
  unfold nodew_weights. induction 1 as [|w l [z ->] _ IH]; simpl; [done|].
  by rewrite IH.
Qed.

(** In a graph that the constructor returns, the weight of a node is the
    value that [weights] holds under the scope of the node, and the [int]
    that construction computed when [weights] has no such key; [part] is 10
    on every node. With no overrides (the default of
    [build_graph_from_trace] and of [partition_model]) every weight is thus
    an [int], and [weight_func] turns the weight vector of the graph into
    zeros. *)
Theorem Graph_init_weights (L : list string) (n : nat)
    (names : list string) (tg : TraceGraph) (weights : gmap string Weight)
    (st : State) :
  Graph_init L n names tg weights = Ok st →
  (∀ a, a ∈ nodes st →
     ∃ node, heap_nodes st !! a = Some node ∧ part node = 10%Z ∧
       match weights !! scope node with
       | Some w => weight node = w
       | None => ∃ z, weight node = WInt z
       end) ∧
  (weights = ∅ →
   nodew_weights (get_weights st) = Ok (replicate (length (nodes st)) 0%Z)).
Proof.
  unfold Graph_init. intros Hinit.
  destruct ((let! _ := _build_graph tg in overlay_weights weights)
              (initial L n names)) as [[[] st6]|e|] eqn:Hrun; [|done..].
  injection Hinit as ->.
  apply bind_inv_Ok in Hrun as ([] & st5 & Hbuild & Hoverlay).
  destruct (_build_graph_allocated _ _ _ _ _ Hbuild) as [_ Halloc].
  assert (all_as_built st5) as Hall.
  { eapply as_built__build_graph; [|exact Hbuild]. by apply Forall_nil. }
  destruct (overlay_loop_spec weights (nodes st5) st5)
    as (h' & Hrun' & Hin & _).
  unfold overlay_weights in Hoverlay. rewrite bind_get, Hrun' in Hoverlay.
  injection Hoverlay as <-. simpl.
  assert (∀ a, a ∈ nodes st5 →
     ∃ node, h' !! a = Some node ∧ part node = 10%Z ∧
       match weights !! scope node with
       | Some w => weight node = w
       | None => ∃ z, weight node = WInt z
       end) as Hnodes.
  { intros a Ha.
    destruct (lookup_lt_is_Some_2 _ _ (Halloc a Ha)) as [m Hm].
    unfold all_as_built in Hall. rewrite Forall_lookup in Hall.
    destruct (Hall a m Hm) as [[z Hz] Hpart].
    exists (override weights m). rewrite (Hin a Ha), Hm.
    split; [done|]. unfold override. simpl. split; [done|].
    destruct (weights !! scope m); simpl; [done|]. by exists z. }
  split; [exact Hnodes|]. intros ->.
  unfold get_weights. simpl.
  rewrite nodew_weights_ints; [by rewrite length_fmap|].
  apply Forall_fmap, Forall_forall. intros a Ha.
  destruct (Hnodes a Ha) as (node & Hnode & _ & Hw).
  rewrite lookup_empty in Hw. destruct Hw as [z Hz].
  exists z. unfold weight_of. simpl. by rewrite Hnode.
Qed.

Lemma Graph_init_weights_witness :
  ∃ st,
    Graph_init fc1_layers 1 fc1_params fc1_trace ∅ = Ok st ∧
    nodew_weights (get_weights st) = Ok [0; 0; 0; 0]%Z.
Proof.
  assert (∃ st, Graph_init fc1_layers 1 fc1_params fc1_trace ∅ = Ok st
                ∧ length (nodes st) = 4) as (st & Hst & Hlen).
  { eexists. vm_compute. split; reflexivity. }
  exists st. split; [exact Hst|].
  destruct (Graph_init_weights _ _ _ _ _ _ Hst) as [_ Hzero].
  rewrite Hzero by reflexivity. by rewrite Hlen.
Defined.

(** ** utils.py: nested tensors *)

(** Induction on a nested value, with the hypothesis for every item of a
    list or tuple. *)
Lemma Nested_induction {A} (P : Nested A → Prop) :
  (∀ a, P (Leaf a)) →
  (∀ l, Forall P l → P (PyList l)) →
  (∀ l, Forall P l → P (PyTuple l)) →
  (∀ name, P (Other name)) →
  ∀ x, P x.
Proof.
  intros HLeaf HList HTuple HOther.
  fix IH 1. intros [a|l|l|name].
  - apply HLeaf.
  - apply HList. induction l as [|x l IHl]; constructor; [apply IH|exact IHl].
  - apply HTuple. induction l as [|x l IHl]; constructor; [apply IH|exact IHl].
  - apply HOther.
Qed.

Lemma map_result_total {A B} (f : A → result B) (g : A → B) (l : list A) :
  Forall (λ x, f x = Ok (g x)) l → map_result f l = Ok (map g l).
Proof. induction 1 as [|x l Hx _ IH]; simpl; [done|]. by rewrite Hx, IH. Qed.

Lemma map_result_ext {A B} (f f' : A → result B) (l : list A) :
  Forall (λ x, f x = f' x) l → map_result f l = map_result f' l.
Proof. induction 1 as [|x l Hx _ IH]; simpl; [done|]. by rewrite Hx, IH. Qed.

Lemma map_result_first_error {A B} (f : A → result B) (g : A → B)
    (ok : A → bool) (e : exn) (l : list A) :
  Forall (λ x, f x = if ok x then Ok (g x) else Raise e) l →
  map_result f l = if forallb ok l then Ok (map g l) else Raise e.
Proof.
  induction 1 as [|x l Hx _ IH]; simpl; [done|]. rewrite Hx.
  destruct (ok x); simpl; [|done]. rewrite IH. by destruct (forallb ok l).
Qed.

(** [tensorsMap(f, tensors)] keeps the structure: for an [f] that returns
    on every tensor, the result has [f] applied to each leaf of [tensors]
    and the same lists and tuples around them, when [tensors] is made of
    tensors, lists and tuples only; otherwise the call raises
    [ValueError]. *)
Theorem tensorsMap_keeps_structure {A B} (f : A → result B) (g : A → B)
    (tensors : Nested A) :
  (∀ t, f t = Ok (g t)) →
  tensorsMap f tensors =
  if supported tensors then Ok (nested_map g tensors) else Raise ValueError.
Proof.
  intros Hf. induction tensors as [t|l IH|l IH|name] using Nested_induction;
    simpl; [by rewrite Hf| | |done].
  - rewrite (map_result_first_error _ (nested_map g) supported ValueError)
      by exact IH.
    by destruct (forallb supported l).
  - rewrite (map_result_first_error _ (nested_map g) supported ValueError)
      by exact IH.
    by destruct (forallb supported l).
Qed.

Lemma tensorsMap_keeps_structure_witness :
  tensorsMap (λ t, Ok (shape t))
    (PyTuple [Leaf (mkTensor [5; 10]%Z "cpu" 4 true);
              PyList [Leaf (mkTensor [3]%Z "cpu" 4 false)]])
  = Ok (PyTuple [Leaf [5; 10]%Z; PyList [Leaf [3]%Z]]).
Proof.
  rewrite (tensorsMap_keeps_structure _ shape) by reflexivity. reflexivity.
Defined.

Lemma detached_item_spec (x : Nested Tensor) :
  detached_item x =
  if supported x then Ok (nested_map detach x) else Raise ValueError.
Proof.
  induction x as [t|l IH|l IH|name] using Nested_induction;
    simpl; [done| | |done].
  - rewrite (map_result_first_error _ (nested_map detach) supported
               ValueError).
    + by destruct (forallb supported l).
    + eapply Forall_impl; [exact IH|]. intros a Ha. simpl. rewrite Ha.
      by destruct (supported a).
  - rewrite (map_result_first_error _ (nested_map detach) supported
               ValueError).
    + by destruct (forallb supported l).
    + eapply Forall_impl; [exact IH|]. intros a Ha. simpl. rewrite Ha.
      by destruct (supported a).
Qed.

(** [_detach_inputs] returns its one input with every tensor detached and
    the lists and tuples as they were, not wrapped in a tuple; called with
    no input or with several, it returns the tuple of the detached inputs.
    An object that is no tensor, list or tuple, at any depth, makes it raise
    [ValueError]. *)
Theorem _detach_inputs_spec (inputs : list (Nested Tensor)) :
  _detach_inputs inputs =
  if forallb supported inputs then
    Ok (match inputs with
        | [x] => nested_map detach x
        | _ => PyTuple (map (nested_map detach) inputs)
        end)
  else Raise ValueError.
Proof.
  unfold _detach_inputs.
  rewrite (map_result_first_error _ (nested_map detach) supported ValueError).
  - destruct (forallb supported inputs); [|done]. simpl.
    by destruct inputs as [|x [|y l]].
  - apply Forall_forall. intros x _. apply detached_item_spec.
Qed.

Lemma shape_item_spec (x : Nested Tensor) :
  shape_item x =
  if supported x then Ok (nested_map (λ t, tail (shape t)) x)
  else Raise ValueError.
Proof.
  induction x as [t|l IH|l IH|name] using Nested_induction;
    simpl; [done| | |done].
  - rewrite (map_result_first_error _ (nested_map (λ t, tail (shape t)))
               supported ValueError) by exact IH.
    by destruct (forallb supported l).
  - rewrite (map_result_first_error _ (nested_map (λ t, tail (shape t)))
               supported ValueError) by exact IH.
    by destruct (forallb supported l).
Qed.

(** [_get_shape] returns a tuple with one entry per input: the input with
    every tensor replaced by its shape without the first dimension (the
    empty shape when the tensor has no dimension), lists staying lists and
    tuples staying tuples. An object of another type, at any depth, makes
    it raise [ValueError]. *)
Theorem _get_shape_spec (inputs : list (Nested Tensor)) :
  _get_shape inputs =
  if forallb supported inputs then
    Ok (PyTuple (map (nested_map (λ t, tail (shape t))) inputs))
  else Raise ValueError.
Proof.
  unfold _get_shape.
  rewrite (map_result_first_error _ (nested_map (λ t, tail (shape t)))
             supported ValueError).
  - by destruct (forallb supported inputs).
  - apply Forall_forall. intros x _. apply shape_item_spec.
Qed.

Lemma foldl_Z_add (l : list Z) (acc : Z) :
  foldl Z.add acc l = (acc + foldr Z.add 0 l)%Z.
Proof.
  revert acc. induction l as [|z l IH]; intros acc; simpl; [lia|].
  rewrite IH. lia.
Qed.

Lemma foldl_Nat_add (l : list nat) (acc : nat) :
  foldl Nat.add acc l = acc + foldr Nat.add 0 l.
Proof.
  revert acc. induction l as [|z l IH]; intros acc; simpl; [lia|].
  rewrite IH. lia.
Qed.

Lemma foldr_Z_add_acc (l : list Z) (acc : Z) :
  foldr Z.add acc l = (foldr Z.add 0 l + acc)%Z.
Proof. induction l as [|z l IH]; simpl; [lia|]. rewrite IH. lia. Qed.

Lemma foldr_Nat_add_acc (l : list nat) (acc : nat) :
  foldr Nat.add acc l = foldr Nat.add 0 l + acc.
Proof. induction l as [|z l IH]; simpl; [lia|]. rewrite IH. lia. Qed.

Lemma sum_flat_map {A} (f : A → list Z) (l : list A) :
  foldr Z.add 0%Z (flat_map f l)
  = foldr Z.add 0%Z (map (λ a, foldr Z.add 0%Z (f a)) l).
Proof.
  induction l as [|a l IH]; simpl; [done|].
  rewrite foldr_app, foldr_Z_add_acc, IH. done.
Qed.

Lemma fmap_flat_map {A B C} (g : B → C) (f : A → list B) (l : list A) :
  g <$> flat_map f l = flat_map (λ a, g <$> f a) l.
Proof.
  induction l as [|a l IH]; simpl; [done|]. by rewrite fmap_app, IH.
Qed.

Lemma size_item_spec (x : Nested Tensor) :
  size_item x =
  if supported x then Ok (foldr Z.add 0%Z (tensor_bytes <$> leaves x))
  else Raise ValueError.
Proof.
  assert (∀ l : list (Nested Tensor),
    Forall (λ x, size_item x =
      if supported x then Ok (foldr Z.add 0%Z (tensor_bytes <$> leaves x))
      else Raise ValueError) l →
    on_Ok (foldl Z.add 0%Z)
      (map_result
         (λ a, on_Ok (foldl Z.add 0%Z) (map_result size_item [a])) l)
    = if forallb supported l
      then Ok (foldr Z.add 0%Z (tensor_bytes <$> flat_map leaves l))
      else Raise ValueError) as Hitems.
  { intros l IH.
    rewrite (map_result_first_error _
               (λ a, foldr Z.add 0%Z (tensor_bytes <$> leaves a))
               supported ValueError).
    - destruct (forallb supported l); [|done]. simpl. f_equal.
      by rewrite foldl_Z_add, Z.add_0_l, fmap_flat_map, sum_flat_map.
    - eapply Forall_impl; [exact IH|]. intros a Ha. simpl. rewrite Ha.
      by destruct (supported a). }
  induction x as [t|l IH|l IH|name] using Nested_induction; simpl.
  - unfold tensor_bytes. f_equal. lia.
  - by apply Hitems.
  - by apply Hitems.
  - done.
Qed.

Lemma count_item_spec (x : Nested Tensor) :
  count_item x =
  if supported x then Ok (length (leaves x)) else Raise ValueError.
Proof.
  assert (∀ l : list (Nested Tensor),
    Forall (λ x, count_item x =
      if supported x then Ok (length (leaves x)) else Raise ValueError) l →
    on_Ok (foldl Nat.add 0) (map_result count_item l)
    = if forallb supported l then Ok (length (flat_map leaves l))
      else Raise ValueError) as Hitems.
  { intros l IH.
    rewrite (map_result_first_error _ (λ a, length (leaves a))
               supported ValueError) by exact IH.
    destruct (forallb supported l); [|done]. simpl. f_equal.
    rewrite foldl_Nat_add. simpl. clear IH.
    induction l as [|a l IHl]; simpl; [done|].
    rewrite length_app. by rewrite IHl. }
  induction x as [t|l IH|l IH|name] using Nested_induction; simpl;
    [done|by apply Hitems|by apply Hitems|done].
Qed.

(** [_get_size] returns the bytes of all the tensors in its inputs, at any
    depth: the sum of [nelement() * element_size()] over them; and
    [_count_elements] returns how many tensors there are. Both are 0 for no
    input and for empty lists and tuples, and both raise [ValueError] when
    an object that is no tensor, list or tuple occurs at any depth. *)
Theorem _get_size_and_count_spec (inputs : list (Nested Tensor)) :
  let tensors := flat_map leaves inputs in
  _get_size inputs =
    (if forallb supported inputs
     then Ok (foldr Z.add 0%Z (tensor_bytes <$> tensors))
     else Raise ValueError) ∧
  _count_elements inputs =
    (if forallb supported inputs then Ok (length tensors)
     else Raise ValueError).
Proof.
  split.
  - unfold _get_size.
    rewrite (map_result_first_error _
               (λ a, foldr Z.add 0%Z (tensor_bytes <$> leaves a))
               supported ValueError).
    + destruct (forallb supported inputs); [|done]. simpl. f_equal.
      by rewrite foldl_Z_add, Z.add_0_l, fmap_flat_map, sum_flat_map.
    + apply Forall_forall. intros x _. apply size_item_spec.
  - unfold _count_elements.
    rewrite (map_result_first_error _ (λ a, length (leaves a))
               supported ValueError).
    + destruct (forallb supported inputs); [|done]. simpl. f_equal.
      rewrite foldl_Nat_add. simpl.
      induction inputs as [|a l IHl]; simpl; [done|].
      rewrite length_app. by rewrite IHl.
    + apply Forall_forall. intros x _. apply count_item_spec.
Qed.

Lemma get_device_first_items (x y : Nested Tensor) :
  first_items x y → get_device x = get_device y.
Proof. induction 1; simpl; congruence. Qed.

Lemma first_items_end {A} (x : Nested A) :
  ∃ y, first_items x y ∧
    match y with
    | PyList (_ :: _) | PyTuple (_ :: _) => False
    | _ => True
    end.
Proof.
  induction x as [t|l IH|l IH|name] using Nested_induction.
  - exists (Leaf t). split; [constructor|done].
  - destruct l as [|a l].
    + exists (PyList []). split; [constructor|done].
    + apply Forall_cons in IH as [(y & Hy & Hend) _].
      exists y. split; [by constructor|done].
  - destruct l as [|a l].
    + exists (PyTuple []). split; [constructor|done].
    + apply Forall_cons in IH as [(y & Hy & Hend) _].
      exists y. split; [by constructor|done].
  - exists (Other name). split; [constructor|done].
Qed.

Lemma first_items_leaves (x : Nested Tensor) t :
  first_items x (Leaf t) → ∃ rest, leaves x = t :: rest.
Proof.
  intros Hx. remember (Leaf t) as y eqn:Hy.
  induction Hx as [x|a l y Hx IH|a l y Hx IH]; subst.
  - by exists [].
  - destruct (IH eq_refl) as [rest Hrest]. simpl. rewrite Hrest.
    by eexists.
  - destruct (IH eq_refl) as [rest Hrest]. simpl. rewrite Hrest.
    by eexists.
Qed.

(** [get_device] follows the first item of each list or tuple down: it
    returns the device of the tensor that this reaches, which is the first
    tensor of [x]; it raises [IndexError] exactly when it reaches an empty
    list or tuple, also when tensors follow, and [ValueError] exactly when
    it reaches an object of another type. It raises nothing else. *)
Theorem get_device_spec (x : Nested Tensor) :
  (∀ d, get_device x = Ok d ↔ ∃ t, first_items x (Leaf t) ∧ device t = d) ∧
  (∀ d, get_device x = Ok d →
     ∃ t rest, leaves x = t :: rest ∧ device t = d) ∧
  (get_device x = Raise IndexError ↔
   first_items x (PyList []) ∨ first_items x (PyTuple [])) ∧
  (get_device x = Raise ValueError ↔ ∃ name, first_items x (Other name)) ∧
  (∀ rest, get_device (PyList (PyList [] :: rest)) = Raise IndexError ∧
           get_device (PyTuple (PyTuple [] :: rest)) = Raise IndexError) ∧
  (∀ name rest, get_device (PyList (Other name :: rest)) = Raise ValueError) ∧
  (∀ e, get_device x = Raise e → e = IndexError ∨ e = ValueError) ∧
  get_device x ≠ Stuck.
Proof.
  destruct (first_items_end x) as (y & Hy & Hend).
  pose proof (get_device_first_items x y Hy) as Hxy.
  assert (∀ d, get_device x = Ok d →
            ∃ t, first_items x (Leaf t) ∧ device t = d) as Hok.
  { intros d Hd. rewrite Hxy in Hd.
    destruct y as [t|[|a l]|[|a l]|name]; try done.
    exists t. split; [done|]. simpl in Hd. congruence. }
  split; [|split; [|split; [|split; [|split; [done|split; [done|split]]]]]].
  - intros d. split; [apply Hok|].
    intros (t & Ht & <-). by rewrite (get_device_first_items x _ Ht).
  - intros d Hd. destruct (Hok d Hd) as (t & Ht & Hdev).
    destruct (first_items_leaves x t Ht) as [rest Hrest]. by exists t, rest.
  - split.
    + intros He. rewrite Hxy in He.
      destruct y as [t|[|a l]|[|a l]|name]; try done; tauto.
    + intros [Hz|Hz]; by rewrite (get_device_first_items x _ Hz).
  - split.
    + intros He. rewrite Hxy in He.
      destruct y as [t|[|a l]|[|a l]|name]; try done. by exists name.
    + intros [name Hz]. by rewrite (get_device_first_items x _ Hz).
  - intros e He. rewrite Hxy in He.
    destruct y as [t|[|a l]|[|a l]|name]; try done; simpl in He;
      [left|left|right]; congruence.
  - rewrite Hxy. by destruct y as [t|[|a l]|[|a l]|name].
Qed.

(** ** Module trees *)

(** Induction on a module, with the hypothesis for every sub-module. *)
Lemma nnModule_induction (P : nnModule → Prop) :
  (∀ m, (∀ name sub, (name, Some sub) ∈ _modules m → P sub) → P m) →
  ∀ m, P m.
Proof.
  intros Hstep.
  enough (∀ m, Forall (λ item, ∀ sub, item.2 = Some sub → P sub) (_modules m)
               → P m) as Hstep'.
  { fix IH 1. intros [cn bn i ps bs items]. apply Hstep'. simpl.
    induction items as [|[name [sub|]] items IHitems]; constructor;
      try exact IHitems; simpl.
    - intros sub' [= <-]. apply IH.
    - intros sub' [=]. }
  intros m Hall. apply Hstep. intros name sub Hin.
  rewrite Forall_forall in Hall. by apply (Hall _ Hin).
Qed.

Lemma _profiled_layers_unfold module depth prefix basic_block :
  _profiled_layers module depth prefix basic_block =
  _profiled_layers_loop
    (λ sub_module scope,
       _profiled_layers sub_module (depth - 1) scope basic_block)
    depth prefix basic_block (_modules module) [].
Proof. by destruct module. Qed.

Lemma _traverse_model_unfold module depth prefix basic_blocks full :
  _traverse_model module depth prefix basic_blocks full =
  _traverse_model_loop
    (λ sub_module scope,
       _traverse_model sub_module (depth - 1) scope basic_blocks full)
    module depth prefix basic_blocks full (_modules module) [].
Proof. by destruct module. Qed.

Lemma _buffer_and_params_scopes_unfold module prefix :
  _buffer_and_params_scopes module prefix =
  _buffer_and_params_scopes_loop _buffer_and_params_scopes prefix
    (_modules module)
    (((λ '(item_name, item), member_scope prefix item_name item)
        <$> named_parameters module)
     ++ ((λ '(item_name, item), member_scope prefix item_name item)
           <$> named_buffers module)).
Proof. by destruct module. Qed.

Lemma _traverse_params_buffs_unfold module prefix :
  _traverse_params_buffs module prefix =
  ((λ '(param_name, param), (param, member_scope prefix param_name param))
     <$> named_parameters module)
  ++ ((λ '(buffer_name, buffer),
         (buffer, member_scope prefix buffer_name buffer))
        <$> named_buffers module)
  ++ _traverse_params_buffs_loop _traverse_params_buffs prefix
       (_modules module) [].
Proof. by destruct module. Qed.

Lemma all_modules_impl (P Q : nnModule → Prop) items :
  all_modules P items →
  (∀ name sub, (name, Some sub) ∈ items → P sub → Q sub) →
  all_modules Q items.
Proof.
  induction items as [|[name [sub|]] items IH]; simpl; [done| |done].
  intros [HP Hall] Himpl. split.
  - apply (Himpl name); [apply list_elem_of_here|done].
  - apply IH; [done|]. intros name' sub' Hin.
    apply (Himpl name'). by apply list_elem_of_further.
Qed.

Lemma _profiled_layers_loop_traverse
    (belowP : nnModule → string → result (list string))
    (belowT : nnModule → string → list (nnModule * string * nnModule))
    (self : nnModule) depth prefix bb items :
  ∀ names memo,
    NoDup (idents items) → (∀ x, x ∈ idents items → x ∉ memo) →
    all_modules
      (λ sub, ∀ scope,
         belowP sub scope = Ok ((λ t, t.1.2) <$> belowT sub scope)) items →
    _profiled_layers_loop belowP depth prefix bb items names
    = Ok (names ++ ((λ t, t.1.2) <$>
            _traverse_model_loop belowT self depth prefix bb false items
              memo)).
Proof.
  induction items as [|[name [sub|]] items IH];
    intros names memo Hnd Hmemo Hall; simpl.
  - by rewrite app_nil_r.
  - unfold idents in Hnd, Hmemo. simpl in Hnd, Hmemo, Hall.
    apply NoDup_cons in Hnd as [Hsub Hnd]. destruct Hall as [Hbelow Hall].
    rewrite bool_decide_eq_false_2
      by (apply Hmemo; apply list_elem_of_here).
    assert (∀ x, x ∈ idents items → x ∉ ident sub :: memo) as Hmemo'.
    { intros x Hx Hin. apply elem_of_cons in Hin as [->|Hin]; [done|].
      eapply Hmemo; [|exact Hin]. by apply list_elem_of_further. }
    destruct (taken_whole sub depth bb).
    + rewrite (IH _ _ Hnd Hmemo' Hall). simpl. by rewrite <- app_assoc.
    + rewrite Hbelow, (IH _ _ Hnd Hmemo' Hall). simpl.
      by rewrite fmap_app, app_assoc.
  - done.
Qed.

Lemma _profiled_layers_traverse (module : nnModule) :
  ∀ depth prefix basic_block,
    regular module →
    _profiled_layers module depth prefix basic_block
    = Ok ((λ t, t.1.2)
            <$> _traverse_model module depth prefix basic_block false).
Proof.
  induction module as [m IH] using nnModule_induction.
  intros depth prefix bb Hreg.
  rewrite _profiled_layers_unfold, _traverse_model_unfold.
  destruct m as [cn bn i ps bs items]. destruct Hreg as [Hnd Hall].
  simpl in *.
  rewrite (_profiled_layers_loop_traverse _
             (λ sub_module scope,
                _traverse_model sub_module (depth - 1) scope bb false)
             (mkModule cn bn i ps bs items) _ _ _ _ [] []); [done|done| |].
  - intros x _ Hx. by apply elem_of_nil in Hx.
  - eapply all_modules_impl; [exact Hall|]. intros name sub Hin Hsub scope.
    by apply (IH name).
Qed.

(** The scopes of the profiled layers that [build_graph_from_trace] hands
    to the graph (line 18) are the scopes that [model_scopes] of utils.py
    lists for the same depth, when the basic blocks are [None] or a tuple
    of classes, every entry of [_modules], at every level, holds a module,
    and no two entries of one module hold the same object. On such basic
    blocks the condition of line 364 of control_flow_graph.py and that of
    line 41 of utils.py give the same answer and raise nothing. They differ
    on other values: with a list of classes line 364 raises [TypeError]
    where line 41 tests the classes of the list, and with a single class
    line 41 raises [TypeError] where line 364 tests the class. *)
Theorem _profiled_layers_are_model_scopes (model : nnModule) (max_depth : Z)
    (classes : option (list string)) :
  regular model →
  (∀ sub_module depth,
     taken_whole_if sub_module depth
       (basic_block_test sub_module (TupleOfClasses <$> classes))
     = Ok (taken_whole sub_module depth classes) ∧
     taken_whole_if sub_module depth
       (basic_blocks_test sub_module (TupleOfClasses <$> classes))
     = Ok (taken_whole sub_module depth classes)) ∧
  _profiled_layers model max_depth (class_name model) classes
  = Ok (model_scopes model max_depth classes false) ∧
  (∀ sub_module l,
     basic_block_test sub_module (Some (ListOfClasses l)) = Raise TypeError ∧
     basic_blocks_test sub_module (Some (ListOfClasses l))
     = Ok (isinstance sub_module l)) ∧
  (∀ sub_module c,
     basic_block_test sub_module (Some (AClass c))
     = Ok (isinstance sub_module [c]) ∧
     basic_blocks_test sub_module (Some (AClass c)) = Raise TypeError).
Proof.
  intros Hreg. split; [|split; [by apply _profiled_layers_traverse|done]].
  intros sub depth. unfold taken_whole_if, taken_whole.
  destruct (length (children sub) =? 0); [by destruct classes|].
  by destruct classes.
Qed.

Lemma _profiled_layers_are_model_scopes_witness :
  _profiled_layers net_model 100 "Net" (Some ["Sequential"])
  = Ok ["Net/Linear[fc1]"; "Net/Sequential[body]"].
Proof.
  assert (regular net_model) as Hreg.
  { simpl. unfold idents. simpl. repeat split; by_computing. }
  destruct (_profiled_layers_are_model_scopes net_model 100
              (Some ["Sequential"]) Hreg) as (_ & Hscopes & _).
  etrans; [exact Hscopes|]. vm_compute. reflexivity.
Defined.

Lemma member_scopes_fmap (prefix : string) (l : list (string * Member)) :
  ((λ '(name, item), (item, member_scope prefix name item)) <$> l).*2
  = (λ '(name, item), member_scope prefix name item) <$> l.
Proof.
  induction l as [|[name item] l IH]; simpl; [done|]. f_equal. exact IH.
Qed.

Lemma _buffer_and_params_scopes_loop_traverse
    (belowP : nnModule → string → result (list string))
    (belowT : nnModule → string → list (Member * string)) prefix items :
  ∀ names memo,
    NoDup (idents items) → (∀ x, x ∈ idents items → x ∉ memo) →
    all_modules
      (λ sub, ∀ scope, belowP sub scope = Ok (belowT sub scope).*2) items →
    _buffer_and_params_scopes_loop belowP prefix items names
    = Ok (names ++ (_traverse_params_buffs_loop belowT prefix items memo).*2).
Proof.
  induction items as [|[name [sub|]] items IH];
    intros names memo Hnd Hmemo Hall; simpl.
  - by rewrite app_nil_r.
  - unfold idents in Hnd, Hmemo. simpl in Hnd, Hmemo, Hall.
    apply NoDup_cons in Hnd as [Hsub Hnd]. destruct Hall as [Hbelow Hall].
    rewrite bool_decide_eq_false_2
      by (apply Hmemo; apply list_elem_of_here).
    assert (∀ x, x ∈ idents items → x ∉ ident sub :: memo) as Hmemo'.
    { intros x Hx Hin. apply elem_of_cons in Hin as [->|Hin]; [done|].
      eapply Hmemo; [|exact Hin]. by apply list_elem_of_further. }
    rewrite Hbelow, (IH _ _ Hnd Hmemo' Hall).
    by rewrite fmap_app, app_assoc.
  - done.
Qed.

Lemma _buffer_and_params_scopes_traverse (module : nnModule) :
  ∀ prefix,
    regular module →
    _buffer_and_params_scopes module prefix
    = Ok (_traverse_params_buffs module prefix).*2.
Proof.
  induction module as [m IH] using nnModule_induction.
  intros prefix Hreg.
  rewrite _buffer_and_params_scopes_unfold, _traverse_params_buffs_unfold.
  destruct m as [cn bn i ps bs items]. destruct Hreg as [Hnd Hall].
  simpl in *.
  rewrite (_buffer_and_params_scopes_loop_traverse _ _traverse_params_buffs
             _ _ _ []); [|done| |].
  - by rewrite !fmap_app, !member_scopes_fmap, app_assoc.
  - intros x _ Hx. by apply elem_of_nil in Hx.
  - eapply all_modules_impl; [exact Hall|]. intros name sub Hin Hsub scope.
    by apply (IH name).
Qed.

(** The scopes of the parameters and buffers that [build_graph_from_trace]
    hands to the graph (line 14) are, in the same order, the scopes that
    [traverse_params_buffs] of utils.py yields, when every entry of
    [_modules], at every level, holds a module, and no two entries of one
    module hold the same object: own parameters first, then own buffers,
    then those of the sub-modules. *)
Theorem _buffer_and_params_scopes_are_traversed (model : nnModule) :
  regular model →
  _buffer_and_params_scopes model (class_name model)
  = Ok (traverse_params_buffs model).*2.
Proof. intros Hreg. by apply _buffer_and_params_scopes_traverse. Qed.

Lemma _buffer_and_params_scopes_are_traversed_witness :
  _buffer_and_params_scopes net_model "Net"
  = Ok ["Net/Linear[fc1]/Parameter[weight]"; "Net/Linear[fc1]/Parameter[bias]";
        "Net/Sequential[body]/Linear[0]/Parameter[weight]";
        "Net/Sequential[body]/Linear[0]/Parameter[bias]"].
Proof.
  etrans; [apply (_buffer_and_params_scopes_are_traversed net_model)|].
  - simpl. unfold idents. simpl. repeat split; by_computing.
  - vm_compute. reflexivity.
Defined.

(** *** An entry of [_modules] that holds [None] *)

Lemma _profiled_layers_loop_AttributeError
    (below : nnModule → string → result (list string)) depth prefix bb items :
  ∀ names,
    (∀ name sub, (name, Some sub) ∈ items → ∀ scope,
       (∃ l, below sub scope = Ok l) ∨ below sub scope = Raise AttributeError) →
    ((∃ l, _profiled_layers_loop below depth prefix bb items names = Ok l) ∧
     all_modules (λ _, True) items) ∨
    _profiled_layers_loop below depth prefix bb items names
    = Raise AttributeError.
Proof.
  induction items as [|[name [sub|]] items IH]; intros names Hbelow; simpl.
  - left. split; [by eexists|done].
  - assert (∀ name0 sub0, (name0, Some sub0) ∈ items → ∀ scope,
      (∃ l, below sub0 scope = Ok l) ∨ below sub0 scope = Raise AttributeError)
      as Hbelow'.
    { intros name0 sub0 Hin. apply (Hbelow name0).
      by apply list_elem_of_further. }
    destruct (taken_whole sub depth bb).
    + destruct (IH (names ++ [sub_scope prefix sub name]) Hbelow')
        as [[Hok Hall]|Hraise]; [left|by right]. by split.
    + destruct (Hbelow name sub (list_elem_of_here _ _)
                  (sub_scope prefix sub name)) as [[l ->]| ->]; [|by right].
      destruct (IH (names ++ l) Hbelow') as [[Hok Hall]|Hraise];
        [left|by right]. by split.
  - by right.
Qed.

Lemma _buffer_and_params_scopes_loop_AttributeError
    (below : nnModule → string → result (list string)) prefix items :
  ∀ names,
    (∀ name sub, (name, Some sub) ∈ items → ∀ scope,
       (∃ l, below sub scope = Ok l) ∨ below sub scope = Raise AttributeError) →
    ((∃ l, _buffer_and_params_scopes_loop below prefix items names = Ok l) ∧
     all_modules (λ _, True) items) ∨
    _buffer_and_params_scopes_loop below prefix items names
    = Raise AttributeError.
Proof.
  induction items as [|[name [sub|]] items IH]; intros names Hbelow; simpl.
  - left. split; [by eexists|done].
  - assert (∀ name0 sub0, (name0, Some sub0) ∈ items → ∀ scope,
      (∃ l, below sub0 scope = Ok l) ∨ below sub0 scope = Raise AttributeError)
      as Hbelow'.
    { intros name0 sub0 Hin. apply (Hbelow name0).
      by apply list_elem_of_further. }
    destruct (Hbelow name sub (list_elem_of_here _ _)
                (sub_scope prefix sub name)) as [[l ->]| ->]; [|by right].
    destruct (IH (names ++ l) Hbelow') as [[Hok Hall]|Hraise];
      [left|by right]. by split.
  - by right.
Qed.

Lemma all_modules_no_None (P : nnModule → Prop) items name :
  all_modules P items → (name, None) ∉ items.
Proof.
  induction items as [|[name' [sub|]] items IH]; simpl.
  - intros _ Hin. by apply elem_of_nil in Hin.
  - intros [_ Hall] Hin. apply elem_of_cons in Hin as [[=]|Hin]. by apply IH.
  - done.
Qed.

Lemma _profiled_layers_progress (module : nnModule) :
  ∀ depth prefix bb,
    ((∃ l, _profiled_layers module depth prefix bb = Ok l) ∧
     all_modules (λ _, True) (_modules module)) ∨
    _profiled_layers module depth prefix bb = Raise AttributeError.
Proof.
  induction module as [m IH] using nnModule_induction.
  intros depth prefix bb. rewrite _profiled_layers_unfold.
  apply _profiled_layers_loop_AttributeError. intros name sub Hin scope.
  destruct (IH name sub Hin (depth - 1)%Z scope bb) as [[Hok _]|Hraise];
    [by left|by right].
Qed.

Lemma _buffer_and_params_scopes_progress (module : nnModule) :
  ∀ prefix,
    ((∃ l, _buffer_and_params_scopes module prefix = Ok l) ∧
     all_modules (λ _, True) (_modules module)) ∨
    _buffer_and_params_scopes module prefix = Raise AttributeError.
Proof.
  induction module as [m IH] using nnModule_induction.
  intros prefix. rewrite _buffer_and_params_scopes_unfold.
  apply _buffer_and_params_scopes_loop_AttributeError.
  intros name sub Hin scope.
  destruct (IH name sub Hin scope) as [[Hok _]|Hraise]; [by left|by right].
Qed.

(** When an entry of [_modules] holds [None], the two scope listings of
    control_flow_graph.py raise [AttributeError], whatever else the module
    holds; the traversals of utils.py go through [named_children], which
    leaves such an entry out, and list the scopes of the other entries. *)
Theorem None_module_AttributeError (module : nnModule) (name : string)
    (depth : Z) (prefix : string) (basic_block : option (list string)) :
  (name, None) ∈ _modules module →
  _profiled_layers module depth prefix basic_block = Raise AttributeError ∧
  _buffer_and_params_scopes module prefix = Raise AttributeError.
Proof.
  intros Hin. split.
  - destruct (_profiled_layers_progress module depth prefix basic_block)
      as [[_ Hall]|Hraise]; [|done].
    by apply (all_modules_no_None _ _ name) in Hall.
  - destruct (_buffer_and_params_scopes_progress module prefix)
      as [[_ Hall]|Hraise]; [|done].
    by apply (all_modules_no_None _ _ name) in Hall.
Qed.

Lemma None_module_AttributeError_witness :
  _profiled_layers net_without_head 100 "Net" None = Raise AttributeError ∧
  _buffer_and_params_scopes net_without_head "Net" = Raise AttributeError ∧
  model_scopes net_without_head 100 None false = ["Net/Linear[fc1]"].
Proof.
  destruct (None_module_AttributeError net_without_head "head" 100 "Net" None)
    as [H1 H2]; [simpl; apply list_elem_of_further, list_elem_of_here|].
  split; [exact H1|]. split; [exact H2|]. vm_compute. reflexivity.
Defined.

(** *** All scopes and the scopes of the layers *)

Lemma _traverse_model_loop_sublist
    (belowF belowT : nnModule → string → list (nnModule * string * nnModule))
    (self : nnModule) depth prefix bb items :
  ∀ memo,
    (∀ name sub, (name, Some sub) ∈ items → ∀ scope,
       belowF sub scope `sublist_of` belowT sub scope) →
    _traverse_model_loop belowF self depth prefix bb false items memo
    `sublist_of`
    _traverse_model_loop belowT self depth prefix bb true items memo.
Proof.
  induction items as [|[name [sub|]] items IH]; intros memo Hbelow; simpl.
  - done.
  - assert (∀ name0 sub0, (name0, Some sub0) ∈ items → ∀ scope,
      belowF sub0 scope `sublist_of` belowT sub0 scope) as Hbelow'.
    { intros name0 sub0 Hin. apply (Hbelow name0).
      by apply list_elem_of_further. }
    destruct (bool_decide (ident sub ∈ memo)); [by apply IH|].
    apply sublist_app; [|by apply IH].
    destruct (taken_whole sub depth bb); [done|].
    apply sublist_cons. apply (Hbelow name). apply list_elem_of_here.
  - apply IH. intros name0 sub0 Hin. apply (Hbelow name0).
    by apply list_elem_of_further.
Qed.

Lemma _traverse_model_sublist (module : nnModule) :
  ∀ depth prefix bb,
    _traverse_model module depth prefix bb false
    `sublist_of` _traverse_model module depth prefix bb true.
Proof.
  induction module as [m IH] using nnModule_induction.
  intros depth prefix bb. rewrite !_traverse_model_unfold.
  apply _traverse_model_loop_sublist. intros name sub Hin scope.
  by apply (IH name).
Qed.

(** The scopes that [model_scopes] lists with [full=False] are among those
    it lists with [full=True], in the same order: the full listing only
    adds the modules that are broken down. *)
Theorem model_scopes_full_has_layers (model : nnModule) (depth : Z)
    (basic_blocks : option (list string)) :
  model_scopes model depth basic_blocks false
  `sublist_of` model_scopes model depth basic_blocks true.
Proof.
  unfold model_scopes, traverse_model. apply fmap_sublist.
  apply _traverse_model_sublist.
Qed.

(** *** The depth *)

Lemma highest_nonneg (h : nnModule → Z) items : (0 ≤ highest h items)%Z.
Proof.
  induction items as [|[name [sub|]] items IH]; simpl; lia.
Qed.

Lemma height_unfold module : height module = highest height (_modules module).
Proof. by destruct module. Qed.

Lemma height_nonneg module : (0 ≤ height module)%Z.
Proof. rewrite height_unfold. apply highest_nonneg. Qed.

Lemma taken_whole_depth sub d d' bb :
  d ≠ 0%Z → d' ≠ 0%Z → taken_whole sub d bb = taken_whole sub d' bb.
Proof.
  intros Hd Hd'. unfold taken_whole.
  by rewrite (proj2 (Z.eqb_neq d 0) Hd), (proj2 (Z.eqb_neq d' 0) Hd').
Qed.

Lemma _profiled_layers_loop_depth
    (below below' : nnModule → string → result (list string))
    (d d' : Z) prefix bb items :
  ∀ names,
    (d < 0 ∨ highest height items ≤ d)%Z →
    (d' < 0 ∨ highest height items ≤ d')%Z →
    (∀ name sub, (name, Some sub) ∈ items →
       (d - 1 < 0 ∨ height sub ≤ d - 1)%Z →
       (d' - 1 < 0 ∨ height sub ≤ d' - 1)%Z →
       ∀ scope, below sub scope = below' sub scope) →
    _profiled_layers_loop below d prefix bb items names
    = _profiled_layers_loop below' d' prefix bb items names.
Proof.
  induction items as [|[name [sub|]] items IH];
    intros names Hd Hd' Hbelow; simpl; [done| |done].
  simpl in Hd, Hd'. pose proof (height_nonneg sub) as Hsub.
  pose proof (highest_nonneg height items) as Hitems.
  assert (∀ name0 sub0, (name0, Some sub0) ∈ items →
       (d - 1 < 0 ∨ height sub0 ≤ d - 1)%Z →
       (d' - 1 < 0 ∨ height sub0 ≤ d' - 1)%Z →
       ∀ scope, below sub0 scope = below' sub0 scope) as Hbelow'.
  { intros name0 sub0 Hin. apply (Hbelow name0).
    by apply list_elem_of_further. }
  rewrite (taken_whole_depth sub d d') by lia.
  destruct (taken_whole sub d' bb).
  - apply IH; [lia|lia|done].
  - rewrite (Hbelow name sub (list_elem_of_here _ _)) by lia.
    destruct (below' sub (sub_scope prefix sub name)); [|done..].
    apply IH; [lia|lia|done].
Qed.

Lemma _profiled_layers_depth (module : nnModule) :
  ∀ d d' prefix bb,
    (d < 0 ∨ height module ≤ d)%Z → (d' < 0 ∨ height module ≤ d')%Z →
    _profiled_layers module d prefix bb = _profiled_layers module d' prefix bb.
Proof.
  induction module as [m IH] using nnModule_induction.
  intros d d' prefix bb Hd Hd'. rewrite !_profiled_layers_unfold.
  rewrite height_unfold in Hd, Hd'.
  apply _profiled_layers_loop_depth; [done|done|].
  intros name sub Hin Hsub Hsub' scope. by apply (IH name).
Qed.

Lemma _profiled_layers_loop_depth_0
    (below : nnModule → string → result (list string)) prefix bb
    (subs : list (string * nnModule)) :
  ∀ names,
    _profiled_layers_loop below 0 prefix bb
      ((λ '(name, sub), (name, Some sub)) <$> subs) names
    = Ok (names ++ ((λ '(name, sub), sub_scope prefix sub name) <$> subs)).
Proof.
  induction subs as [|[name sub] subs IH]; intros names; simpl.
  - by rewrite app_nil_r.
  - unfold taken_whole. simpl. rewrite orb_true_r, IH.
    by rewrite <- app_assoc.
Qed.

(** What [depth] does to [_profiled_layers]. With depth 0 the profiled
    layers are the direct sub-modules, one scope per entry of [_modules]
    (all holding a module). A depth that is negative never reaches 0, so it
    sets no limit, and neither does a depth that is at least the height of
    the module tree: all such depths give the same result. *)
Theorem _profiled_layers_depth_edges (module : nnModule) (prefix : string)
    (basic_block : option (list string)) :
  (∀ subs,
     _modules module = (λ '(name, sub), (name, Some sub)) <$> subs →
     _profiled_layers module 0 prefix basic_block
     = Ok ((λ '(name, sub), sub_scope prefix sub name) <$> subs)) ∧
  (∀ d d', (d < 0 ∨ height module ≤ d)%Z → (d' < 0 ∨ height module ≤ d')%Z →
     _profiled_layers module d prefix basic_block
     = _profiled_layers module d' prefix basic_block).
Proof.
  split.
  - intros subs Hsubs. rewrite _profiled_layers_unfold, Hsubs.
    by rewrite _profiled_layers_loop_depth_0.
  - intros d d'. apply _profiled_layers_depth.
Qed.

Lemma _profiled_layers_depth_edges_witness :
  _profiled_layers net_model 0 "Net" None
  = Ok ["Net/Linear[fc1]"; "Net/Sequential[body]"] ∧
  _profiled_layers net_model (-1) "Net" None
  = _profiled_layers net_model 100 "Net" None.
Proof.
  destruct (_profiled_layers_depth_edges net_model "Net" None) as [H0 Hd].
  split.
  - by rewrite (H0 [("fc1", linear 1);
                    ("body",
                     mkModule "Sequential" ["Module"] 2 [] []
                       [("0", Some (linear 3));
                        ("1", Some (mkModule "ReLU" ["Module"] 4 [] [] []))])]).
  - apply Hd; [lia|right; vm_compute; discriminate].
Defined.

(** ** network_profiler.py: backward times *)

Lemma map_result_elapsed (l : list (option float * option float)) :
  Forall (λ p, is_Some p.1 ∧ is_Some p.2) l →
  ∃ times,
    map_result elapsed l = Ok times ∧ length times = length l ∧
    ∀ i end_ start, l !! i = Some (Some end_, Some start) →
      times !! i = Some (PyFloat (end_ - start)%float).
Proof.
  induction 1 as [|[e s] l [[e' He] [s' Hs]] _ (times & Hrun & Hlen & Hat)];
    simpl in *.
  - exists []. split; [done|]. split; [done|]. intros i ? ? Hi.
    by rewrite lookup_nil in Hi.
  - subst e s. rewrite Hrun. eexists. split; [done|]. simpl.
    split; [by rewrite Hlen|].
    intros [|i] end_ start Hi; simpl in *.
    + by injection Hi as <- <-.
    + by apply Hat.
Qed.

Lemma map_result_elapsed_None (l : list (option float * option float)) :
  Exists (λ p, p.1 = None ∨ p.2 = None) l →
  map_result elapsed l = Raise TypeError.
Proof.
  induction 1 as [[e s] l [Hn|Hn]|[e s] l _ IH]; simpl in *.
  - by rewrite Hn.
  - rewrite Hn. by destruct e.
  - destruct e, s; simpl; try done. by rewrite IH.
Qed.

(** [_gather_backward_times] gives one time per layer, entry [i] being the
    stamp of layer [i] minus that of layer [i+1], and the last entry the
    [int] 0, when every layer has a time stamp. With no layer at all it
    still gives the one entry 0, and with a single layer it gives [[0]]
    whether or not the layer has a stamp. With two layers or more, a layer
    whose backward hook never ran makes it raise [TypeError]. *)
Theorem _gather_backward_times_spec (timestamps : list (option float)) :
  (Forall is_Some timestamps →
   ∃ times,
     _gather_backward_times timestamps = Ok times ∧
     length times = max 1 (length timestamps) ∧
     last times = Some (PyInt 0) ∧
     ∀ i end_ start,
       timestamps !! i = Some (Some end_) →
       timestamps !! (i + 1) = Some (Some start) →
       times !! i = Some (PyFloat (end_ - start)%float)) ∧
  (length timestamps ≤ 1 →
   _gather_backward_times timestamps = Ok [PyInt 0]) ∧
  (2 ≤ length timestamps → None ∈ timestamps →
   _gather_backward_times timestamps = Raise TypeError).
Proof.
  unfold _gather_backward_times. split; [|split].
  - intros Hall.
    destruct (map_result_elapsed (zip timestamps (tail timestamps)))
      as (times & Hrun & Hlen & Hat).
    { apply Forall_forall. intros [e s] Hin.
      rewrite Forall_forall in Hall. split; apply Hall; simpl.
      - by eapply elem_of_zip_l.
      - apply elem_of_zip_r in Hin.
        destruct timestamps; [done|]. by apply list_elem_of_further. }
    rewrite Hrun. simpl. eexists. split; [done|].
    assert (length (zip timestamps (tail timestamps)) = length timestamps - 1)
      as Hzip.
    { destruct timestamps as [|t0 l]; [done|].
      rewrite length_zip. cbn [tail length]. lia. }
    rewrite length_app, Hlen, Hzip. simpl.
    split; [lia|]. split; [by rewrite last_snoc|].
    intros i end_ start Hi Hi1. rewrite lookup_app_l.
    + apply Hat. apply lookup_zip_with_Some. eexists _, _.
      split; [done|]. split; [done|]. rewrite lookup_tail.
      by rewrite <- Nat.add_1_r.
    + rewrite Hlen, Hzip. apply lookup_lt_Some in Hi1. lia.
  - intros Hlen. by destruct timestamps as [|t [|t' l]]; simpl in *; [..|lia].
  - intros Hlen Hnone.
    rewrite map_result_elapsed_None; [done|].
    apply list_elem_of_lookup in Hnone as [i Hi].
    apply Exists_exists.
    destruct timestamps as [|t0 [|t1 l]]; simpl in *; [lia..|].
    destruct i as [|i].
    + exists (t0, t1). simpl in Hi. injection Hi as ->.
      split; [apply list_elem_of_here|by left].
    + simpl in Hi.
      destruct (lookup_lt_is_Some_2 (t0 :: t1 :: l) i) as [p Hp].
      { apply lookup_lt_Some in Hi. simpl in *. lia. }
      exists (p, None). split; [|by right].
      apply (list_elem_of_lookup_2 _ i).
      change (zip (t0 :: t1 :: l) (t1 :: l) !! i = Some (p, None)).
      apply lookup_zip_with_Some. by eexists _, _.
Qed.

Lemma _gather_backward_times_spec_witness :
  _gather_backward_times [Some 9; Some 7; Some 4]%float
  = Ok [PyFloat 2; PyFloat 3; PyInt 0] ∧
  _gather_backward_times [] = Ok [PyInt 0] ∧
  _gather_backward_times [Some 9%float; None] = Raise TypeError.
Proof.
  destruct (_gather_backward_times_spec []) as (_ & H0 & _).
  destruct (_gather_backward_times_spec [Some 9%float; None])
    as (_ & _ & HNone).
  split; [vm_compute; reflexivity|]. split.
  - apply H0. simpl. lia.
  - apply HNone; [simpl; lia|]. apply list_elem_of_further, list_elem_of_here.
Defined.

(** ** Graphs whose edges lead forward *)

Lemma for_each_invariant_elem {A} (I : list A → State → Prop)
    (body : A → M unit) (l : list A) :
  (∀ seen x st, x ∈ l → I seen st →
     ∃ st', body x st = Ok (tt, st') ∧ I (seen ++ [x]) st') →
  ∀ seen st, I seen st →
    ∃ st', for_each l body st = Ok (tt, st') ∧ I (seen ++ l) st'.
Proof.
  induction l as [|x l IH]; intros Hbody pre st HI; simpl.
  - exists st. by rewrite app_nil_r.
  - destruct (Hbody pre x st (list_elem_of_here _ _) HI) as (st1 & Hx & HI1).
    rewrite (bind_Ok _ _ _ _ _ Hx).
    destruct (IH (λ seen y st Hy, Hbody seen y st (list_elem_of_further _ _ _ Hy))
                (pre ++ [x]) st1 HI1) as (st' & Hrun & HI').
    exists st'. split; [done|]. by rewrite <- app_assoc in HI'.
Qed.

Lemma sound_store_same_objects st st' :
  same_objects st st' → sound_store st → sound_store st'.
Proof.
  intros (Hsets & Hlen & Hobj) [Hin Hinj].
  assert (∀ a n', heap_nodes st' !! a = Some n' →
            ∃ n, heap_nodes st !! a = Some n ∧ in_nodes n' = in_nodes n)
    as Hback.
  { intros a n' Hn'.
    destruct (lookup_lt_is_Some_2 (heap_nodes st) a) as [n Hn].
    { rewrite <- Hlen. by eapply lookup_lt_Some. }
    destruct (Hobj a n Hn) as (n'' & Hn'' & _ & Heq & _).
    exists n. split; [done|]. congruence. }
  split.
  - intros a n' Hn'. destruct (Hback a n' Hn') as (n & Hn & ->).
    rewrite Hsets. by eapply Hin.
  - intros a b na nb Ha Hb Heq.
    destruct (Hback a na Ha) as (na0 & Ha0 & Hea).
    destruct (Hback b nb Hb) as (nb0 & Hb0 & Heb).
    eapply Hinj; [done|done|congruence].
Qed.

Lemma in_of_update_in_nodes_other self f st w :
  sound_store st → w ≠ self →
  in_of (update_in_nodes self f st) w = in_of st w.
Proof.
  intros [_ Hinj] Hne. unfold in_of, update_in_nodes.
  destruct (heap_nodes st !! self) as [n|] eqn:Hn; [|done]. simpl.
  destruct (heap_nodes st !! w) as [m|] eqn:Hm; simpl; [|done].
  rewrite list_lookup_alter_ne; [done|].
  intros Heq. apply Hne. by eapply Hinj.
Qed.

Lemma sound_store_is_node st a :
  sound_store st → is_Some (heap_nodes st !! a) → is_node st a.
Proof. intros [Hin _] [n Hn]. exists n. split; [done|]. by eapply Hin. Qed.

Lemma bridge_twice (s others : gset addr) (node : addr) :
  node ∉ others →
  (s ∖ {[node]} ∪ others) ∖ {[node]} ∪ others = s ∖ {[node]} ∪ others.
Proof.
  intros Hnode. apply set_eq. intros y.
  rewrite !elem_of_union, !elem_of_difference, !elem_of_union,
    !elem_of_difference, !elem_of_singleton.
  split; [tauto|]. intros [[Hy Hne]|Hy]; [tauto|].
  left. split; [tauto|]. by intros ->.
Qed.

Section connect_around_exact.
Variable node : addr.

(** The first loop of lines 244-246, exactly. *)
Lemma to_out_nodes_exact (l : list addr) st0 :
  node ∉ l → node ∉ out_of st0 node →
  (∀ u, u ∈ l → is_Some (heap_nodes st0 !! u)) →
  ∃ st1,
    for_each l (λ in_node,
      let! _ := remove_out_node in_node (ANode node) in
      let! st := get in
      add_out_node in_node (ASet (out_of st node))) st0 = Ok (tt, st1) ∧
    same_objects st0 st1 ∧ heap_sets st1 = heap_sets st0 ∧
    nodes st1 = nodes st0 ∧
    ∀ w, out_of st1 w =
         if decide (w ∈ l) then out_of st0 w ∖ {[node]} ∪ out_of st0 node
         else out_of st0 w.
Proof.
  intros Hnode Hself Halloc.
  edestruct (for_each_invariant_elem
    (λ seen st,
       same_objects st0 st ∧ heap_sets st = heap_sets st0 ∧
       nodes st = nodes st0 ∧ (node ∉ seen) ∧
       ∀ w, out_of st w =
            if decide (w ∈ seen)
            then out_of st0 w ∖ {[node]} ∪ out_of st0 node
            else out_of st0 w)
    (λ in_node,
      let! _ := remove_out_node in_node (ANode node) in
      let! st := get in
      add_out_node in_node (ASet (out_of st node))) l)
    with (seen := @nil nat) (st := st0) as (st1 & Hrun & Hinv).
  2: { split; [apply same_objects_refl|]. do 2 (split; [done|]).
       split; [apply not_elem_of_nil|]. intros w.
       by rewrite decide_False by apply not_elem_of_nil. }
  2: { exists st1. by destruct Hinv as (? & ? & ? & _ & ?). }
  intros seen x st Hx (Hsame & Hsets & Hnodes & Hseen & Hout).
  eexists. split; [apply to_out_nodes_run|]. simpl.
  set (sta := update_out_nodes x (λ s, s ∖ {[node]}) st).
  assert (x ≠ node) as Hxn by (intros ->; done).
  assert (is_Some (heap_nodes st !! x)) as Hxalloc.
  { eapply same_objects_is_Some; [done|]. by apply Halloc. }
  assert (same_objects st0 sta) as Hsamea.
  { eapply same_objects_trans; [done|]. apply same_objects_update_out_nodes. }
  split; [|split; [done|split; [done|split]]].
  - eapply same_objects_trans; [done|]. apply same_objects_update_out_nodes.
  - intros Hin. apply elem_of_app in Hin as [Hin|Hin]; [done|].
    apply list_elem_of_singleton in Hin. done.
  - intros w. destruct (decide (w = x)) as [->|Hwx].
    + rewrite out_of_update_out_nodes_eq
        by (eapply same_objects_is_Some; [|exact Hxalloc];
            apply same_objects_update_out_nodes).
      unfold sta at 1. rewrite out_of_update_out_nodes_eq by done.
      unfold sta. rewrite out_of_update_out_nodes_ne by done.
      rewrite (Hout node), decide_False by done.
      rewrite decide_True by (apply elem_of_app; right; apply list_elem_of_here).
      rewrite (Hout x). destruct (decide (x ∈ seen)); [|done].
      by apply bridge_twice.
    + rewrite out_of_update_out_nodes_ne by done.
      unfold sta. rewrite out_of_update_out_nodes_ne by done.
      rewrite (Hout w).
      destruct (decide (w ∈ seen)) as [Hw|Hw].
      * rewrite decide_True; [done|]. apply elem_of_app. by left.
      * rewrite decide_False; [done|]. intros Hin.
        apply elem_of_app in Hin as [Hin|Hin]; [done|].
        by apply list_elem_of_singleton in Hin.
Qed.

(** The second loop of lines 247-249, exactly. *)
Lemma to_in_nodes_exact (l : list addr) st1 :
  sound_store st1 → node ∉ l → node ∉ in_of st1 node →
  (∀ v, v ∈ l → is_Some (heap_nodes st1 !! v)) →
  ∃ st2,
    for_each l (λ out_node,
      let! _ := remove_in_node out_node (ANode node) in
      let! st := get in
      add_in_node out_node (ASet (in_of st node))) st1 = Ok (tt, st2) ∧
    same_objects st1 st2 ∧ heap_nodes st2 = heap_nodes st1 ∧
    nodes st2 = nodes st1 ∧
    ∀ w, in_of st2 w =
         if decide (w ∈ l) then in_of st1 w ∖ {[node]} ∪ in_of st1 node
         else in_of st1 w.
Proof.
  intros Hsound Hnode Hself Halloc.
  edestruct (for_each_invariant_elem
    (λ seen st,
       same_objects st1 st ∧ heap_nodes st = heap_nodes st1 ∧
       nodes st = nodes st1 ∧ (node ∉ seen) ∧
       ∀ w, in_of st w =
            if decide (w ∈ seen)
            then in_of st1 w ∖ {[node]} ∪ in_of st1 node
            else in_of st1 w)
    (λ out_node,
      let! _ := remove_in_node out_node (ANode node) in
      let! st := get in
      add_in_node out_node (ASet (in_of st node))) l)
    with (seen := @nil nat) (st := st1) as (st2 & Hrun & Hinv).
  2: { split; [apply same_objects_refl|]. do 2 (split; [done|]).
       split; [apply not_elem_of_nil|]. intros w.
       by rewrite decide_False by apply not_elem_of_nil. }
  2: { exists st2. by destruct Hinv as (? & ? & ? & _ & ?). }
  intros seen x st Hx (Hsame & Hheap & Hnodes & Hseen & Hin).
  eexists. split; [apply to_in_nodes_run|]. simpl.
  set (sta := update_in_nodes x (λ s, s ∖ {[node]}) st).
  assert (x ≠ node) as Hxn by (intros ->; done).
  assert (sound_store st) as Hsoundst by by eapply sound_store_same_objects.
  assert (same_objects st sta) as Hsta by apply same_objects_update_in_nodes.
  assert (sound_store sta) as Hsounda by by eapply sound_store_same_objects.
  assert (is_node st x) as Hxnode.
  { apply sound_store_is_node; [done|].
    eapply same_objects_is_Some; [done|]. by apply Halloc. }
  assert (is_node sta x) as Hxnodea by by eapply same_objects_is_node.
  split; [|split; [|split; [|split]]].
  - eapply same_objects_trans; [done|].
    eapply same_objects_trans; [done|]. apply same_objects_update_in_nodes.
  - rewrite heap_nodes_update_in_nodes. unfold sta.
    by rewrite heap_nodes_update_in_nodes.
  - rewrite nodes_update_in_nodes. unfold sta.
    by rewrite nodes_update_in_nodes.
  - intros Hmem. apply elem_of_app in Hmem as [Hmem|Hmem]; [done|].
    apply list_elem_of_singleton in Hmem. done.
  - intros w. destruct (decide (w = x)) as [->|Hwx].
    + rewrite in_of_update_in_nodes_self by done.
      unfold sta at 1. rewrite in_of_update_in_nodes_self by done.
      unfold sta. rewrite in_of_update_in_nodes_other by done.
      rewrite (Hin node), decide_False by done.
      rewrite decide_True by (apply elem_of_app; right; apply list_elem_of_here).
      rewrite (Hin x). destruct (decide (x ∈ seen)); [|done].
      by apply bridge_twice.
    + rewrite in_of_update_in_nodes_other by done.
      unfold sta. rewrite in_of_update_in_nodes_other by done.
      rewrite (Hin w).
      destruct (decide (w ∈ seen)) as [Hw|Hw].
      * rewrite decide_True; [done|]. apply elem_of_app. by left.
      * rewrite decide_False; [done|]. intros Hmem.
        apply elem_of_app in Hmem as [Hmem|Hmem]; [done|].
        by apply list_elem_of_singleton in Hmem.
Qed.

(** Lines 243-249, exactly, for a node without an edge to itself whose
    neighbours are objects: each in-neighbour trades its edge to [node] for
    edges to the out-neighbours of [node], each out-neighbour trades its
    edge from [node] for edges from the in-neighbours, and no other edge
    set changes. *)
Lemma connect_around_exact st :
  sound_store st → node ∉ in_of st node → node ∉ out_of st node →
  (∀ u, u ∈ in_of st node → is_Some (heap_nodes st !! u)) →
  (∀ v, v ∈ out_of st node → is_Some (heap_nodes st !! v)) →
  ∃ st',
    connect_around node st = Ok (tt, st') ∧
    same_objects st st' ∧ nodes st' = nodes st ∧
    (∀ w, out_of st' w =
          if decide (w ∈ in_of st node)
          then out_of st w ∖ {[node]} ∪ out_of st node else out_of st w) ∧
    (∀ w, in_of st' w =
          if decide (w ∈ out_of st node)
          then in_of st w ∖ {[node]} ∪ in_of st node else in_of st w).
Proof.
  intros Hsound Hin Hout Hinalloc Houtalloc. unfold connect_around.
  rewrite bind_get.
  destruct (to_out_nodes_exact (elements (in_of st node)) st)
    as (st1 & Hrun1 & Hsame1 & Hsets1 & Hnodes1 & Hout1).
  { by rewrite elem_of_elements. } { done. }
  { intros u Hu. apply Hinalloc. by apply elem_of_elements. }
  rewrite (bind_Ok _ _ _ _ _ Hrun1), bind_get.
  assert (∀ w, in_of st1 w = in_of st w) as Hin1.
  { intros w. by apply in_of_same_sets. }
  assert (out_of st1 node = out_of st node) as Hnode1.
  { rewrite Hout1, decide_False; [done|]. by rewrite elem_of_elements. }
  rewrite Hnode1.
  destruct (to_in_nodes_exact (elements (out_of st node)) st1)
    as (st2 & Hrun2 & Hsame2 & Hheap2 & Hnodes2 & Hin2).
  { by eapply sound_store_same_objects. }
  { by rewrite elem_of_elements. } { by rewrite Hin1. }
  { intros v Hv. eapply same_objects_is_Some; [done|].
    apply Houtalloc. by apply elem_of_elements. }
  exists st2. split; [done|]. split; [by eapply same_objects_trans|].
  split; [congruence|]. split.
  - intros w. rewrite (out_of_same_nodes st1 st2) by done. rewrite Hout1.
    destruct (decide (w ∈ elements (in_of st node))) as [Hw|Hw];
      rewrite elem_of_elements in Hw.
    + by rewrite decide_True.
    + by rewrite decide_False.
  - intros w. rewrite Hin2, !Hin1.
    destruct (decide (w ∈ elements (out_of st node))) as [Hw|Hw];
      rewrite elem_of_elements in Hw.
    + by rewrite decide_True.
    + by rewrite decide_False.
Qed.

End connect_around_exact.

(** [well_formed], spelled out for the graph with the node list [alive]. *)
Lemma well_formed_with_nodes (alive : list addr) st :
  well_formed (with_nodes alive st) ↔
  NoDup alive ∧ (∀ a, a ∈ alive → a < length (heap_nodes st)) ∧
  sound_store st ∧
  (∀ u v, u ∈ alive → v ∈ out_of st u ∪ in_of st u → v ∈ alive) ∧
  (∀ u v, u ∈ alive → v ∈ alive → (v ∈ out_of st u ↔ u ∈ in_of st v)) ∧
  (∀ u v, u ∈ alive →
     (v ∈ out_of st u → u < v) ∧ (v ∈ in_of st u → v < u)).
Proof. done. Qed.

Lemma with_nodes_id st : with_nodes (nodes st) st = st.
Proof. by destruct st. Qed.

(** Bridging a node of a well-formed graph and dropping it from the node
    list leaves a well-formed graph. *)
Lemma connect_around_well_formed node (pre post : list addr) st :
  well_formed (with_nodes (pre ++ node :: post) st) →
  ∃ st',
    connect_around node st = Ok (tt, st') ∧
    well_formed (with_nodes (pre ++ post) st').
Proof.
  rewrite well_formed_with_nodes.
  intros (Hnd & Halloc & Hsound & Hwithin & Hbi & Hfwd).
  assert (node ∈ pre ++ node :: post) as Hnode.
  { apply elem_of_app. right. apply list_elem_of_here. }
  assert (∀ x, x ∈ pre ++ post ↔ x ∈ pre ++ node :: post ∧ x ≠ node)
    as Halive.
  { intros x. apply NoDup_app in Hnd as (_ & Hdisj & Hpost).
    apply NoDup_cons in Hpost as [Hnp _].
    rewrite !elem_of_app, elem_of_cons. split.
    - intros [Hx|Hx].
      + split; [by left|]. intros ->. apply (Hdisj node Hx).
        apply list_elem_of_here.
      + split; [by right; right|]. by intros ->.
    - intros [[Hx|[->|Hx]] Hne]; [by left|done|by right]. }
  destruct (Hfwd node node Hnode) as [Hself_out Hself_in].
  destruct (connect_around_exact node st)
    as (st' & Hrun & Hsame & Hnodes & Hout & Hin); [done| | | | |].
  { intros H. apply Hself_in in H. lia. }
  { intros H. apply Hself_out in H. lia. }
  { intros u Hu. apply lookup_lt_is_Some_2, Halloc, (Hwithin node); [done|].
    by apply elem_of_union_r. }
  { intros v Hv. apply lookup_lt_is_Some_2, Halloc, (Hwithin node); [done|].
    by apply elem_of_union_l. }
  exists st'. split; [done|]. rewrite well_formed_with_nodes.
  assert (∀ u v, u ∈ pre ++ post →
     (v ∈ out_of st' u ↔
      v ∈ out_of st u ∧ v ≠ node ∨ u ∈ in_of st node ∧ v ∈ out_of st node))
    as Hout'.
  { intros u v Hu. apply Halive in Hu as [Hu Hune]. rewrite Hout.
    destruct (decide (u ∈ in_of st node)) as [Huin|Huin].
    - rewrite elem_of_union, elem_of_difference, elem_of_singleton. tauto.
    - split; [|tauto]. intros Hv. left. split; [done|]. intros ->.
      apply Huin. by apply (Hbi u node). }
  assert (∀ u v, v ∈ pre ++ post →
     (u ∈ in_of st' v ↔
      u ∈ in_of st v ∧ u ≠ node ∨ v ∈ out_of st node ∧ u ∈ in_of st node))
    as Hin'.
  { intros u v Hv. apply Halive in Hv as [Hv Hvne]. rewrite Hin.
    destruct (decide (v ∈ out_of st node)) as [Hvout|Hvout].
    - rewrite elem_of_union, elem_of_difference, elem_of_singleton. tauto.
    - split; [|tauto]. intros Hu. left. split; [done|]. intros ->.
      apply Hvout. by apply (Hbi node v). }
  split; [|split; [|split; [|split; [|split]]]].
  - apply NoDup_app in Hnd as (Hpre & Hdisj & Hpost).
    apply NoDup_cons in Hpost as [_ Hpost].
    apply NoDup_app. split; [done|]. split; [|done].
    intros x Hx Hx'. apply (Hdisj x Hx). by apply list_elem_of_further.
  - intros a Ha. destruct Hsame as (_ & -> & _). apply Halloc.
    by apply Halive in Ha as [Ha _].
  - by eapply sound_store_same_objects.
  - intros u v Hu Hv. pose proof Hu as Hu'. apply Halive in Hu' as [Hu' Hune].
    apply Halive. apply elem_of_union in Hv as [Hv|Hv].
    + apply (Hout' u v Hu) in Hv as [[Hv Hvne]|[Huin Hv]].
      * split; [|done]. apply (Hwithin u); [done|]. by apply elem_of_union_l.
      * split.
        -- apply (Hwithin node); [done|]. by apply elem_of_union_l.
        -- intros ->. apply Hself_out in Hv. lia.
    + apply (Hin' v u Hu) in Hv as [[Hv Hvne]|[Huout Hv]].
      * split; [|done]. apply (Hwithin u); [done|]. by apply elem_of_union_r.
      * split.
        -- apply (Hwithin node); [done|]. by apply elem_of_union_r.
        -- intros ->. apply Hself_in in Hv. lia.
  - intros u v Hu Hv. rewrite (Hout' u v Hu), (Hin' u v Hv).
    apply Halive in Hu as [Hu Hune]. apply Halive in Hv as [Hv Hvne].
    specialize (Hbi u v Hu Hv). tauto.
  - intros u v Hu. pose proof Hu as Hu'. apply Halive in Hu' as [Hu' Hune].
    split.
    + intros Hv. apply (Hout' u v Hu) in Hv as [[Hv _]|[Huin Hv]].
      * by apply (Hfwd u v).
      * apply (Hfwd node u Hnode) in Huin. apply (Hfwd node v Hnode) in Hv.
        lia.
    + intros Hv. apply (Hin' v u Hu) in Hv as [[Hv _]|[Huout Hv]].
      * by apply (Hfwd u v).
      * apply (Hfwd node u Hnode) in Huout. apply (Hfwd node v Hnode) in Hv.
        lia.
Qed.

(** A pass of [_remove_nodes] over a well-formed graph leaves a
    well-formed graph. *)
Lemma remove_pass_well_formed (condition : Condition) (todo : list addr) :
  ∀ changed opt st r st',
    well_formed (with_nodes (opt ++ todo) st) →
    remove_pass condition todo changed opt st = Ok (r, st') →
    well_formed (with_nodes r.2 st').
Proof.
  induction todo as [|node rest IH]; intros changed opt st r st' Hwf Hpass;
    simpl in Hpass.
  - injection Hpass as <- <-. simpl. by rewrite app_nil_r in Hwf.
  - rewrite bind_get in Hpass. destruct (condition node st).
    + destruct (connect_around_well_formed node opt rest st Hwf)
        as (st1 & Hrun & Hwf1).
      rewrite (bind_Ok _ _ _ _ _ Hrun) in Hpass. by eapply IH.
    + eapply IH; [|exact Hpass]. by rewrite <- app_assoc.
Qed.

Lemma remove_loop_well_formed (condition : Condition) :
  ∀ fuel st st',
    well_formed st →
    remove_loop fuel condition false st = Ok (tt, st') → well_formed st'.
Proof.
  induction fuel as [|fuel IH]; intros st st' Hwf Hrun; [done|].
  simpl in Hrun. rewrite bind_get in Hrun.
  apply bind_inv_Ok in Hrun as (r & st1 & Hpass & Hrun).
  rewrite bind_modify in Hrun.
  assert (well_formed (with_nodes r.2 st1)) as Hwf1.
  { eapply remove_pass_well_formed; [|exact Hpass]. simpl.
    by rewrite with_nodes_id. }
  destruct r.1.
  - by eapply IH.
  - by injection Hrun as <-.
Qed.

(** [_remove_nodes] keeps a well-formed graph well formed, whatever the
    condition. *)
Lemma _remove_nodes_well_formed (condition : Condition) st st' :
  well_formed st →
  _remove_nodes condition false st = Ok (tt, st') → well_formed st'.
Proof.
  intros Hwf. unfold _remove_nodes. rewrite bind_get.
  by apply remove_loop_well_formed.
Qed.

(** *** Building a graph *)

(** Adding a node whose in-neighbours are [members], nodes of the graph:
    the node is a new object with a new set of its own, and each member
    gains the edge to it. *)
Lemma well_formed_add_node st st' (members : gset addr) (new : Node) :
  let p := length (heap_nodes st) in
  nodes st = seq 0 p → well_formed st →
  (∀ a, a ∈ members → a < p) →
  nodes st' = nodes st ++ [p] →
  heap_sets st' = heap_sets st ++ [members] →
  length (heap_nodes st') = S p →
  heap_nodes st' !! p = Some new →
  out_nodes new = ∅ → in_nodes new = length (heap_sets st) →
  (∀ a n, heap_nodes st !! a = Some n →
     heap_nodes st' !! a =
     Some (if decide (a ∈ members)
           then with_out_nodes (out_nodes n ∪ {[p]}) n else n)) →
  nodes st' = seq 0 (length (heap_nodes st')) ∧ well_formed st'.
Proof.
  intros p Hseq (Hnd & Halloc & [Hlocs Hinj] & Hwithin & Hbi & Hfwd)
    Hmembers Hnodes' Hsets' Hlen' Hnew Hnewout Hnewin Hold.
  assert (∀ a, a ∈ nodes st ↔ a < p) as Hin_nodes.
  { intros a. rewrite Hseq, elem_of_seq. lia. }
  assert (∀ a, a ∈ nodes st' ↔ a < p ∨ a = p) as Hin_nodes'.
  { intros a. rewrite Hnodes', elem_of_app, list_elem_of_singleton.
    by rewrite Hin_nodes. }
  assert (∀ a, a < p →
            out_of st' a = (if decide (a ∈ members)
                            then out_of st a ∪ {[p]} else out_of st a) ∧
            in_of st' a = in_of st a) as Hlow.
  { intros a Ha. destruct (lookup_lt_is_Some_2 (heap_nodes st) a Ha) as [n Hn].
    unfold out_of, in_of. rewrite (Hold a n Hn), Hn. simpl.
    rewrite Hsets'. split.
    - by destruct (decide (a ∈ members)).
    - assert (in_nodes (if decide (a ∈ members)
                        then with_out_nodes (out_nodes n ∪ {[p]}) n else n)
              = in_nodes n) as -> by by destruct (decide (a ∈ members)).
      rewrite lookup_app_l; [done|]. by eapply Hlocs. }
  assert (out_of st' p = ∅ ∧ in_of st' p = members) as [Houtp Hinp].
  { unfold out_of, in_of. rewrite Hnew. simpl. split; [done|].
    rewrite Hsets', Hnewin. by rewrite list_lookup_middle. }
  split. { rewrite Hnodes', Hseq, Hlen'. by rewrite seq_S. }
  split; [|split; [|split; [|split; [|split]]]].
  - rewrite Hnodes', Hseq, <- seq_S. apply NoDup_seq.
  - intros a Ha. apply Hin_nodes' in Ha. lia.
  - split.
    + intros a n' Hn'. rewrite Hsets', length_app. simpl.
      destruct (decide (a = p)) as [->|Hne].
      * rewrite Hnew in Hn'. injection Hn' as <-. lia.
      * assert (a < p) as Ha.
        { apply lookup_lt_Some in Hn'. lia. }
        destruct (lookup_lt_is_Some_2 (heap_nodes st) a Ha) as [n Hn].
        rewrite (Hold a n Hn) in Hn'. injection Hn' as <-.
        pose proof (Hlocs a n Hn).
        destruct (decide (a ∈ members)); simpl; lia.
    + assert (∀ a n', heap_nodes st' !! a = Some n' → a ≠ p →
                ∃ n, heap_nodes st !! a = Some n ∧ in_nodes n' = in_nodes n)
        as Hback.
      { intros a n' Hn' Hne.
        assert (a < p) as Ha by (apply lookup_lt_Some in Hn'; lia).
        destruct (lookup_lt_is_Some_2 (heap_nodes st) a Ha) as [n Hn].
        rewrite (Hold a n Hn) in Hn'. injection Hn' as <-.
        exists n. split; [done|]. by destruct (decide (a ∈ members)). }
      intros a b na nb Ha Hb Heq.
      destruct (decide (a = p)) as [->|Hap], (decide (b = p)) as [->|Hbp];
        [done| | |].
      * rewrite Hnew in Ha. injection Ha as <-.
        destruct (Hback b nb Hb Hbp) as (n & Hn & Hnb).
        pose proof (Hlocs b n Hn). lia.
      * rewrite Hnew in Hb. injection Hb as <-.
        destruct (Hback a na Ha Hap) as (n & Hn & Hna).
        pose proof (Hlocs a n Hn). lia.
      * destruct (Hback a na Ha Hap) as (n & Hn & Hna).
        destruct (Hback b nb Hb Hbp) as (m & Hm & Hnb).
        eapply Hinj; [done|done|congruence].
  - intros u v Hu Hv. apply Hin_nodes'. apply Hin_nodes' in Hu as [Hu| ->].
    + destruct (Hlow u Hu) as [Ho Hi]. rewrite Ho, Hi in Hv.
      assert (v ∈ out_of st u ∪ in_of st u → v < p) as Hold_edge.
      { intros H. apply Hin_nodes. apply (Hwithin u); [|done].
        by apply Hin_nodes. }
      destruct (decide (u ∈ members)).
      * rewrite !elem_of_union, elem_of_singleton in Hv.
        rewrite elem_of_union in Hold_edge. tauto.
      * left. by apply Hold_edge.
    + rewrite Houtp, Hinp in Hv. left. apply Hmembers.
      by rewrite union_empty_l_L in Hv.
  - intros u v Hu Hv.
    assert (∀ x, x < p → (p ∉ out_of st x) ∧ (p ∉ in_of st x)) as Hnop.
    { intros x Hx. split; intros H.
      - assert (p ∈ nodes st) as Hp.
        { apply (Hwithin x); [by apply Hin_nodes|by apply elem_of_union_l]. }
        apply Hin_nodes in Hp. lia.
      - assert (p ∈ nodes st) as Hp.
        { apply (Hwithin x); [by apply Hin_nodes|by apply elem_of_union_r]. }
        apply Hin_nodes in Hp. lia. }
    apply Hin_nodes' in Hu as [Hu| ->]; apply Hin_nodes' in Hv as [Hv| ->].
    + destruct (Hlow u Hu) as [-> _]. destruct (Hlow v Hv) as [_ ->].
      rewrite <- (Hbi u v) by by apply Hin_nodes.
      destruct (decide (u ∈ members)); [|done].
      rewrite elem_of_union, elem_of_singleton. split; [|tauto].
      intros [H|H]; [done|lia].
    + destruct (Hlow u Hu) as [-> _]. rewrite Hinp.
      destruct (Hnop u Hu) as [Hno _].
      destruct (decide (u ∈ members)).
      * rewrite elem_of_union, elem_of_singleton. tauto.
      * tauto.
    + destruct (Hlow v Hv) as [_ ->]. rewrite Houtp.
      destruct (Hnop v Hv) as [_ Hno]. split; [|done].
      intros H. by apply elem_of_empty in H.
    + rewrite Houtp, Hinp. split; intros H.
      * by apply elem_of_empty in H.
      * apply Hmembers in H. lia.
  - intros u v Hu. apply Hin_nodes' in Hu as [Hu| ->].
    + destruct (Hlow u Hu) as [-> ->].
      destruct (Hfwd u v) as [Ho Hi]; [by apply Hin_nodes|].
      split; [|done]. destruct (decide (u ∈ members)); [|done].
      rewrite elem_of_union, elem_of_singleton. intros [H| ->]; [auto|lia].
    + rewrite Houtp, Hinp. split; intros H.
      * by apply elem_of_empty in H.
      * by apply Hmembers.
Qed.

Lemma well_formed_initial L n names : well_formed (initial L n names).
Proof.
  split; [apply NoDup_nil_2|]. split.
  { intros a Ha. by apply elem_of_nil in Ha. }
  split.
  { split; [by intros a n'|by intros a b na nb]. }
  split; [|split]; intros u v Hu; by apply elem_of_nil in Hu.
Qed.

Lemma _add_IO_nodes_from_well_formed (input_nodes : list TraceInput) :
  ∀ pos st st',
    nodes st = seq 0 (length (heap_nodes st)) → well_formed st →
    _add_IO_nodes_from pos input_nodes st = Ok (tt, st') →
    nodes st' = seq 0 (length (heap_nodes st')) ∧ well_formed st'.
Proof.
  induction input_nodes as [|node rest IH]; intros pos st st' Hseq Hwf Hrun;
    simpl in Hrun.
  - by injection Hrun as <-.
  - destruct (sizes node) as [dims|]; [|done].
    rewrite bind_ret, bind_get in Hrun.
    apply bind_inv_Ok in Hrun as (tagged & st0 & Htag & Hrun).
    assert (st0 = st) as ->.
    { destruct (pos <? num_inputs st); [by injection Htag as _ <-|].
      destruct (buffer_param_names st !! (pos - num_inputs st)); [|done].
      by injection Htag as _ <-. }
    rewrite (bind_Ok _ _ _ _ _ (Node_init_fresh _ _ _ _ _ _ _)) in Hrun.
    unfold append_node in Hrun. rewrite !bind_modify in Hrun.
    match type of Hrun with _add_IO_nodes_from _ _ ?s = _ =>
      destruct (well_formed_add_node st s ∅
                  (mkNode tagged.2 pos tagged.1 ∅
                     (WInt (foldl Z.mul 1%Z dims)) 10 [dims]
                     (length (heap_sets st)))) as [Hseq1 Hwf1]
    end; try done.
    + simpl. rewrite length_app. simpl. lia.
    + simpl. by apply list_lookup_middle.
    + intros a m Hm. simpl. rewrite decide_False by apply not_elem_of_empty.
      by apply lookup_app_l_Some.
    + by eapply IH.
Qed.

(** What [add_OP_node] does to the store for an op with one output
    slot. *)
Lemma add_OP_node_single pos tn k st k' st' :
  length (outputs tn) = 1 →
  add_OP_node pos tn k st = Ok (k', st') →
  (∀ a, a ∈ nodes st → a < length (heap_nodes st)) →
  let p := length (heap_nodes st) in
  ∃ members new,
    (∀ a, a ∈ members → a ∈ nodes st) ∧ k' = k ∧
    nodes st' = nodes st ++ [p] ∧
    heap_sets st' = heap_sets st ++ [members] ∧
    length (heap_nodes st') = S p ∧
    heap_nodes st' !! p = Some new ∧
    out_nodes new = ∅ ∧ in_nodes new = length (heap_sets st) ∧
    ∀ a n, heap_nodes st !! a = Some n →
      heap_nodes st' !! a =
      Some (if decide (a ∈ members)
            then with_out_nodes (out_nodes n ∪ {[p]}) n else n).
Proof.
  intros Hone Hrun Halloc p. unfold add_OP_node in Hrun.
  apply bind_inv_Ok in Hrun as (node_scope & st1 & H1 & Hrun).
  injection H1 as <- <-. rewrite bind_get in Hrun.
  apply bind_inv_Ok in Hrun as (members & st2 & H2 & Hrun).
  apply lift_inv_Ok in H2 as [Hmem ->].
  apply bind_inv_Ok in Hrun as (input_nodes & st3 & H3 & Hrun).
  injection H3 as <- <-.
  apply bind_inv_Ok in Hrun as (first & st4 & H4 & Hrun).
  destruct (outputs tn) as [|o [|o' rest]] eqn:Hout; [done| |done].
  injection H4 as <- <-.
  apply bind_inv_Ok in Hrun as (shape & st5 & H5 & Hrun).
  apply lift_inv_Ok in H5 as [_ ->].
  apply bind_inv_Ok in Hrun as (new_node & st6 & H6 & Hrun).
  set (r := most_specific_scope (profiled_layers st) (scopeName tn)) in *.
  set (proto :=
    mkNode (if bool_decide (r ≠ EmptyString) then r else raw_op_scope tn pos)
      (num_inputs_buffs_params st + pos + k)
      (if bool_decide (r ≠ EmptyString) then LAYER else OP)
      ∅ (WInt 0) 10 [shape] (length (heap_sets st))).
  assert (new_node = length (heap_nodes st) ∧
          st6 = with_heap_nodes (heap_nodes st ++ [proto])
                  (with_heap_sets (heap_sets st ++ [members]) st))
    as [-> ->].
  { unfold proto. by destruct (bool_decide (r ≠ EmptyString));
      injection H6 as <- <-. }
  clear H6.
  destruct (wire_inputs_run (elements members) (length (heap_nodes st))
    (with_heap_nodes (heap_nodes st ++ [proto])
       (with_heap_sets (heap_sets st ++ [members]) st)))
    as (h & Hwire & Hlen & Hsame & Hwired).
  rewrite (bind_Ok _ _ _ _ _ Hwire) in Hrun.
  unfold append_node in Hrun. rewrite bind_modify in Hrun. simpl in *.
  injection Hrun as <- <-. simpl.
  assert (∀ a, a ∈ members → a ∈ nodes st) as Hmembers.
  { by apply (input_node_set_members _ _ _ Hmem). }
  exists members, proto. split; [done|]. split; [done|]. split; [done|].
  split; [done|]. split.
  { rewrite Hlen, length_app. simpl. fold p. lia. }
  split.
  { rewrite Hsame.
    - by apply list_lookup_middle.
    - intros Hin. apply elem_of_elements, Hmembers, Halloc in Hin. lia. }
  split; [done|]. split; [done|].
  intros a m Hm. destruct (decide (a ∈ members)) as [Ha|Ha].
  - rewrite Hwired by by apply elem_of_elements.
    by rewrite (lookup_app_l_Some _ _ _ _ Hm).
  - rewrite Hsame by by rewrite elem_of_elements.
    by apply lookup_app_l_Some.
Qed.

Lemma _add_OP_nodes_from_well_formed (OP_nodes : list TraceNode) :
  ∀ pos k st k' st',
    Forall (λ tn, length (outputs tn) = 1) OP_nodes →
    nodes st = seq 0 (length (heap_nodes st)) → well_formed st →
    _add_OP_nodes_from pos OP_nodes k st = Ok (k', st') →
    nodes st' = seq 0 (length (heap_nodes st')) ∧ well_formed st'.
Proof.
  induction OP_nodes as [|tn rest IH];
    intros pos k st k' st' Hone Hseq Hwf Hrun; simpl in Hrun.
  - by injection Hrun as _ <-.
  - apply Forall_cons in Hone as [Hone Hrest].
    apply bind_inv_Ok in Hrun as (k1 & st1 & Hop & Hrun).
    destruct (add_OP_node_single _ _ _ _ _ _ Hone Hop)
      as (members & new & Hmembers & _ & Hnodes1 & Hsets1 & Hlen1 & Hnew
          & Hnewout & Hnewin & Hold).
    { intros a Ha. rewrite Hseq in Ha. apply elem_of_seq in Ha. lia. }
    destruct (well_formed_add_node st st1 members new) as [Hseq1 Hwf1];
      try done.
    { intros a Ha. apply Hmembers in Ha. rewrite Hseq in Ha.
      apply elem_of_seq in Ha. lia. }
    by eapply IH.
Qed.

(** Changing attributes other than the edge sets keeps a graph well
    formed. *)
Lemma well_formed_relabel (h : list Node) st :
  (∀ a, match h !! a, heap_nodes st !! a with
        | Some n', Some n =>
            out_nodes n' = out_nodes n ∧ in_nodes n' = in_nodes n
        | None, None => True
        | _, _ => False
        end) →
  well_formed st → well_formed (with_heap_nodes h st).
Proof.
  intros Hh.
  assert (∀ a n', h !! a = Some n' →
            ∃ n, heap_nodes st !! a = Some n ∧
                 out_nodes n' = out_nodes n ∧ in_nodes n' = in_nodes n)
    as Hback.
  { intros a n' Hn'. specialize (Hh a). rewrite Hn' in Hh.
    destruct (heap_nodes st !! a) as [m|]; [|done]. by exists m. }
  assert (length h = length (heap_nodes st)) as Hlen.
  { apply Nat.le_antisymm.
    - destruct (decide (length h ≤ length (heap_nodes st))) as [|Hgt];
        [done|].
      destruct (lookup_lt_is_Some_2 h (length (heap_nodes st))) as [n' Hn'];
        [lia|].
      destruct (Hback _ _ Hn') as (m & Hm & _).
      apply lookup_lt_Some in Hm. lia.
    - destruct (decide (length (heap_nodes st) ≤ length h)) as [|Hgt];
        [done|].
      destruct (lookup_lt_is_Some_2 (heap_nodes st) (length h)) as [m Hm];
        [lia|].
      specialize (Hh (length h)). rewrite Hm in Hh.
      destruct (h !! length h) as [n'|] eqn:Hn'; [|done].
      apply lookup_lt_Some in Hn'. lia. }
  assert (∀ a, out_of (with_heap_nodes h st) a = out_of st a ∧
               in_of (with_heap_nodes h st) a = in_of st a) as Hedges.
  { intros a. unfold out_of, in_of. simpl. specialize (Hh a).
    destruct (h !! a) as [n'|], (heap_nodes st !! a) as [m|]; try done.
    simpl. by destruct Hh as [-> ->]. }
  intros (Hnd & Halloc & [Hlocs Hinj] & Hwithin & Hbi & Hfwd).
  split; [done|]. split; [simpl; by rewrite Hlen|].
  split; [|split; [|split]].
  - split.
    + intros a n' Hn'. destruct (Hback a n' Hn') as (m & Hm & _ & ->).
      by eapply Hlocs.
    + intros a b na nb Ha Hb Heq.
      destruct (Hback a na Ha) as (m & Hm & _ & Hna).
      destruct (Hback b nb Hb) as (m' & Hm' & _ & Hnb).
      eapply Hinj; [done|done|congruence].
  - intros u v Hu. destruct (Hedges u) as [-> ->]. by apply Hwithin.
  - intros u v Hu Hv. destruct (Hedges u) as [-> _].
    destruct (Hedges v) as [_ ->]. by apply Hbi.
  - intros u v Hu. destruct (Hedges u) as [-> ->]. by apply Hfwd.
Qed.

(** A trace whose ops all have one output slot gives a well-formed graph:
    in the graph that the constructor returns the nodes are distinct
    objects, every edge is recorded at both of its ends, leads to a node of
    the graph, and goes from a node made earlier to a node made later. *)
Theorem Graph_init_single_output_well_formed (L : list string) (n : nat)
    (names : list string) (tg : TraceGraph) (weights : gmap string Weight)
    (st : State) :
  single_output tg →
  Graph_init L n names tg weights = Ok st →
  well_formed st ∧ bidirectional st ∧ edges_within_graph st.
Proof.
  intros Hone Hinit.
  enough (well_formed st) as Hwf.
  { split; [done|]. by destruct Hwf as (_ & _ & _ & ? & ? & _). }
  unfold Graph_init in Hinit.
  destruct ((let! _ := _build_graph tg in overlay_weights weights)
              (initial L n names)) as [[[] st6]|e|] eqn:Hrun; [|done..].
  injection Hinit as ->.
  apply bind_inv_Ok in Hrun as ([] & st5 & Hbuild & Hoverlay).
  destruct (_build_graph_stages _ _ _ _ _ Hbuild)
    as (st1 & st2 & st3 & st4 & out_indices & HIO & _ & HOP & _ & Hconst & _
        & Hnowhere & Hnorm).
  destruct (_add_IO_nodes_from_well_formed (trace_inputs tg) 0
              (initial L n names) st1 eq_refl (well_formed_initial L n names)
              HIO) as [Hseq1 Hwf1].
  unfold _add_OP_nodes in HOP.
  apply bind_inv_Ok in HOP as (k & st2' & HOP & [= <-]).
  destruct (_add_OP_nodes_from_well_formed _ _ _ _ _ _ Hone Hseq1 Hwf1 HOP)
    as [_ Hwf2].
  pose proof (_remove_nodes_well_formed _ _ _ Hwf2 Hconst) as Hwf3.
  pose proof (_remove_nodes_well_formed _ _ _ Hwf3 Hnowhere) as Hwf4.
  assert (well_formed st5) as Hwf5.
  { destruct (normalize_from_spec (nodes st4) 0 st4) as (h & Hrun & Ho & Hp).
    { by destruct Hwf4. }
    unfold _normalize_indices in Hnorm. rewrite bind_get, Hrun in Hnorm.
    injection Hnorm as <-.
    apply well_formed_relabel; [|done]. intros a.
    destruct (decide (a ∈ nodes st4)) as [Ha|Ha].
    - apply list_elem_of_lookup in Ha as [p Hpa]. rewrite (Hp p a Hpa).
      by destruct (heap_nodes st4 !! a).
    - rewrite (Ho a Ha). by destruct (heap_nodes st4 !! a). }
  destruct (overlay_loop_spec weights (nodes st5) st5)
    as (h' & Hrun' & Hin & Hout).
  unfold overlay_weights in Hoverlay. rewrite bind_get, Hrun' in Hoverlay.
  injection Hoverlay as <-.
  apply well_formed_relabel; [|done]. intros a.
  destruct (decide (a ∈ nodes st5)) as [Ha|Ha].
  - rewrite (Hin a Ha). by destruct (heap_nodes st5 !! a).
  - rewrite (Hout a Ha). by destruct (heap_nodes st5 !! a).
Qed.

Lemma Graph_init_single_output_well_formed_witness :
  ∃ st,
    Graph_init ["Net/Linear[fc1]"] 1 [] constant_between_trace ∅ = Ok st ∧
    well_formed st ∧ bidirectional st ∧ edges_within_graph st.
Proof.
  assert (∃ st, Graph_init ["Net/Linear[fc1]"] 1 [] constant_between_trace ∅
                = Ok st) as [st Hst].
  { eexists. vm_compute. reflexivity. }
  exists st. split; [exact Hst|].
  assert (single_output constant_between_trace) as Hone
    by (repeat constructor).
  exact (Graph_init_single_output_well_formed _ _ _ _ _ _ Hone Hst).
Defined.

(** [well_formed] for a given store, through checks that can be run. *)
Lemma well_formed_check st :
  NoDup (nodes st) →
  Forall (λ a, a < length (heap_nodes st)) (nodes st) →
  Forall (λ n, in_nodes n < length (heap_sets st)) (heap_nodes st) →
  NoDup (in_nodes <$> heap_nodes st) →
  Forall (λ u, Forall (λ v, v ∈ nodes st)
                 (elements (out_of st u ∪ in_of st u))) (nodes st) →
  Forall (λ u, Forall (λ v, v ∈ out_of st u ↔ u ∈ in_of st v) (nodes st))
    (nodes st) →
  Forall (λ u, Forall (λ v, u < v) (elements (out_of st u)) ∧
               Forall (λ v, v < u) (elements (in_of st u))) (nodes st) →
  well_formed st.
Proof.
  intros Hnd Halloc Hlocs Hinj Hwithin Hbi Hfwd.
  split; [done|]. split; [by apply Forall_forall|]. split; [|split; [|split]].
  - split.
    + intros a n Hn. rewrite Forall_lookup in Hlocs. by eapply Hlocs.
    + intros a b na nb Ha Hb Heq.
      eapply (NoDup_lookup _ a b); [exact Hinj| |].
      * by rewrite list_lookup_fmap, Ha.
      * by rewrite list_lookup_fmap, Hb, Heq.
  - by apply edges_within_graph_check.
  - by apply bidirectional_check.
  - intros u v Hu. rewrite Forall_forall in Hfwd.
    destruct (Hfwd u Hu) as [Ho Hi]. rewrite Forall_forall in Ho, Hi.
    split; intros Hv; [apply Ho|apply Hi]; by apply elem_of_elements.
Qed.

(** [_remove_nodes] keeps a well-formed graph well formed, for every
    condition that reads the node only: it returns, the nodes left are a
    sublist of those before and none of them meets the condition, and the
    edges among them are still recorded at both ends, within the graph, and
    leading forward. *)
Theorem _remove_nodes_keeps_well_formed (condition : Condition)
    (st : State) :
  reads_node_only condition → well_formed st →
  ∃ st',
    _remove_nodes condition false st = Ok (tt, st') ∧
    nodes st' `sublist_of` nodes st ∧
    Forall (λ a, condition a st' = false) (nodes st') ∧
    well_formed st' ∧ bidirectional st' ∧ edges_within_graph st'.
Proof.
  intros Hreads Hwf.
  destruct (_remove_nodes_terminates condition false st Hreads)
    as (st' & Hrun & _ & Hall).
  exists st'. split; [done|]. split; [by eapply _remove_nodes_sublist|].
  split; [done|].
  pose proof (_remove_nodes_well_formed _ _ _ Hwf Hrun) as Hwf'.
  split; [done|]. by destruct Hwf' as (_ & _ & _ & ? & ? & _).
Qed.

Lemma _remove_nodes_keeps_well_formed_witness :
  ∃ st',
    _remove_nodes is_constant false constant_between = Ok (tt, st') ∧
    nodes st' `sublist_of` nodes constant_between ∧
    Forall (λ a, is_constant a st' = false) (nodes st') ∧
    well_formed st' ∧ bidirectional st' ∧ edges_within_graph st'.
Proof.
  apply (_remove_nodes_keeps_well_formed is_constant constant_between).
  - intros a l st. reflexivity.
  - apply well_formed_check; by_computing.
Defined.

(** ** utils.py: class OrderedSet *)

Section OrderedSet_proofs.
Context {K : Type} `{EqDecision K}.
Implicit Types (s : OrderedSet K) (store : list (Cell K))
  (entries : list (K * addr)).

Lemma default_last_cons {A} (p a : A) (l : list A) :
  default p (last (a :: l)) = default a (last l).
Proof. rewrite last_cons. by destruct (last l). Qed.

Lemma default_last_elem_of {A} (x b : A) (l : list A) :
  default x (last (b :: l)) ∈ b :: l.
Proof.
  destruct (last (b :: l)) as [y|] eqn:Hlast; simpl.
  - by apply last_Some_elem_of.
  - rewrite last_cons in Hlast. by destruct (last l).
Qed.

Lemma chain_frame store store' p entries stop :
  (∀ a, a ∈ entries.*2 → store' !! a = store !! a) →
  chain store p entries stop → chain store' p entries stop.
Proof.
  revert p. induction entries as [|[k a] rest IH]; intros p Hsame; simpl;
    [done|].
  intros [Ha Hrest]. split.
  - rewrite Hsame; [done|]. apply list_elem_of_here.
  - apply IH; [|done]. intros b Hb. apply Hsame. by apply list_elem_of_further.
Qed.

Lemma chain_allocated store p entries stop a :
  chain store p entries stop → a ∈ entries.*2 → a < length store.
Proof.
  revert p. induction entries as [|[k b] rest IH]; intros p; simpl.
  - intros _ Ha. by apply elem_of_nil in Ha.
  - intros [Hb Hrest] Ha. apply elem_of_cons in Ha as [->|Ha].
    + by eapply lookup_lt_Some.
    + by eapply IH.
Qed.

Lemma chain_app store p e1 e2 stop :
  chain store p (e1 ++ e2) stop ↔
  chain store p e1 (hd stop e2.*2) ∧
  chain store (default p (last e1.*2)) e2 stop.
Proof.
  revert p. induction e1 as [|[k a] rest IH]; intros p; simpl.
  - tauto.
  - rewrite IH. rewrite fmap_app.
    assert (hd stop (rest.*2 ++ e2.*2) = hd (hd stop e2.*2) rest.*2) as ->.
    { by destruct rest. }
    rewrite default_last_cons. tauto.
Qed.

(** Binding [next] of the last cell to [stop']. *)
Lemma chain_set_stop store p entries stop stop' :
  NoDup entries.*2 → chain store p entries stop →
  chain (alter (set_next stop') (default p (last entries.*2)) store)
    p entries stop'.
Proof.
  revert p. induction entries as [|[k a] rest IH]; intros p Hnd; simpl;
    [done|].
  intros [Ha Hrest]. apply NoDup_cons in Hnd as [Hnotin Hnd].
  destruct rest as [|[k' a'] rest'].
  - simpl. split; [|done]. by rewrite list_lookup_alter_eq, Ha.
  - rewrite fmap_cons, default_last_cons. split.
    + rewrite list_lookup_alter_ne; [done|]. intros Heq. apply Hnotin.
      rewrite <- Heq. apply default_last_elem_of.
    + by apply IH.
Qed.

(** Binding [prev] of the first cell to [p']. *)
Lemma chain_set_prev store p p' entries stop :
  NoDup entries.*2 → chain store p entries stop →
  chain (alter (set_prev p') (hd stop entries.*2) store) p' entries stop.
Proof.
  destruct entries as [|[k a] rest]; intros Hnd; simpl; [done|].
  intros [Ha Hrest]. apply NoDup_cons in Hnd as [Hnotin Hnd]. split.
  - by rewrite list_lookup_alter_eq, Ha.
  - eapply chain_frame; [|exact Hrest]. intros b Hb.
    rewrite list_lookup_alter_ne; [done|]. by intros ->.
Qed.

(** The walk along [next] from the first cell yields the keys in the order
    of the dictionary. *)
Lemma walk_next s p entries fuel :
  chain (cells s) p entries end_ → end_ ∉ entries.*2 →
  length entries ≤ fuel →
  walk fuel cell_next (hd end_ entries.*2) s = Returns entries.*1.
Proof.
  revert p fuel. induction entries as [|[k a] rest IH]; intros p fuel; simpl.
  - intros _ _ _. by destruct fuel.
  - intros [Ha Hrest] Hend Hfuel. apply not_elem_of_cons in Hend as [Hne Hend].
    destruct fuel as [|fuel]; [lia|]. simpl.
    destruct a as [|a]; [done|]. simpl. unfold read. rewrite Ha. simpl.
    rewrite (IH (S a) fuel); [done|done|done|lia].
Qed.

(** The walk along [prev] from the last cell yields them in the reverse
    order. *)
Lemma walk_prev s entries stop fuel :
  chain (cells s) end_ entries stop → end_ ∉ entries.*2 →
  length entries ≤ fuel →
  walk fuel cell_prev (default end_ (last entries.*2)) s
  = Returns (reverse entries.*1).
Proof.
  revert stop fuel. induction entries as [|[k a] rest IH] using rev_ind;
    intros stop fuel.
  - intros _ _ _. by destruct fuel.
  - rewrite chain_app. simpl. intros (Hrest & Ha & _) Hend Hfuel.
    rewrite fmap_app in Hend. apply not_elem_of_app in Hend as [Hend Hne].
    rewrite length_app in Hfuel. simpl in Hfuel.
    rewrite !fmap_app. cbn [fmap list_fmap]. rewrite last_snoc, reverse_snoc.
    cbn [default]. destruct fuel as [|fuel]; [lia|]. simpl.
    destruct a as [|a].
    { exfalso. apply Hne. apply list_elem_of_here. }
    simpl. unfold read. rewrite Ha. simpl.
    rewrite (IH (S a) fuel); [done|done|done|lia].
Qed.


Lemma represents_empty : represents (@empty_set K).
Proof.
  split; [apply NoDup_nil_2|]. split; [apply NoDup_singleton|]. by split.
Qed.

Lemma represents_allocated s a :
  represents s → a = end_ ∨ a ∈ (key_map s).*2 → a < length (cells s).
Proof.
  intros (_ & _ & Hchain & Hend) [->|Ha].
  - by eapply lookup_lt_Some.
  - by eapply chain_allocated.
Qed.

Lemma represents_length s :
  represents s → length (key_map s) < length (cells s).
Proof.
  intros Hrep. pose proof Hrep as (_ & Hnd & _).
  assert (end_ :: (key_map s).*2 ⊆+ seq 0 (length (cells s))) as Hsub.
  { apply NoDup_submseteq; [done|]. intros a Ha. apply elem_of_seq.
    split; [lia|]. simpl. apply represents_allocated; [done|].
    apply elem_of_cons in Ha as [->|Ha]; [by left|by right]. }
  apply submseteq_length in Hsub. rewrite length_seq in Hsub. simpl in Hsub.
  rewrite length_fmap in Hsub. lia.
Qed.

Lemma iter_represents s :
  represents s → iter s = Returns (key_map s).*1.
Proof.
  intros Hrep. pose proof (represents_length s Hrep) as Hlen.
  destruct Hrep as (_ & Hnd & Hchain & Hend).
  unfold iter, read. rewrite Hend. simpl.
  apply NoDup_cons in Hnd as [Hne _].
  eapply walk_next; [done|done|lia].
Qed.

Lemma reversed_represents s :
  represents s → reversed s = Returns (reverse (key_map s).*1).
Proof.
  intros Hrep. pose proof (represents_length s Hrep) as Hlen.
  destruct Hrep as (_ & Hnd & Hchain & Hend).
  unfold reversed, read. rewrite Hend. simpl.
  apply NoDup_cons in Hnd as [Hne _].
  eapply walk_prev; [done|done|lia].
Qed.

Lemma contains_key_spec key s :
  contains_key key s = bool_decide (key ∈ (key_map s).*1).
Proof. done. Qed.

Lemma write_allocated a f s :
  a < length (cells s) →
  write a f s = Returns (mkOrderedSet (alter f a (cells s)) (key_map s)).
Proof. intros Ha. unfold write. by rewrite (proj2 (Nat.ltb_lt _ _) Ha). Qed.

(** [add] on a set of the class: a new key goes to the end, a key of the
    set changes nothing. *)
Lemma add_represents key s :
  represents s →
  ∃ s',
    add key s = Returns s' ∧ represents s' ∧
    (key_map s').*1 =
      (if bool_decide (key ∈ (key_map s).*1) then (key_map s).*1
       else (key_map s).*1 ++ [key]).
Proof.
  intros Hrep. unfold add. rewrite contains_key_spec.
  destruct (bool_decide (key ∈ (key_map s).*1)) eqn:Hin; [by exists s|].
  apply bool_decide_eq_false in Hin.
  pose proof (represents_allocated s end_ Hrep (or_introl eq_refl)) as Hend_alloc.
  pose proof Hrep as (Hkeys & Hnd & Hchain & Hend).
  set (curr := default end_ (last (key_map s).*2)).
  set (new := length (cells s)).
  assert (curr < length (cells s)) as Hcurr.
  { apply represents_allocated; [done|]. unfold curr.
    destruct (key_map s).*2 as [|b l] eqn:Haddrs; [by left|]. right.
    apply default_last_elem_of. }
  unfold read. rewrite Hend. simpl. fold curr. fold new.
  rewrite write_allocated by (simpl; rewrite length_app; simpl; lia).
  simpl. rewrite write_allocated
    by (simpl; rewrite length_alter, length_app; simpl; lia).
  simpl. eexists. split; [done|]. simpl.
  assert (new ∉ end_ :: (key_map s).*2) as Hnew.
  { intros Hmem. assert (new < length (cells s)); [|unfold new in *; lia].
    apply represents_allocated; [done|].
    apply elem_of_cons in Hmem as [->|Hmem]; [by left|by right]. }
  apply not_elem_of_cons in Hnew as [Hnew_end Hnew].
  apply NoDup_cons in Hnd as [Hend_notin Hnd].
  split; [|by rewrite fmap_app]. unfold represents. simpl.
  rewrite !fmap_app. simpl. split; [|split; [|split]].
  - apply NoDup_app. split; [done|]. split; [|apply NoDup_singleton].
    intros x Hx Hx'. apply list_elem_of_singleton in Hx'. by subst.
  - apply NoDup_cons. split.
    + intros Hmem. apply elem_of_app in Hmem as [Hmem|Hmem]; [done|].
      apply list_elem_of_singleton in Hmem. done.
    + apply NoDup_app. split; [done|]. split; [|apply NoDup_singleton].
      intros x Hx Hx'. apply list_elem_of_singleton in Hx'. by subst.
  - apply chain_app. simpl. split.
    + eapply chain_frame;
        [|apply (chain_set_stop (cells s ++ [mkCell (Some key) curr end_])
                   end_ (key_map s) end_ new Hnd)].
      * intros a Ha. rewrite list_lookup_alter_ne; [done|].
        intros <-. done.
      * eapply chain_frame; [|exact Hchain]. intros a Ha.
        apply lookup_app_l. by eapply chain_allocated.
    + split; [|done].
      rewrite list_lookup_alter_ne by done.
      rewrite list_lookup_alter_ne by (fold curr; lia).
      by rewrite list_lookup_middle.
  - rewrite list_lookup_alter_eq. rewrite last_snoc. simpl.
    destruct (decide (curr = end_)) as [Hc|Hc].
    + rewrite Hc, list_lookup_alter_eq, lookup_app_l, Hend by done. simpl.
      unfold set_prev, set_next. simpl. f_equal. f_equal.
      unfold curr in Hc. destruct (key_map s).*2 as [|b l] eqn:Haddrs; [done|].
      exfalso. apply Hend_notin. rewrite <- Hc. apply default_last_elem_of.
    + rewrite list_lookup_alter_ne by done.
      rewrite lookup_app_l, Hend by done. simpl.
      unfold set_prev. simpl. f_equal. f_equal.
      unfold curr in Hc. by destruct (key_map s).*2.
Qed.

Lemma hd_app {A} (d : A) (l1 l2 : list A) :
  hd d (l1 ++ l2) = hd (hd d l2) l1.
Proof. by destruct l1. Qed.

Lemma default_last_app {A} (d : A) (l1 l2 : list A) :
  default d (last (l1 ++ l2)) = default (default d (last l1)) (last l2).
Proof.
  induction l2 as [|x l2 IH] using rev_ind; [by rewrite app_nil_r|].
  by rewrite app_assoc, !last_snoc.
Qed.

(** The entry of a key of the dictionary, with the entries before and after
    it. *)
Lemma entries_split entries key :
  NoDup entries.*1 → key ∈ entries.*1 →
  ∃ e1 a e2,
    entries = e1 ++ (key, a) :: e2 ∧
    (λ found, found.2.2) <$> list_find (λ entry, entry.1 = key) entries
    = Some a ∧
    filter (λ entry, entry.1 ≠ key) entries = e1 ++ e2.
Proof.
  induction entries as [|[k a] rest IH]; simpl; intros Hnd Hin.
  - by apply elem_of_nil in Hin.
  - apply NoDup_cons in Hnd as [Hk Hnd].
    destruct (decide (k = key)) as [->|Hne].
    + exists [], a, rest. split; [done|]. split.
      * done.
      * rewrite filter_cons_False by (simpl; by intros ?).
        apply filter_Forall_all, Forall_forall. intros [k' a'] Hin' Heq.
        simpl in Heq. subst k'. apply Hk. apply list_elem_of_fmap. by exists (key, a').
    + apply elem_of_cons in Hin as [->|Hin]; [done|].
      destruct (IH Hnd Hin) as (e1 & b & e2 & -> & Hfind & Hfilter).
      exists ((k, a) :: e1), b, e2. split; [done|]. split.
      * destruct (list_find (λ entry, entry.1 = key) (e1 ++ (key, b) :: e2))
          as [[i x]|]; [|done]. simpl in *. done.
      * rewrite filter_cons_True by done. by rewrite Hfilter.
Qed.

Lemma map_get_absent key s :
  key ∉ (key_map s).*1 → map_get key s = None.
Proof.
  intros Hnot. unfold map_get.
  destruct (list_find (λ entry, entry.1 = key) (key_map s)) as [[i x]|]
    eqn:Hfind; [|done].
  apply list_find_Some in Hfind as (Hx & Hkey & _). exfalso. apply Hnot.
  apply list_elem_of_fmap. exists x. split; [done|].
  by eapply list_elem_of_lookup_2.
Qed.

(** [discard] of a key of the set unlinks its cell and leaves the cell as
    it is. *)
Lemma discard_split key a e1 e2 s :
  represents s → key_map s = e1 ++ (key, a) :: e2 →
  ∃ s',
    discard key s = Returns s' ∧ represents s' ∧ key_map s' = e1 ++ e2 ∧
    cells s' !! a = cells s !! a ∧ length (cells s') = length (cells s).
Proof.
  intros Hrep Hmap.
  pose proof Hrep as (Hkeys & Hnd & Hchain & Hend).
  assert (key ∈ (key_map s).*1) as Hin.
  { rewrite Hmap, fmap_app. apply elem_of_app. right. apply list_elem_of_here. }
  destruct (entries_split (key_map s) key Hkeys Hin)
    as (e1' & a' & e2' & Hmap' & Hget & Hfilter).
  assert (e1' = e1 ∧ a' = a ∧ e2' = e2) as (-> & -> & ->).
  { rewrite Hmap in Hmap'. rewrite Hmap in Hkeys.
    assert ((key ∉ e1.*1) ∧ (key ∉ e1'.*1)) as [Hk1 Hk1'].
    { split.
      - rewrite fmap_app in Hkeys. apply NoDup_app in Hkeys as (_ & Hdisj & _).
        intros Hk. apply (Hdisj key Hk). apply list_elem_of_here.
      - rewrite Hmap', fmap_app in Hkeys.
        apply NoDup_app in Hkeys as (_ & Hdisj & _).
        intros Hk. apply (Hdisj key Hk). apply list_elem_of_here. }
    clear -Hmap' Hk1 Hk1'. revert e1' Hmap' Hk1'.
    induction e1 as [|[k b] e1 IH]; intros [|[k' b'] e1'] Heq Hk1'; simpl in *.
    - by injection Heq as -> ->.
    - injection Heq as <- <- _. exfalso. apply Hk1'. apply list_elem_of_here.
    - injection Heq as -> -> _. exfalso. apply Hk1. apply list_elem_of_here.
    - injection Heq as <- <- Heq.
      destruct (IH (λ H, Hk1 (list_elem_of_further _ _ _ H)) e1' Heq
                  (λ H, Hk1' (list_elem_of_further _ _ _ H)))
        as (-> & -> & ->). done. }
  clear Hmap'.
  rewrite Hmap in Hchain. apply chain_app in Hchain as [Hchain1 Hchain2].
  simpl in Hchain1, Hchain2. destruct Hchain2 as [Ha Hchain2].
  set (prevA := default end_ (last e1.*2)) in *.
  set (nextA := hd end_ e2.*2) in *.
  rewrite Hmap, fmap_app in Hnd. simpl in Hnd.
  apply NoDup_cons in Hnd as [Hend_notin Hnd].
  apply NoDup_app in Hnd as (Hnd1 & Hdisj & Hnd2).
  apply NoDup_cons in Hnd2 as [Ha2 Hnd2].
  apply not_elem_of_app in Hend_notin as [Hend1 Hend2].
  apply not_elem_of_cons in Hend2 as [Hend_a Hend2].
  assert (prevA = end_ ∧ e1 = [] ∨ prevA ∈ e1.*2) as HprevA.
  { unfold prevA. destruct e1 as [|[k b] e1]; [by left|]. right.
    apply default_last_elem_of. }
  assert (nextA = end_ ∧ e2 = [] ∨ nextA ∈ e2.*2) as HnextA.
  { unfold nextA. destruct e2 as [|[k b] e2]; [by left|]. right.
    apply list_elem_of_here. }
  assert (a ≠ prevA) as Hap.
  { intros ->. destruct HprevA as [[Hp _]|Hp]; [done|].
    apply (Hdisj _ Hp). apply list_elem_of_here. }
  assert (a ≠ nextA) as Han.
  { intros ->. destruct HnextA as [[Hn _]|Hn]; done. }
  assert (prevA ∉ e2.*2) as Hp2.
  { intros Hp. destruct HprevA as [[Hp' _]|Hp']; [by rewrite Hp' in Hp|].
    apply (Hdisj _ Hp'). by apply list_elem_of_further. }
  assert (nextA ∉ e1.*2) as Hn1.
  { intros Hn. destruct HnextA as [[Hn' _]|Hn']; [by rewrite Hn' in Hn|].
    apply (Hdisj _ Hn). by apply list_elem_of_further. }
  assert (prevA < length (cells s)) as Hprev_alloc.
  { apply represents_allocated; [done|]. rewrite Hmap, fmap_app.
    destruct HprevA as [[-> _]|Hp]; [by left|right].
    apply elem_of_app. by left. }
  assert (nextA < length (cells s)) as Hnext_alloc.
  { apply represents_allocated; [done|]. rewrite Hmap, fmap_app.
    destruct HnextA as [[-> _]|Hn]; [by left|right].
    apply elem_of_app. right. by apply list_elem_of_further. }
  unfold discard, map_get. rewrite Hget. unfold read. rewrite Ha. simpl.
  rewrite Hfilter. fold prevA nextA.
  rewrite write_allocated by done. simpl.
  rewrite write_allocated by (simpl; by rewrite length_alter). simpl.
  eexists. split; [done|]. split; [|split; [done|split]].
  - unfold represents. simpl. rewrite !fmap_app.
    rewrite Hmap, fmap_app in Hkeys. simpl in Hkeys.
    apply NoDup_app in Hkeys as (Hk1 & Hkdisj & Hk2).
    apply NoDup_cons in Hk2 as [_ Hk2].
    split; [|split; [|split]].
    + apply NoDup_app. split; [done|]. split; [|done].
      intros x Hx Hx'. apply (Hkdisj x Hx). by apply list_elem_of_further.
    + apply NoDup_cons. split.
      * intros Hmem. apply elem_of_app in Hmem as [Hmem|Hmem]; done.
      * apply NoDup_app. split; [done|]. split; [|done].
        intros x Hx Hx'. apply (Hdisj x Hx). by apply list_elem_of_further.
    + apply chain_app. split.
      * eapply chain_frame;
          [|apply (chain_set_stop (cells s) end_ e1 a nextA Hnd1 Hchain1)].
        intros b Hb. rewrite list_lookup_alter_ne; [done|]. by intros <-.
      * apply (chain_set_prev _ a prevA e2 end_ Hnd2).
        eapply chain_frame; [|exact Hchain2]. intros b Hb.
        rewrite list_lookup_alter_ne; [done|]. by intros <-.
    + rewrite hd_app, default_last_app. fold prevA nextA.
      rewrite Hmap, fmap_app in Hend. simpl in Hend.
      rewrite hd_app, default_last_app in Hend. simpl in Hend.
      rewrite default_last_cons in Hend.
      assert (default prevA (last e2.*2)
              = if decide (nextA = end_) then prevA
                else default a (last e2.*2)) as ->.
      { destruct (decide (nextA = end_)) as [Hn|Hn].
        - destruct HnextA as [[_ ->]|Hmem]; [done|]. by rewrite Hn in Hmem.
        - destruct e2 as [|[k b] e2]; [done|]. simpl.
          by rewrite !default_last_cons. }
      assert (hd nextA e1.*2
              = if decide (prevA = end_) then nextA else hd a e1.*2) as ->.
      { destruct (decide (prevA = end_)) as [Hp|Hp].
        - destruct HprevA as [[_ ->]|Hmem]; [done|]. by rewrite Hp in Hmem.
        - by destruct e1 as [|[k b] e1]. }
      destruct (decide (nextA = end_)) as [Hn|Hn],
               (decide (prevA = end_)) as [Hp|Hp].
      * rewrite Hn, Hp, !list_lookup_alter_eq, Hend. simpl.
        done.
      * rewrite Hn, list_lookup_alter_eq, list_lookup_alter_ne, Hend by done.
        done.
      * rewrite list_lookup_alter_ne by done.
        rewrite Hp, list_lookup_alter_eq, Hend. simpl.
        done.
      * by rewrite !list_lookup_alter_ne, Hend by done.
  - simpl. by rewrite !list_lookup_alter_ne by done.
  - simpl. by rewrite !length_alter.
Qed.

Lemma discard_absent key s :
  key ∉ (key_map s).*1 → discard key s = Returns s.
Proof. intros Hnot. unfold discard. by rewrite map_get_absent. Qed.

Lemma update_represents keys s :
  represents s →
  ∃ s',
    update keys s = Returns s' ∧ represents s' ∧
    (key_map s').*1 = insert_all (key_map s).*1 keys.
Proof.
  revert s. induction keys as [|k keys IH]; intros s Hrep; simpl.
  - by exists s.
  - destruct (add_represents k s Hrep) as (s1 & -> & Hrep1 & Hkeys1). simpl.
    destruct (IH s1 Hrep1) as (s' & Hrun & Hrep' & Hkeys').
    exists s'. split; [done|]. split; [done|].
    unfold insert_all in *. simpl. by rewrite Hkeys', Hkeys1.
Qed.

Lemma insert_all_fresh (acc keys : list K) :
  NoDup (acc ++ keys) → insert_all acc keys = acc ++ keys.
Proof.
  revert acc. induction keys as [|k keys IH]; intros acc Hnd.
  - unfold insert_all. simpl. by rewrite app_nil_r.
  - unfold insert_all in *. simpl.
    rewrite bool_decide_eq_false_2.
    + rewrite IH; [by rewrite <- app_assoc|]. by rewrite <- app_assoc.
    + apply NoDup_app in Hnd as (_ & Hdisj & _). intros Hk.
      apply (Hdisj k Hk). apply list_elem_of_here.
Qed.

Lemma len_0 s : (len s =? 0) = bool_decide (key_map s = []).
Proof. unfold len. by destruct (key_map s). Qed.

(** [pop] takes the last key, or the first one, out of a set that is not
    empty. *)
Lemma pop_last_represents s entries k a :
  represents s → key_map s = entries ++ [(k, a)] →
  ∃ s', pop true s = Returns (k, s') ∧ represents s' ∧ key_map s' = entries.
Proof.
  intros Hrep Hmap. pose proof Hrep as (_ & _ & Hchain & Hend).
  unfold pop. rewrite len_0, bool_decide_eq_false_2
    by (rewrite Hmap; by destruct entries).
  unfold read. rewrite Hend. simpl.
  rewrite Hmap, fmap_app.
  change ([(k, a)].*2) with [a]. rewrite last_snoc. simpl.
  rewrite Hmap in Hchain. apply chain_app in Hchain as [_ [Ha _]].
  rewrite Ha. simpl.
  destruct (discard_split k a entries [] s Hrep Hmap)
    as (s' & -> & Hrep' & Hmap' & _). simpl.
  exists s'. by rewrite app_nil_r in Hmap'.
Qed.

Lemma pop_first_represents s entries k a :
  represents s → key_map s = (k, a) :: entries →
  ∃ s', pop false s = Returns (k, s') ∧ represents s' ∧ key_map s' = entries.
Proof.
  intros Hrep Hmap. pose proof Hrep as (_ & _ & Hchain & Hend).
  unfold pop. rewrite len_0, bool_decide_eq_false_2 by by rewrite Hmap.
  unfold read. rewrite Hend. simpl. rewrite Hmap. simpl.
  rewrite Hmap in Hchain. destruct Hchain as [Ha _]. rewrite Ha. simpl.
  destruct (discard_split k a [] entries s Hrep Hmap)
    as (s' & -> & Hrep' & Hmap' & _). simpl.
  by exists s'.
Qed.

Lemma pop_empty last s : key_map s = [] → pop last s = Raises "KeyError".
Proof. intros Hmap. unfold pop. by rewrite len_0, Hmap. Qed.

(** The loop of [difference_update] over the entries [e2] that are still
    to come, the entries [e1] being done. *)
Lemma difference_update_from_spec (other : K → bool) e2 :
  ∀ e1 s fuel,
    represents s → key_map s = e1 ++ e2 → length e2 ≤ fuel →
    ∃ s',
      difference_update_from fuel other (hd end_ e2.*2) s = Returns s' ∧
      represents s' ∧
      key_map s' = e1 ++ filter (λ entry, other entry.1 = false) e2.
Proof.
  induction e2 as [|[k a] e2 IH]; intros e1 s fuel Hrep Hmap Hfuel.
  - exists s. simpl. split; [by destruct fuel|]. split; [done|].
    by rewrite Hmap.
  - simpl in Hfuel. destruct fuel as [|fuel]; [lia|].
    pose proof Hrep as (_ & Hnd & Hchain & _).
    assert (a ≠ end_) as Ha_end.
    { intros ->. apply NoDup_cons in Hnd as [Hnot _]. apply Hnot.
      rewrite Hmap, fmap_app. apply elem_of_app. right.
      apply list_elem_of_here. }
    rewrite Hmap in Hchain. apply chain_app in Hchain as [_ [Ha _]].
    simpl. rewrite (proj2 (Nat.eqb_neq a end_) Ha_end).
    unfold read at 1. rewrite Ha. simpl.
    destruct (other k) eqn:Hother.
    + destruct (discard_split k a e1 e2 s Hrep Hmap)
        as (s1 & -> & Hrep1 & Hmap1 & Hcell & Hlen). simpl.
      unfold read. rewrite Hcell, Ha. simpl.
      destruct (IH e1 s1 fuel Hrep1 Hmap1) as (s' & Hrun & Hrep' & Hmap');
        [lia|].
      exists s'. split; [done|]. split; [done|].
      by rewrite filter_cons_False by (simpl; by rewrite Hother).
    + simpl. unfold read. rewrite Ha. simpl.
      destruct (IH (e1 ++ [(k, a)]) s fuel Hrep) as (s' & Hrun & Hrep' & Hmap');
        [by rewrite <- app_assoc|lia|].
      exists s'. split; [done|]. split; [done|].
      rewrite filter_cons_True by done. by rewrite Hmap', <- app_assoc.
Qed.

Lemma difference_update_represents (other : K → bool) s :
  represents s →
  ∃ s',
    difference_update other s = Returns s' ∧ represents s' ∧
    (key_map s').*1 = filter (λ k, other k = false) (key_map s).*1.
Proof.
  intros Hrep. pose proof (represents_length s Hrep) as Hlen.
  pose proof Hrep as (_ & _ & _ & Hend).
  unfold difference_update, read. rewrite Hend. simpl.
  destruct (difference_update_from_spec other (key_map s) [] s
              (length (cells s)) Hrep eq_refl) as (s' & Hrun & Hrep' & Hmap');
    [lia|].
  exists s'. split; [done|]. split; [done|]. rewrite Hmap'. simpl.
  clear. induction (key_map s) as [|[k a] l IH]; [done|].
  rewrite fmap_cons, !filter_cons. simpl.
  destruct (decide (other k = false)); [rewrite fmap_cons; simpl|];
    by rewrite IH.
Qed.

Lemma insert_all_app (acc keys1 keys2 : list K) :
  insert_all acc (keys1 ++ keys2) = insert_all (insert_all acc keys1) keys2.
Proof. unfold insert_all. by rewrite foldl_app. Qed.

Lemma insert_all_elem_of (keys acc : list K) k :
  k ∈ insert_all acc keys ↔ k ∈ acc ∨ k ∈ keys.
Proof.
  revert acc. induction keys as [|x keys IH]; intros acc.
  - unfold insert_all. simpl. rewrite elem_of_nil. tauto.
  - change (insert_all acc (x :: keys))
      with (insert_all (if bool_decide (x ∈ acc) then acc else acc ++ [x])
              keys).
    rewrite IH, elem_of_cons. case_bool_decide as Hx.
    + split; [tauto|]. intros [?|[->|?]]; tauto.
    + rewrite elem_of_app, list_elem_of_singleton. tauto.
Qed.

Lemma insert_all_NoDup (keys acc : list K) :
  NoDup acc → NoDup (insert_all acc keys).
Proof.
  revert acc. induction keys as [|x keys IH]; intros acc Hnd; [done|].
  change (insert_all acc (x :: keys))
    with (insert_all (if bool_decide (x ∈ acc) then acc else acc ++ [x])
            keys).
  apply IH. case_bool_decide as Hx; [done|].
  apply NoDup_app. split; [done|]. split; [|apply NoDup_singleton].
  intros y Hy Hy'. apply list_elem_of_singleton in Hy'. by subst.
Qed.

(** The loop of [indexOf] over the entries that are still to come. *)
Lemma indexOf_from_spec key entries :
  ∀ p idx fuel s,
    chain (cells s) p entries end_ → end_ ∉ entries.*2 →
    length entries ≤ fuel →
    indexOf_from fuel key idx (hd end_ entries.*2) s
    = Returns (from_option (λ found, idx + Z.of_nat found.1)%Z (-1)%Z
                 (list_find (λ k, k = key) entries.*1)).
Proof.
  induction entries as [|[k a] rest IH]; intros p idx fuel s Hchain Hend Hfuel.
  - by destruct fuel.
  - simpl in Hfuel. destruct fuel as [|fuel]; [lia|].
    destruct Hchain as [Ha Hrest].
    assert (a ≠ end_) as Ha_end.
    { intros ->. apply Hend. apply list_elem_of_here. }
    simpl. rewrite (proj2 (Nat.eqb_neq a end_) Ha_end).
    unfold read. rewrite Ha. simpl.
    case_bool_decide as Hk; case_decide as Hk'; try congruence.
    + simpl. f_equal. lia.
    + rewrite (IH a (idx + 1)%Z fuel s Hrest); [| |lia].
      * destruct (list_find _ _) as [[i x]|]; simpl; [f_equal; lia|done].
      * intros Hin. apply Hend. by apply list_elem_of_further.
Qed.

Lemma indexOf_represents key s :
  represents s →
  indexOf key s
  = Returns (from_option (λ found, Z.of_nat found.1) (-1)%Z
               (list_find (λ k, k = key) (key_map s).*1)).
Proof.
  intros Hrep. pose proof (represents_length s Hrep) as Hlen.
  pose proof Hrep as (_ & Hnd & Hchain & Hend).
  unfold indexOf, read. rewrite Hend. simpl.
  rewrite (indexOf_from_spec key (key_map s) end_ 0 _ s Hchain); [done| |lia].
  by apply NoDup_cons in Hnd as [? _].
Qed.

(** The loop of [__getitem__] over the entries that are still to come. *)
Lemma getitem_from_spec idx entries :
  ∀ p i fuel s key,
    chain (cells s) p entries end_ → end_ ∉ entries.*2 →
    length entries ≤ fuel → (i ≤ idx)%Z →
    entries.*1 !! Z.to_nat (idx - i) = Some key →
    getitem_from fuel idx i (hd end_ entries.*2) s = Returns key.
Proof.
  induction entries as [|[k a] rest IH];
    intros p i fuel s key Hchain Hend Hfuel Hidx Hkey; [done|].
  simpl in Hfuel. destruct fuel as [|fuel]; [lia|].
  destruct Hchain as [Ha Hrest].
  assert (a ≠ end_) as Ha_end.
  { intros ->. apply Hend. apply list_elem_of_here. }
  simpl. rewrite (proj2 (Nat.eqb_neq a end_) Ha_end).
  unfold read. rewrite Ha. simpl.
  destruct (Z.eqb_spec i idx) as [->|Hne].
  - rewrite Z.sub_diag in Hkey. simpl in Hkey. congruence.
  - apply (IH a (i + 1)%Z fuel s key Hrest); [|lia|lia|].
    + intros Hin. apply Hend. by apply list_elem_of_further.
    + replace (Z.to_nat (idx - i)) with (S (Z.to_nat (idx - (i + 1))))
        in Hkey by lia.
      exact Hkey.
Qed.

Lemma getitem_represents (i : nat) key s :
  represents s → (key_map s).*1 !! i = Some key →
  getitem (Some (Z.of_nat i)) s = Returns key.
Proof.
  intros Hrep Hkey. pose proof (represents_length s Hrep) as Hlen.
  pose proof Hrep as (_ & Hnd & Hchain & Hend).
  pose proof (lookup_lt_Some _ _ _ Hkey) as Hi. rewrite length_fmap in Hi.
  unfold getitem, len.
  destruct (Z.ltb_spec (Z.of_nat i) 0) as [|_]; [lia|].
  destruct (Z.leb_spec (Z.of_nat (length (key_map s))) (Z.of_nat i)) as [|_];
    [lia|].
  simpl. unfold read. rewrite Hend. simpl.
  apply (getitem_from_spec _ (key_map s) end_ 0 _ s key Hchain); [|lia|lia|].
  - by apply NoDup_cons in Hnd as [? _].
  - by rewrite Z.sub_0_r, Nat2Z.id.
Qed.

Lemma getitem_out_of_range (idx : Z) s :
  (idx < 0 ∨ Z.of_nat (len s) ≤ idx)%Z →
  getitem (Some idx) s = Raises "ValueError".
Proof.
  intros Hidx. unfold getitem.
  destruct (Z.ltb_spec idx 0); [done|].
  destruct (Z.leb_spec (Z.of_nat (len s)) idx); [done|lia].
Qed.

(** The loop of [union]. *)
Lemma union_from_spec (others : list (SetArg K)) :
  ∀ res,
    represents res → Forall is_set others →
    ∃ res',
      union_from others res = Returns res' ∧ represents res' ∧
      (key_map res').*1
      = foldl insert_all (key_map res).*1 (elements_of <$> others).
Proof.
  induction others as [|arg others IH]; intros res Hrep Hargs.
  - by exists res.
  - apply Forall_cons in Hargs as [Harg Hargs].
    destruct arg as [keys|s|]; [| |done]; simpl.
    + destruct (update_represents keys res Hrep) as (res1 & -> & Hrep1 & Hk1).
      simpl. destruct (IH res1 Hrep1 Hargs) as (res' & Hrun & Hrep' & Hk').
      exists res'. by rewrite Hk', Hk1.
    + simpl in Harg. rewrite (iter_represents s Harg). simpl.
      destruct (update_represents (key_map s).*1 res Hrep)
        as (res1 & -> & Hrep1 & Hk1).
      simpl. destruct (IH res1 Hrep1 Hargs) as (res' & Hrun & Hrep' & Hk').
      exists res'. by rewrite Hk', Hk1.
Qed.

Lemma union_from_AssertionError (pre post : list (SetArg K)) :
  ∀ res,
    represents res → Forall is_set pre →
    union_from (pre ++ AnotherObject :: post) res = Raises "AssertionError".
Proof.
  induction pre as [|arg pre IH]; intros res Hrep Hargs; [done|].
  apply Forall_cons in Hargs as [Harg Hargs].
  destruct arg as [keys|s|]; [| |done]; simpl.
  - destruct (update_represents keys res Hrep) as (res1 & -> & Hrep1 & _).
    simpl. by apply IH.
  - simpl in Harg. rewrite (iter_represents s Harg). simpl.
    destruct (update_represents (key_map s).*1 res Hrep)
      as (res1 & -> & Hrep1 & _).
    simpl. by apply IH.
Qed.

Lemma OrderedSet_init_represents (keys : list K) :
  ∃ s,
    OrderedSet_init (Some keys) = Returns s ∧ represents s ∧
    (key_map s).*1 = insert_all [] keys.
Proof. apply (update_represents keys empty_set), represents_empty. Qed.

(** The loop of [difference]. *)
Lemma difference_from_spec (others : list (K → bool)) keys :
  ∀ res,
    represents res →
    ∃ res',
      difference_from others keys res = Returns res' ∧ represents res' ∧
      (key_map res').*1
      = insert_all (key_map res).*1
          (filter (λ k, existsb (λ other, other k) others = false) keys).
Proof.
  induction keys as [|k keys IH]; intros res Hrep.
  - by exists res.
  - simpl. rewrite filter_cons.
    destruct (existsb (λ other, other k) others) eqn:Hany.
    + simpl. destruct (IH res Hrep) as (res' & Hrun & Hrep' & Hk').
      exists res'. split; [done|]. split; [done|].
      by destruct (decide (true = false)).
    + destruct (add_represents k res Hrep) as (res1 & -> & Hrep1 & Hk1).
      simpl. destruct (IH res1 Hrep1) as (res' & Hrun & Hrep' & Hk').
      exists res'. split; [done|]. split; [done|].
      destruct (decide (false = false)); [|done].
      rewrite Hk', Hk1. unfold insert_all. simpl.
      by destruct (bool_decide (k ∈ (key_map res).*1)).
Qed.

Lemma filter_absent (key : K) (keys : list K) :
  key ∉ keys → filter (λ k, k ≠ key) keys = keys.
Proof.
  induction keys as [|k keys IH]; intros Hnot; [done|].
  apply not_elem_of_cons in Hnot as [Hne Hnot].
  rewrite filter_cons_True by done. by rewrite IH.
Qed.

Lemma filter_keys key entries :
  (filter (λ entry, entry.1 ≠ key) entries).*1
  = filter (λ k, k ≠ key) entries.*1.
Proof.
  induction entries as [|[k a] rest IH]; [done|].
  rewrite fmap_cons, !filter_cons. simpl.
  destruct (decide (k ≠ key)); [rewrite fmap_cons; simpl|]; by rewrite IH.
Qed.

Lemma discard_represents key s :
  represents s →
  ∃ s',
    discard key s = Returns s' ∧ represents s' ∧
    (key_map s').*1 = filter (λ k, k ≠ key) (key_map s).*1.
Proof.
  intros Hrep. destruct (decide (key ∈ (key_map s).*1)) as [Hin|Hnot].
  - pose proof Hrep as (Hnd & _).
    destruct (entries_split (key_map s) key Hnd Hin)
      as (e1 & a & e2 & Hmap & _ & Hfilter).
    destruct (discard_split key a e1 e2 s Hrep Hmap)
      as (s' & Hrun & Hrep' & Hmap' & _).
    exists s'. split; [done|]. split; [done|].
    rewrite Hmap', <- Hfilter.
    apply filter_keys.
  - exists s. rewrite (discard_absent key s Hnot).
    by rewrite (filter_absent key _ Hnot).
Qed.

Lemma eq_OrderedSet_represents s other :
  represents s → represents other →
  eq_OrderedSet s other
  = Returns (bool_decide ((key_map s).*1 = (key_map other).*1)).
Proof.
  intros Hrep Hrep'. unfold eq_OrderedSet, len.
  rewrite (iter_represents s Hrep), (iter_represents other Hrep').
  case_bool_decide as Hlen; [done|].
  rewrite bool_decide_eq_false_2; [done|]. intros Hkeys. apply Hlen.
  by rewrite <- (length_fmap fst (key_map s)), Hkeys, length_fmap.
Qed.

Lemma insert_all_sublist (keys acc : list K) :
  ∃ new, insert_all acc keys = acc ++ new ∧ new `sublist_of` keys.
Proof.
  revert acc. induction keys as [|x keys IH]; intros acc.
  - exists []. unfold insert_all. simpl. by rewrite app_nil_r.
  - change (insert_all acc (x :: keys))
      with (insert_all (if bool_decide (x ∈ acc) then acc else acc ++ [x])
              keys).
    destruct (IH (if bool_decide (x ∈ acc) then acc else acc ++ [x]))
      as (new & -> & Hsub).
    case_bool_decide.
    + exists new. split; [done|]. by apply sublist_cons.
    + exists (x :: new). rewrite <- app_assoc. split; [done|].
      by apply sublist_skip.
Qed.

End OrderedSet_proofs.

(** [OrderedSet(iterable)] makes a set as the class keeps it, for any
    iterable: iterating over it gives the elements of the iterable, each
    once, in the order of their first occurrence; so it gives the iterable
    back when no element comes twice in it. *)
Theorem OrderedSet_init_first_occurrences {K} `{EqDecision K}
    (iterable : list K) :
  ∃ s keys,
    OrderedSet_init (Some iterable) = Returns s ∧ represents s ∧
    iter s = Returns keys ∧ len s = length keys ∧
    keys = insert_all [] iterable ∧
    NoDup keys ∧ (∀ k, k ∈ keys ↔ k ∈ iterable) ∧
    keys `sublist_of` iterable ∧ (NoDup iterable → keys = iterable).
Proof.
  destruct (OrderedSet_init_represents iterable) as (s & Hrun & Hrep & Hkeys).
  exists s, (key_map s).*1. split; [done|]. split; [done|].
  split; [by apply iter_represents|].
  split; [unfold len; by rewrite length_fmap|].
  split; [done|]. rewrite Hkeys.
  split; [apply insert_all_NoDup, NoDup_nil_2|].
  split.
  { intros k. rewrite insert_all_elem_of, elem_of_nil. tauto. }
  split.
  { by destruct (insert_all_sublist iterable []) as (new & -> & Hsub). }
  intros Hnd. by apply (insert_all_fresh [] iterable).
Qed.

(** [add] on a set as the class keeps it: a key that the set has
    leaves the order as it is, a new key comes last; the set has the key
    afterwards and is still as the class keeps it. *)
Theorem add_appends_new_key {K} `{EqDecision K} (key : K)
    (s : OrderedSet K) (keys : list K) :
  represents s → iter s = Returns keys →
  ∃ s',
    add key s = Returns s' ∧ represents s' ∧
    iter s' = Returns (if bool_decide (key ∈ keys) then keys
                       else keys ++ [key]) ∧
    contains_key key s' = true.
Proof.
  intros Hrep Hiter. rewrite (iter_represents s Hrep) in Hiter.
  injection Hiter as <-.
  destruct (add_represents key s Hrep) as (s' & Hrun & Hrep' & Hkeys).
  exists s'. split; [done|]. split; [done|].
  rewrite (iter_represents s' Hrep'), Hkeys. split; [done|].
  unfold contains_key. rewrite Hkeys. apply bool_decide_eq_true_2.
  case_bool_decide; [done|]. apply elem_of_app. right.
  apply list_elem_of_here.
Qed.

Lemma add_appends_new_key_witness :
  ∃ s',
    add 11%Z sample_set = Returns s' ∧ represents s' ∧
    iter s' = Returns (if bool_decide (11 ∈ [5; 7; 9]) then [5; 7; 9]
                       else [5; 7; 9] ++ [11])%Z ∧
    contains_key 11%Z s' = true.
Proof.
  apply (add_appends_new_key 11%Z sample_set [5; 7; 9]%Z).
  - by_computing.
  - reflexivity.
Defined.

(** [discard] on a set as the class keeps it takes the key out and
    leaves the other keys in their order; a key that the set does not have
    changes nothing. The set is still as the class keeps it. *)
Theorem discard_removes_key {K} `{EqDecision K} (key : K)
    (s : OrderedSet K) (keys : list K) :
  represents s → iter s = Returns keys →
  ∃ s',
    discard key s = Returns s' ∧ represents s' ∧
    iter s' = Returns (filter (λ k, k ≠ key) keys) ∧
    contains_key key s' = false ∧
    (key ∉ keys → s' = s).
Proof.
  intros Hrep Hiter. rewrite (iter_represents s Hrep) in Hiter.
  injection Hiter as <-.
  destruct (discard_represents key s Hrep) as (s' & Hrun & Hrep' & Hkeys).
  exists s'. split; [done|]. split; [done|].
  rewrite (iter_represents s' Hrep'), Hkeys. split; [done|]. split.
  - unfold contains_key. rewrite Hkeys. apply bool_decide_eq_false_2.
    intros Hin. by apply list_elem_of_filter in Hin as [? _].
  - intros Hnot. rewrite (discard_absent key s Hnot) in Hrun. congruence.
Qed.

Lemma discard_removes_key_witness :
  ∃ s',
    discard 7%Z sample_set = Returns s' ∧ represents s' ∧
    iter s' = Returns (filter (λ k, k ≠ 7) [5; 7; 9])%Z ∧
    contains_key 7%Z s' = false ∧
    (7%Z ∉ [5; 7; 9]%Z → s' = sample_set).
Proof.
  apply (discard_removes_key 7%Z sample_set [5; 7; 9]%Z).
  - by_computing.
  - reflexivity.
Defined.

(** On a set as the class keeps it, [__iter__] gives every key once,
    [__reversed__] gives the same keys in the opposite order, [__len__] is
    their number and [__contains__] holds of them and of nothing else. *)
Theorem reversed_is_iter_reversed {K} `{EqDecision K} (s : OrderedSet K) :
  represents s →
  ∃ keys,
    iter s = Returns keys ∧ reversed s = Returns (reverse keys) ∧
    NoDup keys ∧ len s = length keys ∧
    ∀ key, contains_key key s = true ↔ key ∈ keys.
Proof.
  intros Hrep. exists (key_map s).*1.
  split; [by apply iter_represents|].
  split; [by apply reversed_represents|].
  split; [by destruct Hrep|].
  split; [unfold len; by rewrite length_fmap|].
  intros key. unfold contains_key. apply bool_decide_eq_true.
Qed.

Lemma reversed_is_iter_reversed_witness :
  ∃ keys,
    iter sample_set = Returns keys ∧
    reversed sample_set = Returns (reverse keys) ∧
    NoDup keys ∧ len sample_set = length keys ∧
    ∀ key, contains_key key sample_set = true ↔ key ∈ keys.
Proof. apply (reversed_is_iter_reversed sample_set). by_computing. Defined.

(** [pop] raises [KeyError] on a set without keys; otherwise it
    returns the key that comes last, or with [last=False] the one that comes
    first, and takes it out of the set, which keeps the other keys in their
    order. *)
Theorem pop_takes_an_end {K} `{EqDecision K} (from_last : bool)
    (s : OrderedSet K) (keys : list K) :
  represents s → iter s = Returns keys →
  match (if from_last then last keys else head keys) with
  | None => keys = [] ∧ pop from_last s = Raises "KeyError"
  | Some key =>
      ∃ s',
        pop from_last s = Returns (key, s') ∧ represents s' ∧
        iter s' = Returns (if from_last then removelast keys else tail keys)
  end.
Proof.
  intros Hrep Hiter. rewrite (iter_represents s Hrep) in Hiter.
  injection Hiter as <-. destruct from_last.
  - destruct (key_map s) as [|entry entries _] eqn:Hmap using rev_ind.
    + split; [done|]. by apply pop_empty.
    + destruct entry as [k a]. rewrite fmap_app.
      change ([(k, a)].*1) with [k]. rewrite last_snoc.
      destruct (pop_last_represents s entries k a Hrep Hmap)
        as (s' & Hrun & Hrep' & Hmap').
      exists s'. split; [done|]. split; [done|].
      rewrite (iter_represents s' Hrep'), Hmap'.
      by rewrite removelast_last.
  - destruct (key_map s) as [|[k a] entries] eqn:Hmap.
    + split; [done|]. by apply pop_empty.
    + simpl.
      destruct (pop_first_represents s entries k a Hrep Hmap)
        as (s' & Hrun & Hrep' & Hmap').
      exists s'. split; [done|]. split; [done|].
      by rewrite (iter_represents s' Hrep'), Hmap'.
Qed.

Lemma pop_takes_an_end_witness :
  ∃ s',
    pop true sample_set = Returns (9%Z, s') ∧ represents s' ∧
    iter s' = Returns (removelast [5; 7; 9]%Z).
Proof.
  apply (pop_takes_an_end true sample_set [5; 7; 9]%Z).
  - by_computing.
  - reflexivity.
Defined.

(** [difference_update] on a set as the class keeps it takes out the
    keys that are in [other] and keeps the rest in their order, although it
    discards keys of the set while it iterates over it. *)
Theorem difference_update_filters {K} `{EqDecision K} (other : K → bool)
    (s : OrderedSet K) (keys : list K) :
  represents s → iter s = Returns keys →
  ∃ s',
    difference_update other s = Returns s' ∧ represents s' ∧
    iter s' = Returns (filter (λ k, other k = false) keys).
Proof.
  intros Hrep Hiter. rewrite (iter_represents s Hrep) in Hiter.
  injection Hiter as <-.
  destruct (difference_update_represents other s Hrep)
    as (s' & Hrun & Hrep' & Hkeys).
  exists s'. split; [done|]. split; [done|].
  by rewrite (iter_represents s' Hrep'), Hkeys.
Qed.

Lemma difference_update_filters_witness :
  ∃ s',
    difference_update (λ k, (k <? 8)%Z) sample_set = Returns s' ∧
    represents s' ∧
    iter s' = Returns (filter (λ k, (k <? 8)%Z = false) [5; 7; 9]%Z).
Proof.
  apply (difference_update_filters (λ k, (k <? 8)%Z) sample_set
           [5; 7; 9]%Z).
  - by_computing.
  - reflexivity.
Defined.

(** On a set as the class keeps it, [indexOf] and [__getitem__] are
    inverse to each other on the positions of the iteration; [indexOf] of a
    key that the set does not have is -1; an index below 0 or from the
    length on raises [ValueError], so -1 is no index; and no call of
    [__getitem__] reaches the [Exception] after its loop. *)
Theorem indexOf_getitem_inverse {K} `{EqDecision K} (s : OrderedSet K)
    (keys : list K) :
  represents s → iter s = Returns keys →
  (∀ (i : nat) key,
     keys !! i = Some key →
     indexOf key s = Returns (Z.of_nat i) ∧
     getitem (Some (Z.of_nat i)) s = Returns key) ∧
  (∀ key, key ∉ keys → indexOf key s = Returns (-1)%Z) ∧
  (∀ idx, (idx < 0 ∨ Z.of_nat (length keys) ≤ idx)%Z →
     getitem (Some idx) s = Raises "ValueError") ∧
  (∀ idx, getitem idx s ≠ Raises "Exception").
Proof.
  intros Hrep Hiter. rewrite (iter_represents s Hrep) in Hiter.
  injection Hiter as <-.
  assert (len s = length (key_map s).*1) as Hlen.
  { unfold len. by rewrite length_fmap. }
  split; [|split; [|split]].
  - intros i key Hkey. split; [|by apply getitem_represents].
    rewrite (indexOf_represents key s Hrep).
    destruct (list_find (λ k, k = key) (key_map s).*1) as [[j k]|] eqn:Hfind.
    + apply list_find_Some in Hfind as (Hj & -> & _). simpl.
      destruct Hrep as (Hnd & _).
      by rewrite (NoDup_lookup _ i j key Hnd Hkey Hj).
    + apply list_find_None in Hfind.
      apply list_elem_of_lookup_2 in Hkey.
      by destruct (proj1 (Forall_forall _ _) Hfind key Hkey).
  - intros key Hnot. rewrite (indexOf_represents key s Hrep).
    destruct (list_find (λ k, k = key) (key_map s).*1) as [[j k]|] eqn:Hfind;
      [|done].
    apply list_find_Some in Hfind as (Hj & -> & _).
    by apply list_elem_of_lookup_2 in Hj.
  - intros idx Hidx. apply getitem_out_of_range. by rewrite Hlen.
  - intros [idx|]; [|done].
    destruct (decide (idx < 0 ∨ Z.of_nat (len s) ≤ idx)%Z) as [Hout|Hin].
    + by rewrite (getitem_out_of_range idx s Hout).
    + destruct ((key_map s).*1 !! Z.to_nat idx) as [key|] eqn:Hkey.
      * pose proof (getitem_represents (Z.to_nat idx) key s Hrep Hkey) as Hget.
        rewrite Z2Nat.id in Hget by lia. by rewrite Hget.
      * apply lookup_ge_None in Hkey. lia.
Qed.

Lemma indexOf_getitem_inverse_witness :
  indexOf 7%Z sample_set = Returns 1%Z ∧
  getitem (Some 1%Z) sample_set = Returns 7%Z.
Proof.
  assert (represents sample_set) as Hrep by by_computing.
  assert (iter sample_set = Returns [5; 7; 9]%Z) as Hiter by reflexivity.
  destruct (indexOf_getitem_inverse sample_set [5; 7; 9]%Z Hrep Hiter)
    as [Hinverse _].
  exact (Hinverse 1 7%Z eq_refl).
Defined.

(** [union] of a set as the class keeps it with arguments that are
    sets or such [OrderedSet]s returns a new set: the keys of the set in
    their order, then the elements of each argument that are new, in the
    order of the arguments and of their iteration. An argument of another
    class raises [AssertionError] when its turn comes. *)
Theorem union_appends_new_elements {K} `{EqDecision K} (s : OrderedSet K)
    (keys : list K) (others : list (SetArg K)) :
  represents s → iter s = Returns keys →
  (Forall is_set others →
   ∃ res,
     union s others = Returns res ∧ represents res ∧
     iter res = Returns (foldl insert_all keys (elements_of <$> others))) ∧
  (∀ pre post,
     others = pre ++ AnotherObject :: post → Forall is_set pre →
     union s others = Raises "AssertionError").
Proof.
  intros Hrep Hiter. rewrite (iter_represents s Hrep) in Hiter.
  injection Hiter as <-.
  destruct (OrderedSet_init_represents (key_map s).*1)
    as (res0 & Hrun0 & Hrep0 & Hkeys0).
  rewrite (insert_all_fresh [] (key_map s).*1) in Hkeys0
    by (by destruct Hrep).
  simpl in Hkeys0. unfold union. rewrite Hrun0. simpl. split.
  - intros Hargs.
    destruct (union_from_spec others res0 Hrep0 Hargs)
      as (res & Hrun & Hrep' & Hkeys).
    exists res. split; [done|]. split; [done|].
    by rewrite (iter_represents res Hrep'), Hkeys, Hkeys0.
  - intros pre post -> Hargs. by apply union_from_AssertionError.
Qed.

Lemma union_appends_new_elements_witness :
  ∃ res,
    union sample_set [PySet [9; 1]%Z; AnOrderedSet sample_set] = Returns res ∧
    represents res ∧
    iter res
    = Returns (foldl insert_all [5; 7; 9]%Z
                 (elements_of <$> [PySet [9; 1]%Z; AnOrderedSet sample_set])).
Proof.
  assert (represents sample_set) as Hrep by by_computing.
  assert (iter sample_set = Returns [5; 7; 9]%Z) as Hiter by reflexivity.
  destruct (union_appends_new_elements sample_set [5; 7; 9]%Z
              [PySet [9; 1]%Z; AnOrderedSet sample_set] Hrep Hiter)
    as [Hreturns _].
  apply Hreturns. apply Forall_cons. split; [exact I|].
  apply Forall_cons. split; [exact Hrep|]. apply Forall_nil_2.
Defined.

(** [difference] of a set as the class keeps it returns a new set
    with the keys that are in none of the [others], in their order; with no
    [others] it is a copy, equal to the set by [__eq__]. *)
Theorem difference_keeps_order {K} `{EqDecision K} (s : OrderedSet K)
    (keys : list K) (others : list (K → bool)) :
  represents s → iter s = Returns keys →
  ∃ res,
    difference s others = Returns res ∧ represents res ∧
    iter res
    = Returns (filter (λ k, existsb (λ other, other k) others = false) keys) ∧
    (others = [] → eq_OrderedSet s res = Returns true).
Proof.
  intros Hrep Hiter. rewrite (iter_represents s Hrep) in Hiter.
  injection Hiter as <-.
  unfold difference. rewrite (iter_represents s Hrep). simpl.
  destruct (difference_from_spec others (key_map s).*1 empty_set
              represents_empty) as (res & Hrun & Hrep' & Hkeys).
  change (key_map empty_set).*1 with (@nil K) in Hkeys.
  rewrite (insert_all_fresh []) in Hkeys
    by (apply NoDup_filter; by destruct Hrep).
  simpl in Hkeys.
  exists res. split; [done|]. split; [done|].
  rewrite (iter_represents res Hrep'), Hkeys. split; [done|].
  intros ->. rewrite (eq_OrderedSet_represents s res Hrep Hrep'), Hkeys.
  f_equal. apply bool_decide_eq_true_2. simpl. clear.
  induction (key_map s).*1 as [|k keys IH]; [done|].
  rewrite filter_cons_True by done. by rewrite <- IH.
Qed.

Lemma difference_keeps_order_witness :
  ∃ res,
    difference sample_set [λ k, (k <? 6)%Z; λ k, (8 <? k)%Z] = Returns res ∧
    represents res ∧
    iter res
    = Returns (filter (λ k, existsb (λ other : Z → bool, other k)
                              [λ k, (k <? 6)%Z; λ k, (8 <? k)%Z] = false)
                 [5; 7; 9]%Z) ∧
    ([λ k, (k <? 6)%Z; λ k, (8 <? k)%Z] = [] →
     eq_OrderedSet sample_set res = Returns true).
Proof.
  apply (difference_keeps_order sample_set [5; 7; 9]%Z).
  - by_computing.
  - reflexivity.
Defined.
